(** * ca.py: math reformatter, flashcard parser and delimiter transcoder

    A shallow embedding of the text-processing core of [ca.py]
    ([_process_math_content], [format_display_math_block],
    [format_inline_math], [format_math_expressions],
    [convert_latex_delimiters], [parse_flashcards_from_text]) together with
    the parts of Python's [str] and [re] these functions rely on.

    Python strings are modelled as lists of 8-bit characters, read as the
    code points U+0000..U+00FF; the character tables below ([isspace],
    [lower], line boundaries) are CPython's on that range. *)

From Stdlib Require Import Ascii String List ZArith Lia Bool Arith.
From Stdlib Require DecimalString.
Import ListNotations.

Open Scope string_scope.
Open Scope list_scope.
Open Scope nat_scope.

(** ** Python's [str] *)

Definition str := list ascii.

Coercion list_ascii_of_string : string >-> list.

Module PyStr.

Definition LF : ascii := "010"%char.
Definition CR : ascii := "013"%char.

(** [c.isspace()] for one character: TAB, LF, VT, FF, CR, FS, GS, RS, US,
    SPACE, NEL and NBSP.  The regular expression class [\s] of a [str]
    pattern is the same set. *)
Definition is_space (c : ascii) : bool :=
  let n := nat_of_ascii c in
  ((9 <=? n) && (n <=? 13)) || ((28 <=? n) && (n <=? 32))
  || (n =? 133) || (n =? 160).

(** The line boundaries of [str.splitlines]: LF, VT, FF, CR, FS, GS, RS
    and NEL (CR LF counts as one boundary, see [splitlines]). *)
Definition is_linebreak (c : ascii) : bool :=
  let n := nat_of_ascii c in
  ((10 <=? n) && (n <=? 13)) || ((28 <=? n) && (n <=? 30)) || (n =? 133).

(** [c.lower()]: A-Z and the Latin-1 capitals U+00C0..U+00DE (without the
    multiplication sign U+00D7) move up by 32. *)
Definition lower_char (c : ascii) : ascii :=
  let n := nat_of_ascii c in
  if ((65 <=? n) && (n <=? 90))
     || ((192 <=? n) && (n <=? 222) && negb (n =? 215))
  then ascii_of_nat (n + 32) else c.

Definition lower (s : str) : str := map lower_char s.

(** [s.isspace()]: at least one character, and all of them whitespace. *)
Definition isspace (s : str) : bool :=
  match s with
  | [] => false
  | _ => forallb is_space s
  end.

Fixpoint lstrip (s : str) : str :=
  match s with
  | c :: s' => if is_space c then lstrip s' else s
  | [] => []
  end.

Definition rstrip (s : str) : str := rev (lstrip (rev s)).

(** [s.strip()] *)
Definition strip (s : str) : str := rstrip (lstrip s).

(** [s.startswith(p)] *)
Fixpoint startswith (s p : str) : bool :=
  match p, s with
  | [], _ => true
  | _ :: _, [] => false
  | a :: p', c :: s' => Ascii.eqb c a && startswith s' p'
  end.

(** [sep.join(parts)] *)
Fixpoint join (sep : str) (parts : list str) : str :=
  match parts with
  | [] => []
  | [p] => p
  | p :: rest => p ++ sep ++ join sep rest
  end.

(** [s.split(sep)] for a non-empty [sep]: left to right, occurrences do
    not overlap.  [skip] counts the characters of an occurrence of [sep]
    still to be passed over; [cur] is the current piece, reversed. *)
Fixpoint split_aux (sep : str) (s : str) (skip : nat) (cur : str)
  : list str :=
  match s with
  | [] => [rev cur]
  | c :: s' =>
      match skip with
      | S n => split_aux sep s' n cur
      | O =>
          if startswith s sep
          then rev cur :: split_aux sep s' (pred (length sep)) []
          else split_aux sep s' 0 (c :: cur)
      end
  end.

Definition split (s sep : str) : list str := split_aux sep s 0 [].

(** [s.splitlines()]: the boundaries are not kept, and no empty last line
    is produced for a text that ends in a boundary. *)
Fixpoint splitlines_aux (s : str) (cur : str) : list str :=
  match s with
  | [] => match cur with [] => [] | _ => [rev cur] end
  | c :: s' =>
      if Ascii.eqb c CR then
        match s' with
        | d :: s'' =>
            if Ascii.eqb d LF
            then rev cur :: splitlines_aux s'' []
            else rev cur :: splitlines_aux s' []
        | [] => [rev cur]
        end
      else if is_linebreak c then rev cur :: splitlines_aux s' []
      else splitlines_aux s' (c :: cur)
  end.

Definition splitlines (s : str) : list str := splitlines_aux s [].

(** Python's slice [l[lo:hi]] with step 1: a negative bound counts from
    the end, and both bounds are clipped to the list. *)
Definition slice_bound {A} (l : list A) (i : Z) : nat :=
  let len := Z.of_nat (length l) in
  Z.to_nat (if (i <? 0)%Z then Z.max (len + i) 0 else Z.min i len).

Definition slice {A} (l : list A) (lo hi : Z) : list A :=
  skipn (slice_bound l lo) (firstn (slice_bound l hi) l).

(** [l[lo:]] *)
Definition slice_from {A} (l : list A) (lo : Z) : list A :=
  skipn (slice_bound l lo) l.

(** [str(n)] for a natural number. *)
Definition of_nat (n : nat) : str :=
  list_ascii_of_string (DecimalString.NilEmpty.string_of_uint (Nat.to_uint n)).

End PyStr.

(** ** The fragment of Python's [re] the patterns of [ca.py] use

    A backtracking matcher in continuation-passing style: alternatives are
    tried in the order Python's engine tries them, so that greedy and lazy
    repetitions and the captured groups come out as they do in Python. *)

Module Re.
Import PyStr.

(** Single-character classes. *)
Inductive cset :=
| CChar (c : ascii)     (* a literal character *)
| CNotChar (c : ascii)  (* [^c]                *)
| CDot                  (* .                   *)
| CSpace.               (* \s                  *)

Inductive regex :=
| Eps
| One (cs : cset)
| Rep (greedy : bool) (min : nat) (cs : cset)  (* cs{min,} or cs{min,}? *)
| Seq (r1 r2 : regex)
| Group (n : nat) (r : regex)
| Bol                   (* ^ *)
| Eol.                  (* $ *)

Record flags := { MULTILINE : bool; DOTALL : bool }.

Definition no_flags := {| MULTILINE := false; DOTALL := false |}.
Definition re_MULTILINE := {| MULTILINE := true; DOTALL := false |}.
Definition re_DOTALL := {| MULTILINE := false; DOTALL := true |}.

Definition accepts (fl : flags) (cs : cset) (c : ascii) : bool :=
  match cs with
  | CChar a => Ascii.eqb c a
  | CNotChar a => negb (Ascii.eqb c a)
  | CDot => DOTALL fl || negb (Ascii.eqb c LF)
  | CSpace => is_space c
  end.

(** The matcher's state: the character before the current position ([None]
    at the start of the string), the text from the current position on,
    the number of characters matched so far, and the groups closed so far
    (the latest first). *)
Record mstate := {
  before : option ascii;
  rest : str;
  consumed : nat;
  groups : list (nat * str)
}.

Definition cont := mstate -> option mstate.

Definition advance (c : ascii) (rest' : str) (s : mstate) : mstate :=
  {| before := Some c; rest := rest';
     consumed := S (consumed s); groups := groups s |}.

(** Group [n] opened in state [s] and closes in state [s']. *)
Definition capture (n : nat) (s s' : mstate) : mstate :=
  {| before := before s'; rest := rest s'; consumed := consumed s';
     groups := (n, firstn (consumed s' - consumed s) (rest s)) :: groups s' |}.

Definition at_bol (fl : flags) (s : mstate) : bool :=
  match before s with
  | None => true
  | Some c => MULTILINE fl && Ascii.eqb c LF
  end.

Definition at_eol (fl : flags) (s : mstate) : bool :=
  match rest s with
  | [] => true
  | c :: rest' =>
      Ascii.eqb c LF
      && (MULTILINE fl || match rest' with [] => true | _ => false end)
  end.

(** [cs{min,}] followed by [k]: the greedy form tries one more character
    before it tries [k], the lazy form tries [k] first. *)
Fixpoint rep (fl : flags) (greedy : bool) (cs : cset) (k : cont)
    (min : nat) (b : option ascii) (n : nat) (g : list (nat * str))
    (text : str) {struct text} : option mstate :=
  let more :=
    match text with
    | c :: text' =>
        if accepts fl cs c
        then rep fl greedy cs k (pred min) (Some c) (S n) g text'
        else None
    | [] => None
    end in
  let here := k {| before := b; rest := text; consumed := n; groups := g |} in
  match min with
  | S _ => more
  | O =>
      if greedy
      then match more with Some r => Some r | None => here end
      else match here with Some r => Some r | None => more end
  end.

Fixpoint run (fl : flags) (r : regex) (k : cont) (s : mstate)
  : option mstate :=
  match r with
  | Eps => k s
  | One cs =>
      match rest s with
      | c :: rest' => if accepts fl cs c then k (advance c rest' s) else None
      | [] => None
      end
  | Rep greedy min cs =>
      rep fl greedy cs k min (before s) (consumed s) (groups s) (rest s)
  | Seq r1 r2 => run fl r1 (run fl r2 k) s
  | Group n r1 => run fl r1 (fun s' => k (capture n s s')) s
  | Bol => if at_bol fl s then k s else None
  | Eol => if at_eol fl s then k s else None
  end.

(** One attempt at the current position.  With [must_advance] an empty
    match is refused, as the engine does right after an empty match. *)
Definition match_here (fl : flags) (r : regex) (must_advance : bool)
    (b : option ascii) (text : str) : option mstate :=
  run fl r
    (fun s => if must_advance && (consumed s =? 0) then None else Some s)
    {| before := b; rest := text; consumed := 0; groups := [] |}.

(** A match object: [group(0)] and the numbered groups. *)
Record pymatch := {
  matched : str;
  caps : list (nat * str)
}.

(** [m.group(n)] for [n >= 1]; the empty string for a group that took no
    part in the match (every group of the patterns below takes part). *)
Fixpoint lookup (n : nat) (g : list (nat * str)) : str :=
  match g with
  | [] => []
  | (i, t) :: g' => if i =? n then t else lookup n g'
  end.

Definition group (m : pymatch) (n : nat) : str := lookup n (caps m).

(** A match found in a text: the text passed over before it, the match,
    the character before the text behind the match, and that text. *)
Record found := {
  skipped : str;
  hit : pymatch;
  last : option ascii;
  after : str
}.

Definition skip_one (c : ascii) (f : found) : found :=
  {| skipped := c :: skipped f; hit := hit f;
     last := last f; after := after f |}.

(** The leftmost match at or behind the current position. *)
Fixpoint search_from (fl : flags) (r : regex) (must_advance : bool)
    (b : option ascii) (text : str) {struct text} : option found :=
  match match_here fl r must_advance b text with
  | Some s =>
      Some {| skipped := [];
              hit := {| matched := firstn (consumed s) text;
                        caps := groups s |};
              last := before s; after := rest s |}
  | None =>
      match text with
      | [] => None
      | c :: text' =>
          option_map (skip_one c) (search_from fl r false (Some c) text')
      end
  end.

(** [re.search(r, text, flags)] *)
Definition search (fl : flags) (r : regex) (text : str) : option pymatch :=
  option_map hit (search_from fl r false None text).

(** The loop of [re.sub]: [n] matches replaced so far, [count = 0] for no
    limit.  Right after an empty match the next match must advance. *)
Fixpoint sub_loop (fuel : nat) (fl : flags) (r : regex)
    (repl : pymatch -> str) (count n : nat) (must_advance : bool)
    (b : option ascii) (text : str) : str :=
  match fuel with
  | O => text
  | S fuel' =>
      if (count =? 0) || (n <? count) then
        match search_from fl r must_advance b text with
        | None => text
        | Some f =>
            skipped f ++ repl (hit f) ++
            sub_loop fuel' fl r repl count (S n)
              (match matched (hit f) with [] => true | _ => false end)
              (last f) (after f)
        end
      else text
  end.

(** [re.sub(r, repl, text, count, flags)] with a callable [repl].  Two
    rounds of the loop pass at least one character, so the fuel is never
    used up (lemma [sub_fuel_enough]). *)
Definition sub (fl : flags) (r : regex) (repl : pymatch -> str)
    (count : nat) (text : str) : str :=
  sub_loop (2 * length text + 2) fl r repl count 0 false None text.

(** A replacement template: literal text and group references [\n]. *)
Inductive titem :=
| TLit (s : str)
| TRef (n : nat).

Definition expand (t : list titem) (m : pymatch) : str :=
  concat (map (fun i => match i with TLit s => s | TRef n => group m n end) t).

(** A literal string as a pattern. *)
Fixpoint Lit (s : str) : regex :=
  match s with
  | [] => Eps
  | [c] => One (CChar c)
  | c :: s' => Seq (One (CChar c)) (Lit s')
  end.

Fixpoint seq (rs : list regex) : regex :=
  match rs with
  | [] => Eps
  | [r] => r
  | r :: rs' => Seq r (seq rs')
  end.

End Re.

(** ** The functions of [ca.py] *)

Module Ca.
Import PyStr Re.

(** [cs*] and [cs*?] *)
Definition Star (cs : cset) : regex := Rep true 0 cs.
Definition LazyStar (cs : cset) : regex := Rep false 0 cs.

(** The pattern [^ (\s* ) ( .*? ) ( \$\$ .*? \$\$ ) ( .* ) $], written
    here with blanks between its parts. *)
Definition PATTERN_DOUBLE : regex :=
  seq [Bol;
       Group 1 (Star CSpace);
       Group 2 (LazyStar CDot);
       Group 3 (seq [Lit "$$"; LazyStar CDot; Lit "$$"]);
       Group 4 (Star CDot);
       Eol].

(** The pattern [\$ ( [^$]* ) \$] *)
Definition PATTERN_SINGLE : regex :=
  seq [Lit "$"; Group 1 (Star (CNotChar "$")); Lit "$"].

(** The pattern [\\tag\{ ( .*? ) \}] *)
Definition PATTERN_TAG : regex :=
  seq [Lit "\tag{"; Group 1 (LazyStar CDot); Lit "}"].

(** The pattern [\$\$ \s* ( .*? ) \s* \$\$] of
    [format_display_math_block] *)
Definition PATTERN_CONTENT : regex :=
  seq [Lit "$$"; Star CSpace; Group 1 (LazyStar CDot); Star CSpace; Lit "$$"].

(** The pattern [\n{3,}] *)
Definition PATTERN_BLANK : regex := Rep true 3 (CChar LF).

(** The patterns [\$\$ ( .*? ) \$\$] and [\$ ( .*? ) \$] of
    [convert_latex_delimiters] *)
Definition PATTERN_ANKI_DISPLAY : regex :=
  seq [Lit "$$"; Group 1 (LazyStar CDot); Lit "$$"].

Definition PATTERN_ANKI_INLINE : regex :=
  seq [Lit "$"; Group 1 (LazyStar CDot); Lit "$"].

(** [_process_math_content(content)] *)
Definition _process_math_content (content : str) : str :=
  let tag_suffix : str := "" in
  let tag_match := search no_flags PATTERN_TAG content in
  match tag_match with
  | Some m =>
      let tag_label := group m 1 in
      let content := sub no_flags PATTERN_TAG (fun _ => "") 1 content in
      let tag_suffix : str := " \quad \textbf{(" ++ tag_label ++ ")}" in
      strip content ++ tag_suffix
  | None => strip content ++ tag_suffix
  end.

(** [format_display_math_block(match)] *)
Definition format_display_math_block (m : pymatch) : str :=
  let indent := group m 1 in
  let pre_text := strip (group m 2) in
  let dollar_block := group m 3 in
  let post_text := strip (group m 4) in
  let content_match := search re_DOTALL PATTERN_CONTENT dollar_block in
  match content_match with
  | None => matched m
  | Some cm =>
      let processed_content := _process_math_content (group cm 1) in
      let result : list str := [] in
      let result :=
        match pre_text with
        | [] => result
        | _ => result ++ [indent ++ pre_text]
        end in
      let result :=
        result ++ [indent ++ "$$"; indent ++ processed_content; indent ++ "$$"] in
      let result :=
        match post_text with
        | [] => result
        | _ => result ++ [indent ++ post_text]
        end in
      join [LF] result
  end.

(** [format_inline_math(match)] *)
Definition format_inline_math (m : pymatch) : str :=
  "$" ++ _process_math_content (group m 1) ++ "$".

(** [format_math_expressions(text)]; [None] is Python's [None]. *)
Definition format_math_expressions (text : option str) : option str :=
  match text with
  | None => None
  | Some text =>
      let processed_text :=
        sub re_MULTILINE PATTERN_DOUBLE format_display_math_block 0 text in
      let processed_text :=
        sub no_flags PATTERN_SINGLE format_inline_math 0 processed_text in
      let processed_text :=
        sub no_flags PATTERN_BLANK (fun _ => [LF; LF]) 0 processed_text in
      Some (strip processed_text)
  end.

(** [convert_latex_delimiters(text)] *)
Definition convert_latex_delimiters (text : str) : str :=
  let text :=
    sub re_DOTALL PATTERN_ANKI_DISPLAY
      (expand [TLit "\["; TRef 1; TLit "\]"]) 0 text in
  let text :=
    sub no_flags PATTERN_ANKI_INLINE
      (expand [TLit "\( "; TRef 1; TLit " \)"]) 0 text in
  text.

(** A parsed flashcard, the dict with the keys [question] and [answer]. *)
Record card := { question : str; answer : str }.

(** The inner loop of [parse_flashcards_from_text] over
    [enumerate(lines)], from index [j] on; it returns [front_index] and
    [back_index] as they are when the loop ends or breaks. *)
Fixpoint find_labels (lines : list str) (j : Z) (front_index back_index : Z)
  : Z * Z :=
  match lines with
  | [] => (front_index, back_index)
  | line :: lines' =>
      let clean_line := lower (strip line) in
      if startswith clean_line "front:" || startswith clean_line "**front:"
      then
        if (front_index =? -1)%Z
        then find_labels lines' (j + 1)%Z j back_index
        else find_labels lines' (j + 1)%Z front_index back_index
      else if startswith clean_line "back:" || startswith clean_line "**back:"
      then
        if (back_index =? -1)%Z && negb (front_index =? -1)%Z
        then (front_index, j)
        else find_labels lines' (j + 1)%Z front_index back_index
      else find_labels lines' (j + 1)%Z front_index back_index
  end.

(** The state of the outer loop: [parsed_cards] and the lines printed. *)
Definition parse_state : Type := list card * list str.

(** The body of the loop over [enumerate(potential_card_blocks)]. *)
Definition parse_block (st : parse_state) (ib : nat * str) : parse_state :=
  let '(parsed_cards, printed) := st in
  let '(i, block) := ib in
  let block := strip block in
  match block with
  | [] => st
  | _ =>
      let lines := splitlines block in
      let '(front_index, back_index) := find_labels lines 0 (-1) (-1) in
      if negb (front_index =? -1)%Z && negb (back_index =? -1)%Z
         && (back_index >? front_index)%Z
      then
        let question_lines := slice lines (front_index + 1) back_index in
        let answer_lines := slice_from lines (back_index + 1) in
        let question := strip (join [LF] question_lines) in
        let answer := strip (join [LF] answer_lines) in
        match question, answer with
        | _ :: _, _ :: _ =>
            (parsed_cards ++ [{| question := question; answer := answer |}],
             printed)
        | _, _ =>
            (parsed_cards,
             printed ++
             ["DEBUG: Parsed block " ++ of_nat (i + 1)
              ++ " but question or answer was empty. Skipping."])
        end
      else
        (parsed_cards,
         printed ++
         ["DEBUG: Failed to find valid 'Front:' followed by 'Back:' in block "
          ++ of_nat (i + 1) ++ ". Skipping."])
  end.

(** [enumerate(l)] *)
Definition enumerate {A} (l : list A) : list (nat * A) :=
  combine (List.seq 0 (length l)) l.

(** [parse_flashcards_from_text(text_content)]: the list returned and the
    lines printed on the way. *)
Definition parse_flashcards_from_text (text_content : option str)
  : parse_state :=
  let parsed_cards : list card := [] in
  match text_content with
  | None | Some [] => (parsed_cards, [])
  | Some text_content =>
      if isspace text_content then (parsed_cards, [])
      else
        let potential_card_blocks := split text_content "---" in
        fold_left parse_block (enumerate potential_card_blocks)
          (parsed_cards, [])
  end.

End Ca.


(** * The clipboard loop, the keyboard automation and the hotkey callback

    These functions of [ca.py] act on the system clipboard, the keyboard
    and the terminal.  They are run here over an explicit state; what they
    do is recorded as a list of events.  A call of [pyperclip] or
    [pyautogui] may raise: whether the n-th such call of a run raises, and
    what, is given by [fails].  A call that raises does nothing else.
    [print] and [time.sleep] do not raise, and [KeyboardInterrupt], which
    only reaches the main thread, is left out. *)

Module CaIO.
Import PyStr Re Ca.

Inductive event : Type :=
| Print (line : str)
| Sleep (milliseconds : nat)
| Copy (text : str)
| KeyDown (key : str)
| KeyUp (key : str)
| Press (key : str)
| Hotkey (key1 key2 : str).

Inductive exn : Type :=
| PyperclipException (details : str)
| OtherException (details : str).

(** [str(e)] *)
Definition details_of (e : exn) : str :=
  match e with
  | PyperclipException d => d
  | OtherException d => d
  end.

(** The global [processing_cards_flag], the local [recent_value] of the
    clipboard loop, the system clipboard, the number of calls of
    [pyperclip] and [pyautogui] made so far, and what has been done. *)
Record state := {
  processing_cards_flag : bool;
  recent_value : str;
  clipboard : str;
  calls : nat;
  events : list event
}.

Inductive res (A : Type) : Type :=
| Returns (a : A)
| Raises (e : exn).
Arguments Returns {A} a.
Arguments Raises {A} e.

Definition M (A : Type) : Type := state -> res A * state.

Definition ret {A} (a : A) : M A := fun s => (Returns a, s).

Definition raise {A} (e : exn) : M A := fun s => (Raises e, s).

Definition bind {A B} (m : M A) (k : A -> M B) : M B :=
  fun s =>
    match m s with
    | (Returns a, s') => k a s'
    | (Raises e, s') => (Raises e, s')
    end.

Notation "x <- m ;; k" := (bind m (fun x => k))
  (at level 61, m at next level, right associativity).
Notation "m ;; k" := (bind m (fun _ => k))
  (at level 61, right associativity).

(** [try: body except Exception as e: handler] *)
Definition try_except {A} (body : M A) (handler : exn -> M A) : M A :=
  fun s =>
    match body s with
    | (Raises e, s') => handler e s'
    | r => r
    end.

(** [try: body finally: final] *)
Definition try_finally {A} (body : M A) (final : M unit) : M A :=
  fun s =>
    match body s with
    | (r, s') =>
        match final s' with
        | (Returns _, s'') => (r, s'')
        | (Raises e, s'') => (Raises e, s'')
        end
    end.

Fixpoint for_each {A} (l : list A) (body : A -> M unit) : M unit :=
  match l with
  | [] => ret tt
  | a :: l' => body a ;; for_each l' body
  end.

(** The effect of an event: it is recorded, and a copy replaces the
    content of the clipboard. *)
Definition perform (e : event) (s : state) : state :=
  {| processing_cards_flag := processing_cards_flag s;
     recent_value := recent_value s;
     clipboard := match e with Copy text => text | _ => clipboard s end;
     calls := calls s;
     events := events s ++ [e] |}.

Definition count_call (s : state) : state :=
  {| processing_cards_flag := processing_cards_flag s;
     recent_value := recent_value s;
     clipboard := clipboard s;
     calls := S (calls s);
     events := events s |}.

Definition set_flag (b : bool) : M unit :=
  fun s =>
    (Returns tt,
     {| processing_cards_flag := b;
        recent_value := recent_value s;
        clipboard := clipboard s;
        calls := calls s;
        events := events s |}).

Definition set_recent_value (v : str) : M unit :=
  fun s =>
    (Returns tt,
     {| processing_cards_flag := processing_cards_flag s;
        recent_value := v;
        clipboard := clipboard s;
        calls := calls s;
        events := events s |}).

Definition print (line : str) : M unit :=
  fun s => (Returns tt, perform (Print line) s).

Definition sleep (milliseconds : nat) : M unit :=
  fun s => (Returns tt, perform (Sleep milliseconds) s).

(** [a == b] on strings *)
Fixpoint str_eq (a b : str) : bool :=
  match a, b with
  | [], [] => true
  | c :: a', d :: b' => Ascii.eqb c d && str_eq a' b'
  | _, _ => false
  end.

Definition is_match (m : option pymatch) : bool :=
  match m with Some _ => true | None => false end.

Definition nonempty (s : str) : bool :=
  match s with [] => false | _ => true end.

Section Run.

(** [sys.platform] *)
Variable platform : str.

(** Whether the n-th call of [pyperclip] or [pyautogui] raises. *)
Variable fails : nat -> option exn.

(** A call of [pyperclip.copy] or of a [pyautogui] function *)
Definition call (e : event) : M unit :=
  fun s =>
    match fails (calls s) with
    | Some x => (Raises x, count_call s)
    | None => (Returns tt, perform e (count_call s))
    end.

(** [pyperclip.paste()] *)
Definition paste : M str :=
  fun s =>
    match fails (calls s) with
    | Some x => (Raises x, count_call s)
    | None => (Returns (clipboard s), count_call s)
    end.

(** The beginning of [clipboard_formatter_loop], before [while True] *)
Definition formatter_start : M unit :=
  print "Clipboard formatter started." ;;
  try_except (v <- paste ;; set_recent_value v)
    (fun e =>
       match e with
       | PyperclipException _ => set_recent_value ""
       | OtherException _ => raise e
       end).

(** The body of the [try] in the loop of [clipboard_formatter_loop] *)
Definition formatter_body : M unit :=
  current_clipboard_content <- paste ;;
  (fun s =>
     if negb (str_eq current_clipboard_content (recent_value s))
        && nonempty current_clipboard_content
        && negb (isspace current_clipboard_content)
     then
       (set_recent_value current_clipboard_content ;;
        if is_match (search no_flags PATTERN_SINGLE current_clipboard_content)
           || is_match (search re_MULTILINE PATTERN_DOUBLE
                          current_clipboard_content)
        then
          match format_math_expressions (Some current_clipboard_content) with
          | Some formatted_text =>
              if negb (str_eq formatted_text current_clipboard_content)
              then
                call (Copy formatted_text) ;;
                set_recent_value formatted_text ;;
                print "--- Auto-formatted LaTeX in clipboard ---"
              else ret tt
          | None => ret tt
          end
        else ret tt) s
     else ret tt s) ;;
  sleep 500.

(** One turn of the loop: whether it goes on, and the state it leaves. *)
Definition formatter_iteration (s : state) : bool * state :=
  match formatter_body s with
  | (Returns _, s') => (true, s')
  | (Raises (PyperclipException _), s') => (false, s')
  | (Raises (OtherException _), s') => (true, perform (Sleep 2000) s')
  end.

(** The first [n] turns of [while True], when nothing else touches the
    clipboard in between. *)
Fixpoint formatter_while (n : nat) (s : state) : state :=
  match n with
  | 0 => s
  | S n' =>
      match formatter_iteration s with
      | (true, s') => formatter_while n' s'
      | (false, s') => s'
      end
  end.

(** [clipboard_formatter_loop()], cut after [n] turns of its loop *)
Definition clipboard_formatter_loop (n : nat) (s : state) : state :=
  match formatter_start s with
  | (Returns _, s') => formatter_while n s'
  | (Raises _, s') => s'
  end.

Definition modifier_key : str :=
  if str_eq platform "darwin" then "command" else "ctrl".

(** [robust_paste(text)] *)
Definition robust_paste (text : str) : M unit :=
  call (Copy text) ;;
  sleep 100 ;;
  call (KeyDown modifier_key) ;;
  call (Press "v") ;;
  call (KeyUp modifier_key) ;;
  sleep 100.

(** The body of the [try] in the loop of [automate_anki_card_entry] *)
Definition card_steps (card_data : card) : M unit :=
  print "Step 1: Pasting Question..." ;;
  let question_text := convert_latex_delimiters (question card_data) in
  robust_paste question_text ;;
  print "Step 2: Tabbing to Answer field..." ;;
  call (Press "tab") ;;
  sleep 200 ;;
  print "Step 3: Pasting Answer..." ;;
  let answer_text := convert_latex_delimiters (answer card_data) in
  robust_paste answer_text ;;
  print ("Step 4: Saving card with '" ++ modifier_key ++ " + enter'...") ;;
  call (Hotkey modifier_key "enter") ;;
  sleep 750.

(** The loop over [enumerate(cards_to_process)] and the line printed
    after it; [total] is [len(cards_to_process)]. *)
Fixpoint entry_loop (total : nat) (l : list (nat * card)) : M unit :=
  match l with
  | [] => print ([LF] ++ "--- All specified flashcards processed! ---")
  | (i, card_data) :: l' =>
      print ("--- Processing Card " ++ of_nat (i + 1) ++ "/" ++ of_nat total
             ++ " ---") ;;
      fun s =>
        match card_steps card_data s with
        | (Raises e, s') =>
            print ("ERROR: A keyboard automation step failed for card "
                   ++ of_nat (i + 1) ++ ". Aborting. Details: "
                   ++ details_of e) s'
        | (Returns _, s') =>
            (print ("SUCCESS: Card " ++ of_nat (i + 1) ++ " created.") ;;
             entry_loop total l') s'
        end
  end.

(** [automate_anki_card_entry(cards_to_process)] *)
Definition automate_anki_card_entry (cards_to_process : list card) : M unit :=
  match cards_to_process with
  | [] => print "INFO: No valid cards were parsed. Automation skipped."
  | _ =>
      print ([LF] ++ "INFO: Starting Anki card creation for "
             ++ of_nat (length cards_to_process) ++ " card(s)...") ;;
      entry_loop (length cards_to_process) (enumerate cards_to_process)
  end.

(** [on_activate_hotkey_callback()] *)
Definition on_activate_hotkey_callback : M unit :=
  fun s =>
    if processing_cards_flag s
    then print "INFO: Card processing already in progress." s
    else
      (set_flag true ;;
       print ([LF; LF]
              ++ "=== Hotkey Activated: Starting Anki Card Creation ===") ;;
       try_finally
         (try_except
            (card_data_string <- paste ;;
             if negb (nonempty card_data_string) || isspace card_data_string
             then print "INFO: Clipboard is empty. No cards to process."
             else
               print "INFO: Parsing flashcard data from clipboard..." ;;
               let '(parsed_cards, printed) :=
                 parse_flashcards_from_text (Some card_data_string) in
               for_each printed print ;;
               match parsed_cards with
               | [] =>
                   print "ERROR: No valid cards found in clipboard. Please check your format:" ;;
                   print "- Cards must be separated by '---'" ;;
                   print "- Each card must contain 'Front:' and 'Back:' on their own lines."
               | _ =>
                   print ("SUCCESS: Parsed " ++ of_nat (length parsed_cards)
                          ++ " card(s).") ;;
                   print ([LF] ++ "!!! YOU HAVE 3 SECONDS TO FOCUS THE ANKI 'ADD' WINDOW !!!") ;;
                   print "!!! Make sure the cursor is in the FIRST field (e.g., 'Front'). !!!" ;;
                   for_each [3; 2; 1]
                     (fun i =>
                        print ("Starting automation in " ++ of_nat i ++ "...") ;;
                        sleep 1000) ;;
                   print ([LF] ++ "ACTION: Starting keyboard automation now!") ;;
                   automate_anki_card_entry parsed_cards
               end)
            (fun e =>
               print ("ERROR: An unexpected error occurred during hotkey activation: "
                      ++ details_of e)))
         (set_flag false ;;
          print "=== Ready for next hotkey activation. ===")) s.

End Run.

End CaIO.

(** * The common prefix of [autocomplete.py] *)

Module Autocomplete.
Import PyStr.

(** What a call gives: the value returned, or the [IndexError] of an
    index past the end of a string. *)
Inductive result : Type :=
| Value (s : str)
| IndexError.

(** [i >= len(s) or s[i] != check_str] *)
Definition differs (i : nat) (check_str : ascii) (s : str) : bool :=
  match nth_error s i with
  | None => true
  | Some c => negb (Ascii.eqb c check_str)
  end.

(** The loop [for i in range(len(strs))], from [i] on with [n] values of
    [i] left, and the [return] after it; [first] is [strs[0]] and
    [others] is [strs[1:]], over which the inner loop goes. *)
Fixpoint columns (first : str) (others : list str) (i n : nat) : result :=
  match n with
  | 0 => Value first
  | S n' =>
      match nth_error first i with
      | None => IndexError
      | Some check_str =>
          if existsb (differs i check_str) others
          then Value (firstn i first)
          else columns first others (S i) n'
      end
  end.

(** [find_longest_common_prefix(strs)] *)
Definition find_longest_common_prefix (strs : list str) : result :=
  match strs with
  | [] => Value ""
  | first :: others => columns first others 0 (length strs)
  end.

End Autocomplete.
Import PyStr Re Ca.

(** * Notions used in the statements *)

(** The blank-line collapse in the words of the specification: of every run
    of line feeds the first two are kept.  [run] counts the line feeds
    directly before the current position. *)
Fixpoint squeeze (run : nat) (s : str) : str :=
  match s with
  | [] => []
  | c :: s' =>
      if Ascii.eqb c LF
      then if run <? 2 then c :: squeeze (S run) s' else squeeze (S run) s'
      else c :: squeeze 0 s'
  end.

(** The third step of [format_math_expressions]. *)
Definition collapse_blank (text : str) : str :=
  sub no_flags PATTERN_BLANK (fun _ => [LF; LF]) 0 text.

(** A run of three line feeds somewhere in the text. *)
Definition has_blank_run (s : str) : Prop :=
  exists a b, s = a ++ [LF; LF; LF] ++ b.

(** The text does not start, or does not end, with a line feed. *)
Definition no_LF_first (s : str) : Prop :=
  match s with c :: _ => c <> LF | [] => True end.

Definition no_LF_last (s : str) : Prop := forall p, s <> p ++ [LF].

(** No line feed has two line feeds directly before it, [run] of them
    standing before the text already. *)
Fixpoint runs_below3 (run : nat) (s : str) : bool :=
  match s with
  | [] => true
  | c :: s' =>
      if Ascii.eqb c LF then (run <? 2) && runs_below3 (S run) s'
      else runs_below3 0 s'
  end.

(** The character before the position reached by reading [p], when [b] is
    the character before [p]. *)
Fixpoint last_of (b : option ascii) (p : str) : option ascii :=
  match p with
  | [] => b
  | c :: p' => last_of (Some c) p'
  end.

Definition st (b : option ascii) (text : str) (n : nat) (g : list (nat * str))
  : mstate :=
  {| before := b; rest := text; consumed := n; groups := g |}.

(** What a pattern can match, apart from the order in which the engine
    tries: [matches fl r b p t] when [r] matches the text [p], which has the
    character [b] before it and the text [t] behind it. *)
Inductive matches (fl : flags)
  : regex -> option ascii -> str -> str -> Prop :=
| M_Eps b t : matches fl Eps b [] t
| M_One cs c b t :
    accepts fl cs c = true -> matches fl (One cs) b [c] t
| M_Rep greedy min cs p b t :
    Forall (fun c => accepts fl cs c = true) p -> min <= length p ->
    matches fl (Rep greedy min cs) b p t
| M_Seq r1 r2 p1 p2 b t :
    matches fl r1 b p1 (p2 ++ t) -> matches fl r2 (last_of b p1) p2 t ->
    matches fl (Seq r1 r2) b (p1 ++ p2) t
| M_Group n r p b t : matches fl r b p t -> matches fl (Group n r) b p t
| M_Bol b t : at_bol fl (st b t 0 []) = true -> matches fl Bol b [] t
| M_Eol b t : at_eol fl (st b t 0 []) = true -> matches fl Eol b [] t.

(** The number of line feeds the text starts with. *)
Fixpoint lead_LF (s : str) : nat :=
  match s with
  | c :: s' => if Ascii.eqb c LF then S (lead_LF s') else 0
  | [] => 0
  end.

(** The marker lines of the record format: the trimmed, lower-cased line
    starts with the label, with or without the emphasis prefix. *)
Definition is_front (line : str) : bool :=
  startswith (lower (strip line)) "front:"
  || startswith (lower (strip line)) "**front:".

Definition is_back (line : str) : bool :=
  startswith (lower (strip line)) "back:"
  || startswith (lower (strip line)) "**back:".

(** The index of the first element that satisfies [p]. *)
Fixpoint find_index {A} (p : A -> bool) (l : list A) : option nat :=
  match l with
  | [] => None
  | x :: l' => if p x then Some 0 else option_map S (find_index p l')
  end.

(** The block holds a front marker line and, on a later line, a back
    marker line. *)
Definition has_markers (lines : list str) : Prop :=
  exists f b lf lb,
    f < b /\ nth_error lines f = Some lf /\ is_front lf = true
    /\ nth_error lines b = Some lb /\ is_back lb = true.

(** The question and the answer in the words of the specification: the
    lines strictly between the first front marker and the first back marker
    behind it, and the lines behind that back marker, each joined with line
    feeds and trimmed.  Both are empty when a marker is missing. *)
Definition extracted (lines : list str) : str * str :=
  match find_index is_front lines with
  | None => ([], [])
  | Some f =>
      let behind := skipn (S f) lines in
      match find_index is_back behind with
      | None => ([], [])
      | Some d =>
          (strip (join [LF] (firstn d behind)),
           strip (join [LF] (skipn (S d) behind)))
      end
  end.

(** The records block number [i] adds to the result: [parse_block] run on
    an empty state. *)
Definition contribution (ib : nat * str) : list card :=
  fst (parse_block ([], []) ib).

(** The lines block number [i] prints. *)
Definition diagnostics (ib : nat * str) : list str :=
  snd (parse_block ([], []) ib).

(** The two lines [parse_flashcards_from_text] prints for block [i]. *)
Definition msg_empty_field (i : nat) : str :=
  "DEBUG: Parsed block " ++ of_nat (i + 1)
  ++ " but question or answer was empty. Skipping.".

Definition msg_no_markers (i : nat) : str :=
  "DEBUG: Failed to find valid 'Front:' followed by 'Back:' in block "
  ++ of_nat (i + 1) ++ ". Skipping.".

(** What one round of the outer loop does to the loop's state. *)
Inductive outcome :=
| Blank                       (* an empty block: nothing happens *)
| Emitted (c : card)          (* a record is appended *)
| Rejected (msg : str).       (* a line is printed *)

Definition apply_outcome (st : parse_state) (o : outcome) : parse_state :=
  match o with
  | Blank => st
  | Emitted c => (fst st ++ [c], snd st)
  | Rejected msg => (fst st, snd st ++ [msg])
  end.

(** The outcome of block number [i], in the words of the specification. *)
Definition block_outcome (ib : nat * str) : outcome :=
  let '(i, block) := ib in
  match strip block with
  | [] => Blank
  | _ =>
      let lines := splitlines (strip block) in
      match find_index is_front lines with
      | None => Rejected (msg_no_markers i)
      | Some f =>
          match find_index is_back (skipn (S f) lines) with
          | None => Rejected (msg_no_markers i)
          | Some _ =>
              match extracted lines with
              | ((_ :: _) as q, (_ :: _) as a) =>
                  Emitted {| question := q; answer := a |}
              | _ => Rejected (msg_empty_field i)
              end
          end
      end
  end.


(** The text holds no dollar sign. *)
Definition dollar_free (s : str) : Prop := ~ In "$"%char s.

(** The number of dollar signs in the text. *)
Definition dollars (s : str) : nat := count_occ ascii_dec s "$"%char.

(** A text made of spans [open c close] with plain text [a] behind each. *)
Fixpoint render (open close : str) (spans : list (str * str)) : str :=
  match spans with
  | [] => []
  | (c, a) :: spans' => open ++ c ++ close ++ a ++ render open close spans'
  end.

(** The text of the parser round trip: two blocks around one separator. *)
Definition two_cards_text : str :=
  "Front:" ++ [LF] ++ "Q1" ++ [LF] ++ "Back:" ++ [LF] ++ "A1" ++ [LF]
  ++ "---" ++ [LF]
  ++ "Front:" ++ [LF] ++ "Q2" ++ [LF] ++ "Back:" ++ [LF] ++ "A2".

(** * Further notions used in the statements *)

(** The lines [format_display_math_block] puts out for a display span:
    the text before the span, if any, the span on three lines, the text
    behind it, if any, all with the same indentation. *)
Definition display_lines (indent pre_text content post_text : str) : list str :=
  match pre_text with [] => [] | _ => [indent ++ pre_text] end
  ++ [indent ++ "$$"; indent ++ content; indent ++ "$$"]
  ++ match post_text with [] => [] | _ => [indent ++ post_text] end.

(** No two empty lines follow each other. *)
Fixpoint no_two_empty (lines : list str) : bool :=
  match lines with
  | [] :: (([] :: _) as rest) => false
  | _ :: rest => no_two_empty rest
  | [] => true
  end.

(** A block that is not empty after trimming. *)
Definition nonblank (block : str) : bool :=
  match strip block with [] => false | _ => true end.

(** The text does not end with a dash. *)
Definition no_dash_last (s : str) : Prop := forall p, s <> p ++ ["-"%char].


(** The texts put on the clipboard, in order, and the number of cards
    saved, in a list of events. *)
Fixpoint copies (l : list CaIO.event) : list str :=
  match l with
  | [] => []
  | CaIO.Copy text :: l' => text :: copies l'
  | _ :: l' => copies l'
  end.

Fixpoint saves (l : list CaIO.event) : nat :=
  match l with
  | [] => 0
  | CaIO.Hotkey _ _ :: l' => S (saves l')
  | _ :: l' => saves l'
  end.

(** The fields of the cards as they are typed: the question and the
    answer of each card, with the delimiters converted. *)
Definition fields (cards : list card) : list str :=
  flat_map (fun c => [convert_latex_delimiters (question c);
                      convert_latex_delimiters (answer c)]) cards.

(** The clipboard loop has nothing to do in this state: the clipboard holds
    what the loop saw last, or nothing, or blanks. *)
Definition settled (s : CaIO.state) : Prop :=
  CaIO.recent_value s = CaIO.clipboard s
  \/ CaIO.clipboard s = []
  \/ isspace (CaIO.clipboard s) = true.

(** [p] is a prefix of every string of [strs]. *)
Definition common_prefix (p : str) (strs : list str) : Prop :=
  forall s, In s strs -> firstn (length p) s = p.

(** Between two states nothing was copied, and the loop's variable and the
    clipboard are the same. *)
Definition untouched (s s' : CaIO.state) : Prop :=
  CaIO.clipboard s' = CaIO.clipboard s
  /\ CaIO.recent_value s' = CaIO.recent_value s
  /\ copies (CaIO.events s') = copies (CaIO.events s).
(** * The engine *)

Section Engine.
Variable fl : flags.

Lemma search_from_here r ma b text s :
  match_here fl r ma b text = Some s ->
  search_from fl r ma b text
  = Some {| skipped := [];
            hit := {| matched := firstn (consumed s) text; caps := groups s |};
            last := before s; after := rest s |}.
Proof. intros H. destruct text; cbn [search_from]; rewrite H; reflexivity. Qed.

Lemma search_from_next r ma b c text :
  match_here fl r ma b (c :: text) = None ->
  search_from fl r ma b (c :: text)
  = option_map (skip_one c) (search_from fl r false (Some c) text).
Proof. intros H. cbn [search_from]. rewrite H. reflexivity. Qed.

Lemma search_from_nil r ma b :
  match_here fl r ma b [] = None -> search_from fl r ma b [] = None.
Proof. intros H. cbn [search_from]. rewrite H. reflexivity. Qed.

(** No match at the current position: the loop of [sub] copies one
    character and goes on behind it. *)
Lemma sub_loop_skip fuel r repl count n ma b c text :
  match_here fl r ma b (c :: text) = None ->
  sub_loop (S fuel) fl r repl count n ma b (c :: text)
  = c :: sub_loop (S fuel) fl r repl count n false (Some c) text.
Proof.
  intros H. cbn [sub_loop].
  destruct ((count =? 0) || (n <? count)); [|reflexivity].
  rewrite (search_from_next _ _ _ _ _ H).
  destruct (search_from fl r false (Some c) text) as [m|]; reflexivity.
Qed.

(** A match at the current position: the loop puts the replacement and
    goes on behind the match. *)
Lemma sub_loop_hit fuel r repl count n ma b text s :
  (count =? 0) || (n <? count) = true ->
  match_here fl r ma b text = Some s ->
  sub_loop (S fuel) fl r repl count n ma b text
  = repl {| matched := firstn (consumed s) text; caps := groups s |}
    ++ sub_loop fuel fl r repl count (S n)
         (match firstn (consumed s) text with [] => true | _ => false end)
         (before s) (rest s).
Proof.
  intros Hc H. cbn [sub_loop]. rewrite Hc, (search_from_here _ _ _ _ _ H).
  reflexivity.
Qed.

Lemma sub_loop_nil fuel r repl count n ma b :
  match_here fl r ma b [] = None ->
  sub_loop fuel fl r repl count n ma b [] = [].
Proof.
  intros H. destruct fuel; cbn [sub_loop]; [reflexivity|].
  rewrite (search_from_nil _ _ _ H).
  destruct ((count =? 0) || (n <? count)); reflexivity.
Qed.

(** The lazy repetition stops at the first position where the rest of
    the pattern matches. *)
Lemma rep_lazy_hit cs k pre : forall b n g post r,
  Forall (fun c => accepts fl cs c = true) pre ->
  (forall p1 c p2, pre = p1 ++ c :: p2 ->
     k (st (last_of b p1) (c :: p2 ++ post) (n + length p1) g) = None) ->
  k (st (last_of b pre) post (n + length pre) g) = Some r ->
  rep fl false cs k 0 b n g (pre ++ post) = Some r.
Proof.
  induction pre as [|c pre IH]; intros b n g post r Hacc Hfail Hhit.
  - cbn in Hhit. rewrite Nat.add_0_r in Hhit.
    destruct post; cbn [rep app]; unfold st in Hhit; rewrite Hhit; reflexivity.
  - cbn [app rep]. inversion Hacc as [|? ? Hc Hacc']; subst.
    pose proof (Hfail [] c pre eq_refl) as Hf0. cbn in Hf0.
    rewrite Nat.add_0_r in Hf0. unfold st in Hf0. rewrite Hf0, Hc.
    cbn [pred]. apply IH; trivial.
    + intros p1 c' p2 ->.
      specialize (Hfail (c :: p1) c' p2 eq_refl). cbn in Hfail.
      rewrite Nat.add_succ_r in Hfail. exact Hfail.
    + cbn in Hhit. rewrite Nat.add_succ_r in Hhit. exact Hhit.
Qed.

(** The greedy repetition takes all it can when the rest of the pattern
    matches behind that. *)
Lemma rep_greedy_max cs k pre : forall min b n g post r,
  Forall (fun c => accepts fl cs c = true) pre ->
  match post with c :: _ => accepts fl cs c = false | [] => True end ->
  min <= length pre ->
  k (st (last_of b pre) post (n + length pre) g) = Some r ->
  rep fl true cs k min b n g (pre ++ post) = Some r.
Proof.
  induction pre as [|c pre IH]; intros min b n g post r Hacc Hstop Hmin Hhit.
  - cbn in Hhit, Hmin. rewrite Nat.add_0_r in Hhit. unfold st in Hhit.
    assert (min = 0) as -> by lia.
    destruct post as [|d post]; cbn [rep app]; [|rewrite Hstop];
      rewrite Hhit; reflexivity.
  - cbn [app rep]. inversion Hacc as [|? ? Hc Hacc']; subst. rewrite Hc.
    rewrite (IH (pred min) (Some c) (S n) g post r); trivial.
    + destruct min; reflexivity.
    + cbn in Hmin. lia.
    + cbn in Hhit. rewrite Nat.add_succ_r in Hhit. exact Hhit.
Qed.

(** A repetition that cannot reach its minimum fails. *)
Lemma rep_short greedy cs k pre : forall min b n g post,
  Forall (fun c => accepts fl cs c = true) pre ->
  match post with c :: _ => accepts fl cs c = false | [] => True end ->
  length pre < min ->
  rep fl greedy cs k min b n g (pre ++ post) = None.
Proof.
  induction pre as [|c pre IH]; intros min b n g post Hacc Hstop Hmin.
  - destruct min; [cbn in Hmin; lia|].
    destruct post as [|d post]; cbn [rep app]; [|rewrite Hstop]; reflexivity.
  - cbn [app rep]. inversion Hacc as [|? ? Hc Hacc']; subst. rewrite Hc.
    destruct min; [cbn in Hmin; lia|]. cbn [pred].
    apply IH; trivial. cbn in Hmin. lia.
Qed.

(** Whatever the engine finds is a match of the pattern, and the rest of
    the pattern went on from the position behind it. *)
Lemma rep_sound greedy cs k text : forall min b n g s',
  rep fl greedy cs k min b n g text = Some s' ->
  exists p t,
    text = p ++ t /\ Forall (fun c => accepts fl cs c = true) p
    /\ min <= length p
    /\ k (st (last_of b p) t (n + length p) g) = Some s'.
Proof.
  induction text as [|c text IH]; intros min b n g s' H.
  - cbn [rep] in H. destruct min.
    + exists [], []. cbn. rewrite Nat.add_0_r.
      destruct greedy; (destruct (k _) eqn:E in H; [|discriminate]);
        unfold st; rewrite E; auto.
    + discriminate.
  - cbn [rep] in H.
    assert (Hmore : forall s1,
      (if accepts fl cs c
       then rep fl greedy cs k (pred min) (Some c) (S n) g text
       else None) = Some s1 ->
      exists p t, c :: text = p ++ t
        /\ Forall (fun c => accepts fl cs c = true) p /\ min <= length p
        /\ k (st (last_of b p) t (n + length p) g) = Some s1).
    { intros s1 H1. destruct (accepts fl cs c) eqn:Hc; [|discriminate].
      apply IH in H1 as (p & t & -> & Hp & Hlen & Hk).
      exists (c :: p), t. cbn. rewrite Nat.add_succ_r.
      repeat split; auto. lia. }
    assert (Hhere : forall s1,
      min = 0 ->
      k {| before := b; rest := c :: text; consumed := n; groups := g |}
      = Some s1 ->
      exists p t, c :: text = p ++ t
        /\ Forall (fun c => accepts fl cs c = true) p /\ min <= length p
        /\ k (st (last_of b p) t (n + length p) g) = Some s1).
    { intros s1 -> H1. exists [], (c :: text). cbn. rewrite Nat.add_0_r.
      auto. }
    destruct min as [|min'].
    + destruct greedy.
      * destruct (if accepts fl cs c then _ else None) eqn:E in H.
        -- inversion H; subst. apply Hmore. exact E.
        -- apply Hhere; auto.
      * destruct (k _) eqn:E in H.
        -- inversion H; subst. apply Hhere; auto.
        -- apply Hmore. exact H.
    + apply Hmore. exact H.
Qed.

Lemma last_of_app p1 : forall b p2,
  last_of b (p1 ++ p2) = last_of (last_of b p1) p2.
Proof. induction p1 as [|c p1 IH]; intros; cbn; auto. Qed.

Lemma run_sound r : forall k s s',
  run fl r k s = Some s' ->
  exists p s1,
    rest s = p ++ rest s1 /\ matches fl r (before s) p (rest s1)
    /\ before s1 = last_of (before s) p
    /\ consumed s1 = consumed s + length p
    /\ k s1 = Some s'.
Proof.
  induction r as [|cs|greedy min cs|r1 IH1 r2 IH2|n r1 IH1| |];
    intros k s s' H; cbn [run] in H.
  - exists [], s. cbn. rewrite Nat.add_0_r. repeat split; auto. constructor.
  - destruct (rest s) as [|c rest'] eqn:Hr; [discriminate|].
    destruct (accepts fl cs c) eqn:Hc; [|discriminate].
    exists [c], (advance c rest' s). cbn. rewrite Nat.add_1_r.
    repeat split; auto. constructor; auto.
  - apply rep_sound in H as (p & t & Hr & Hp & Hlen & Hk).
    exists p, (st (last_of (before s) p) t (consumed s + length p) (groups s)).
    cbn. repeat split; auto. constructor; auto.
  - apply IH1 in H as (p1 & s1 & Hr1 & Hm1 & Hb1 & Hc1 & H).
    apply IH2 in H as (p2 & s2 & Hr2 & Hm2 & Hb2 & Hc2 & H).
    exists (p1 ++ p2), s2. rewrite Hr1, Hr2, app_assoc, last_of_app, length_app.
    repeat split; auto.
    + constructor; [rewrite <- Hr2 | rewrite <- Hb1]; assumption.
    + rewrite Hb2, Hb1. reflexivity.
    + lia.
  - apply IH1 in H as (p & s1 & Hr & Hm & Hb & Hc & H).
    exists p, (capture n s s1). cbn. repeat split; auto. constructor; auto.
  - destruct (at_bol fl s) eqn:E; [|discriminate].
    exists [], s. cbn. rewrite Nat.add_0_r. repeat split; auto.
    constructor. exact E.
  - destruct (at_eol fl s) eqn:E; [|discriminate].
    exists [], s. cbn. rewrite Nat.add_0_r. repeat split; auto.
    constructor. exact E.
Qed.

(** A text no part of which matches the pattern has no match. *)
Lemma match_here_sound r ma b text s :
  match_here fl r ma b text = Some s ->
  exists p, text = p ++ rest s /\ matches fl r b p (rest s)
            /\ consumed s = length p /\ before s = last_of b p.
Proof.
  unfold match_here. intros H.
  apply run_sound in H as (p & s1 & Hr & Hm & Hb & Hc & Hk).
  destruct (ma && (consumed s1 =? 0)); [discriminate|].
  inversion Hk; subst s1. cbn in *. exists p. auto.
Qed.

Lemma search_from_none r text : forall ma b,
  (forall pre p t, text = pre ++ p ++ t ->
     ~ matches fl r (last_of b pre) p t) ->
  search_from fl r ma b text = None.
Proof.
  induction text as [|c text IH]; intros ma b Hno.
  - apply search_from_nil.
    destruct (match_here fl r ma b []) as [s|] eqn:E; [|reflexivity].
    apply match_here_sound in E as (p & Ht & Hm & _).
    exfalso. apply (Hno [] p (rest s)); auto.
  - destruct (match_here fl r ma b (c :: text)) as [s|] eqn:E.
    + apply match_here_sound in E as (p & Ht & Hm & _).
      exfalso. apply (Hno [] p (rest s)); auto.
    + rewrite (search_from_next _ _ _ _ _ E), IH; [reflexivity|].
      intros pre p t -> Hm. apply (Hno (c :: pre) p t); auto.
Qed.

Lemma sub_loop_none fuel r repl count n ma b text :
  search_from fl r ma b text = None ->
  sub_loop fuel fl r repl count n ma b text = text.
Proof.
  intros H. destruct fuel; cbn [sub_loop]; [reflexivity|]. rewrite H.
  destruct ((count =? 0) || (n <? count)); reflexivity.
Qed.

End Engine.
(** * The fuel of [sub] is never used up *)

Section Fuel.
Variable fl : flags.
Variable r : regex.

Lemma match_here_parts ma b text s :
  match_here fl r ma b text = Some s ->
  text = firstn (consumed s) text ++ rest s
  /\ length (firstn (consumed s) text) = consumed s
  /\ (ma = true -> consumed s <> 0).
Proof.
  intros H. unfold match_here in H.
  apply run_sound in H as (p & s1 & Hr & _ & _ & Hc & Hk).
  cbn [rest consumed before] in Hr, Hc.
  destruct (ma && (consumed s1 =? 0)) eqn:E; [discriminate|].
  inversion Hk; subst s1. rewrite Hr, Hc. cbn [Nat.add].
  rewrite firstn_app, Nat.sub_diag, firstn_all. cbn [firstn].
  rewrite app_nil_r. repeat split; trivial.
  intros ->. cbn [andb] in E. apply Nat.eqb_neq in E. lia.
Qed.

(** What the search returns cuts the text into three parts, and right
    after an empty match it has passed at least one character. *)
Lemma search_from_parts text : forall ma b f,
  search_from fl r ma b text = Some f ->
  text = skipped f ++ matched (hit f) ++ after f
  /\ (ma = true -> skipped f = [] -> matched (hit f) <> []).
Proof.
  induction text as [|c text IH]; intros ma b f H; cbn [search_from] in H.
  - destruct (match_here fl r ma b []) as [s|] eqn:E; [|discriminate].
    inversion H; subst f. cbn [skipped hit matched after app].
    destruct (match_here_parts _ _ _ _ E) as (Ht & Hlen & Hma).
    split; [exact Ht|]. intros Hm _ Hnil. rewrite Hnil in Hlen. cbn in Hlen.
    exact (Hma Hm (eq_sym Hlen)).
  - destruct (match_here fl r ma b (c :: text)) as [s|] eqn:E.
    + inversion H; subst f. cbn [skipped hit matched after app].
      destruct (match_here_parts _ _ _ _ E) as (Ht & Hlen & Hma).
      split; [exact Ht|]. intros Hm _ Hnil. rewrite Hnil in Hlen. cbn in Hlen.
      exact (Hma Hm (eq_sym Hlen)).
    + destruct (search_from fl r false (Some c) text) as [f'|] eqn:E';
        [|discriminate].
      inversion H; subst f. cbn [skip_one skipped hit matched after app].
      destruct (IH _ _ _ E') as [Ht _]. split; [f_equal; exact Ht|].
      intros _ Hnil. discriminate Hnil.
Qed.

(** Any two amounts of fuel above twice the length of the text give the
    same result. *)
Lemma sub_loop_fuel repl count fuel : forall fuel' n (ma : bool) b text,
  2 * length text + (if ma then 0 else 1) < fuel ->
  2 * length text + (if ma then 0 else 1) < fuel' ->
  sub_loop fuel fl r repl count n ma b text
  = sub_loop fuel' fl r repl count n ma b text.
Proof.
  induction fuel as [|fuel IH]; intros fuel' n ma b text Hf Hf'; [lia|].
  destruct fuel' as [|fuel']; [lia|]. cbn [sub_loop].
  destruct ((count =? 0) || (n <? count)); [|reflexivity].
  destruct (search_from fl r ma b text) as [f|] eqn:E; [|reflexivity].
  destruct (search_from_parts _ _ _ _ E) as [Ht Hadv].
  apply (f_equal (@length ascii)) in Ht. rewrite !length_app in Ht.
  do 2 f_equal. destruct (matched (hit f)) as [|x m] eqn:Em.
  - assert (Hlt : 2 * length (after f) < 2 * length text + (if ma then 0 else 1)).
    { destruct ma; [|cbn [length] in Ht; lia].
      destruct (skipped f) as [|y sk] eqn:Es.
      - exfalso. exact (Hadv eq_refl eq_refl eq_refl).
      - cbn [length] in Ht. lia. }
    apply IH; lia.
  - cbn [length] in Ht. apply IH; lia.
Qed.

Lemma sub_fuel_enough repl count text fuel :
  2 * length text + 1 < fuel ->
  sub_loop fuel fl r repl count 0 false None text = sub fl r repl count text.
Proof. intros H. unfold sub. apply sub_loop_fuel; lia. Qed.

End Fuel.
(** * Literals, and texts without a match *)

Section Literals.
Variable fl : flags.

Lemma run_Lit_app p : forall k b text n g,
  run fl (Lit p) k (st b (p ++ text) n g)
  = k (st (last_of b p) text (n + length p) g).
Proof.
  induction p as [|c p IH]; intros k b text n g.
  - cbn. rewrite Nat.add_0_r. reflexivity.
  - destruct p as [|d p].
    + cbn. rewrite Ascii.eqb_refl, Nat.add_1_r. reflexivity.
    + change (Lit (c :: d :: p)) with (Seq (One (CChar c)) (Lit (d :: p))).
      cbn [run]. change (rest (st b ((c :: d :: p) ++ text) n g))
        with (c :: (d :: p) ++ text).
      cbn [accepts]. rewrite Ascii.eqb_refl.
      change (advance c ((d :: p) ++ text) (st b ((c :: d :: p) ++ text) n g))
        with (st (Some c) ((d :: p) ++ text) (S n) g).
      rewrite IH. cbn [last_of length]. f_equal. f_equal. lia.
Qed.

Lemma run_Lit_miss p : forall k b text n g,
  startswith text p = false -> run fl (Lit p) k (st b text n g) = None.
Proof.
  induction p as [|c p IH]; intros k b text n g H.
  - destruct text; discriminate H.
  - destruct text as [|d text].
    + destruct p; reflexivity.
    + cbn [startswith] in H. destruct p as [|c' p].
      * assert (Hnil : startswith text [] = true) by (destruct text; reflexivity).
        rewrite Hnil, andb_true_r in H.
        cbn [Lit run rest st accepts]. rewrite H. reflexivity.
      * change (Lit (c :: c' :: p)) with (Seq (One (CChar c)) (Lit (c' :: p))).
        cbn [run rest st accepts].
        destruct (Ascii.eqb d c); [|reflexivity].
        apply IH. exact H.
Qed.

(** The loop of [sub] copies a text in which no match starts. *)
Lemma sub_loop_skip_many r repl count n fuel a : forall b text,
  (forall p1 c p2, a = p1 ++ c :: p2 ->
     match_here fl r false (last_of b p1) (c :: p2 ++ text) = None) ->
  sub_loop (S fuel) fl r repl count n false b (a ++ text)
  = a ++ sub_loop (S fuel) fl r repl count n false (last_of b a) text.
Proof.
  induction a as [|c a IH]; intros b text H; [reflexivity|].
  cbn [app]. rewrite sub_loop_skip by exact (H [] c a eq_refl).
  cbn [last_of]. f_equal. apply IH.
  intros p1 c' p2 ->. exact (H (c :: p1) c' p2 eq_refl).
Qed.

Lemma search_from_skip_many r a : forall b text,
  (forall p1 c p2, a = p1 ++ c :: p2 ->
     match_here fl r false (last_of b p1) (c :: p2 ++ text) = None) ->
  search_from fl r false b (a ++ text)
  = option_map (fun f => {| skipped := a ++ skipped f; hit := hit f;
                            last := last f; after := after f |})
      (search_from fl r false (last_of b a) text).
Proof.
  induction a as [|c a IH]; intros b text H.
  - cbn [app last_of]. destruct (search_from fl r false b text) as [[? ? ? ?]|];
      reflexivity.
  - cbn [app]. rewrite (search_from_next fl r false b c (a ++ text)
                          (H [] c a eq_refl)).
    rewrite IH.
    + cbn [last_of]. destruct (search_from fl r false (last_of (Some c) a) text);
        reflexivity.
    + intros p1 c' p2 ->. exact (H (c :: p1) c' p2 eq_refl).
Qed.

End Literals.

(** What a match of a literal, or of a pattern that starts with one
    character, looks like. *)
Lemma matches_One_inv fl cs b p t :
  matches fl (One cs) b p t -> exists c, p = [c] /\ accepts fl cs c = true.
Proof. intros H. inversion H; subst. eauto. Qed.

Lemma matches_Seq_inv fl r1 r2 b p t :
  matches fl (Seq r1 r2) b p t ->
  exists p1 p2, p = p1 ++ p2 /\ matches fl r1 b p1 (p2 ++ t)
                /\ matches fl r2 (last_of b p1) p2 t.
Proof. intros H. inversion H; subst. eauto. Qed.

Lemma matches_Group_inv fl n r b p t :
  matches fl (Group n r) b p t -> matches fl r b p t.
Proof. intros H. inversion H; subst. assumption. Qed.

Lemma matches_Lit fl s : forall b p t, matches fl (Lit s) b p t -> p = s.
Proof.
  induction s as [|c s IH]; intros b p t H.
  - inversion H. reflexivity.
  - destruct s as [|d s].
    + apply matches_One_inv in H as (c' & -> & Hc). cbn in Hc.
      apply Ascii.eqb_eq in Hc. subst. reflexivity.
    + change (Lit (c :: d :: s)) with (Seq (One (CChar c)) (Lit (d :: s))) in H.
      apply matches_Seq_inv in H as (p1 & p2 & -> & H1 & H2).
      apply matches_One_inv in H1 as (c' & -> & Hc). cbn in Hc.
      apply Ascii.eqb_eq in Hc. subst. apply IH in H2. subst. reflexivity.
Qed.

Lemma dollars_app a b : dollars (a ++ b) = dollars a + dollars b.
Proof. apply count_occ_app. Qed.

Lemma dollar_free_dollars s : dollar_free s <-> dollars s = 0.
Proof. apply count_occ_not_In. Qed.

(** A pattern whose matches hold [k] dollar signs has no match in a text
    with fewer. *)
Lemma search_none_few_dollars fl r k ma b text :
  (forall b' p t, matches fl r b' p t -> k <= dollars p) ->
  dollars text < k -> search_from fl r ma b text = None.
Proof.
  intros Hr Hfew. apply search_from_none. intros pre p t -> Hm.
  apply Hr in Hm. rewrite !dollars_app in Hfew. lia.
Qed.

Lemma first_dollar s :
  1 <= dollars s -> exists a r, s = a ++ "$"%char :: r /\ dollar_free a.
Proof.
  induction s as [|c s IH]; intros H; [cbn in H; lia|].
  destruct (ascii_dec c "$") as [->|Hc].
  - exists [], s. split; [reflexivity|intros []].
  - unfold dollars in H. rewrite count_occ_cons_neq in H by exact Hc.
    destruct (IH H) as (a & r & -> & Ha). exists (c :: a), r.
    split; [reflexivity|]. intros [Hin|Hin]; [congruence|exact (Ha Hin)].
Qed.
(** * The blank-line collapse *)

Lemma lead_LF_split s :
  s = repeat LF (lead_LF s) ++ skipn (lead_LF s) s.
Proof.
  induction s as [|c s IH]; cbn; [reflexivity|].
  destruct (Ascii.eqb_spec c LF) as [->|]; cbn; [f_equal; exact IH|reflexivity].
Qed.

Lemma lead_LF_stop s :
  match skipn (lead_LF s) s with
  | c :: _ => accepts no_flags (CChar LF) c = false
  | [] => True
  end.
Proof.
  induction s as [|c s IH]; cbn; [exact I|].
  destruct (Ascii.eqb_spec c LF) as [->|Hc]; cbn; [exact IH|].
  destruct (Ascii.eqb_spec c LF); congruence.
Qed.

Lemma Forall_repeat_LF n :
  Forall (fun c => accepts no_flags (CChar LF) c = true) (repeat LF n).
Proof. induction n; cbn; constructor; auto. Qed.

Lemma last_of_repeat_LF n b : 0 < n -> last_of b (repeat LF n) = Some LF.
Proof.
  revert b. induction n as [|n IH]; intros b Hn; [lia|]. cbn.
  destruct n; [reflexivity|]. apply IH. lia.
Qed.

Lemma match_blank_short ma b text :
  lead_LF text < 3 -> match_here no_flags PATTERN_BLANK ma b text = None.
Proof.
  intros H. unfold match_here, PATTERN_BLANK. cbn [run rest before consumed groups].
  rewrite (lead_LF_split text) at 1.
  apply rep_short.
  - apply Forall_repeat_LF.
  - apply lead_LF_stop.
  - rewrite repeat_length. exact H.
Qed.

Lemma match_blank_run b text :
  3 <= lead_LF text ->
  match_here no_flags PATTERN_BLANK false b text
  = Some (st (Some LF) (skipn (lead_LF text) text) (lead_LF text) []).
Proof.
  intros H. unfold match_here, PATTERN_BLANK. cbn [run rest before consumed groups].
  rewrite (lead_LF_split text) at 1.
  apply rep_greedy_max.
  - apply Forall_repeat_LF.
  - apply lead_LF_stop.
  - rewrite repeat_length. exact H.
  - rewrite repeat_length, last_of_repeat_LF by lia. reflexivity.
Qed.

Lemma squeeze_no_LF_first run s : no_LF_first s -> squeeze run s = squeeze 0 s.
Proof.
  destruct s as [|c s]; cbn; [reflexivity|]. intros Hc.
  destruct (Ascii.eqb_spec c LF); [contradiction|reflexivity].
Qed.

Lemma squeeze_drop_run n : forall run s,
  2 <= run -> squeeze run (repeat LF n ++ s) = squeeze (run + n) s.
Proof.
  induction n as [|n IH]; intros run s Hrun; cbn [repeat app squeeze].
  - rewrite Nat.add_0_r. reflexivity.
  - rewrite Ascii.eqb_refl.
    destruct (Nat.ltb_spec run 2); [lia|]. rewrite IH by lia. f_equal. lia.
Qed.

Lemma no_LF_first_skip s : no_LF_first (skipn (lead_LF s) s).
Proof.
  induction s as [|c s IH]; cbn; [exact I|].
  destruct (Ascii.eqb_spec c LF) as [->|Hc]; cbn; auto.
Qed.

Lemma squeeze_long_run s :
  3 <= lead_LF s ->
  squeeze 0 s = [LF; LF] ++ squeeze 0 (skipn (lead_LF s) s).
Proof.
  intros H. rewrite (lead_LF_split s) at 1.
  destruct (lead_LF s) as [|[|n]] eqn:E; [lia|lia|].
  cbn [repeat app squeeze]. rewrite Ascii.eqb_refl.
  change (0 <? 2) with true. change (1 <? 2) with true. cbn iota.
  cbn [app]. f_equal. f_equal.
  rewrite squeeze_drop_run by lia.
  apply squeeze_no_LF_first. rewrite <- E. apply no_LF_first_skip.
Qed.

Lemma lead_LF_le s : lead_LF s <= length s.
Proof.
  induction s as [|c s IH]; cbn; [lia|]. destruct (Ascii.eqb c LF); lia.
Qed.

Lemma sub_blank_squeeze_gen n : forall text fuel b cnt run,
  length text <= n -> length text < fuel ->
  run = 0 \/ run + lead_LF text < 3 ->
  sub_loop fuel no_flags PATTERN_BLANK (fun _ => [LF; LF]) 0 cnt false b text
  = squeeze run text.
Proof.
  induction n as [|n IH]; intros text fuel b cnt run Hn Hfuel Hrun.
  - destruct text; [|cbn in Hn; lia].
    apply sub_loop_nil, match_blank_short. cbn. lia.
  - destruct text as [|c text].
    { apply sub_loop_nil, match_blank_short. cbn. lia. }
    destruct fuel as [|fuel]; [lia|]. cbn in Hn, Hfuel.
    destruct (Nat.ltb_spec (lead_LF (c :: text)) 3) as [Hshort|Hlong].
    + rewrite sub_loop_skip by (apply match_blank_short; exact Hshort).
      cbn [squeeze]. cbn [lead_LF] in Hshort, Hrun.
      destruct (Ascii.eqb_spec c LF) as [->|Hc].
      * destruct (Nat.ltb_spec run 2); [|lia].
        f_equal. apply IH; try lia.
      * f_equal. apply IH; try lia. 
    + destruct Hrun as [->|Hrun]; [|lia].
      rewrite (sub_loop_hit no_flags fuel _ _ 0 cnt false b _ _ eq_refl
                 (match_blank_run b _ Hlong)).
      rewrite squeeze_long_run by exact Hlong.
      cbn [rest before consumed groups st]. f_equal.
      pose proof (no_LF_first_skip (c :: text)) as Hfirst.
      assert (Hlen : length (skipn (lead_LF (c :: text)) (c :: text)) + 3
                     <= S (length text)).
      { rewrite length_skipn. pose proof (lead_LF_le (c :: text)) as Hle.
        cbn [length] in *. lia. }
      assert (Hne : match firstn (lead_LF (c :: text)) (c :: text) with
                    | [] => true | _ => false end = false).
      { destruct (lead_LF (c :: text)); [lia|reflexivity]. }
      rewrite Hne.
      apply IH; try lia.
  Qed.

Lemma collapse_blank_squeeze text : collapse_blank text = squeeze 0 text.
Proof.
  unfold collapse_blank, sub.
  apply (sub_blank_squeeze_gen (length text)); auto; lia.
Qed.

Lemma runs_below3_squeeze s : forall run,
  runs_below3 (Nat.min run 2) (squeeze run s) = true.
Proof.
  induction s as [|c s IH]; intros run; cbn [squeeze]; [reflexivity|].
  destruct (Ascii.eqb_spec c LF) as [->|Hc].
  - destruct (Nat.ltb_spec run 2) as [Hlt|Hge].
    + cbn [runs_below3]. rewrite Ascii.eqb_refl.
      replace (Nat.min run 2) with run by lia.
      destruct (Nat.ltb_spec run 2); [|lia]. cbn [andb].
      specialize (IH (S run)). replace (Nat.min (S run) 2) with (S run) in IH by lia.
      exact IH.
    + specialize (IH (S run)).
      replace (Nat.min (S run) 2) with (Nat.min run 2) in IH by lia. exact IH.
  - cbn [runs_below3]. destruct (Ascii.eqb_spec c LF); [contradiction|].
    apply (IH 0).
Qed.

Lemma runs_below3_sound a : forall run b,
  runs_below3 run (a ++ [LF; LF; LF] ++ b) = true -> False.
Proof.
  induction a as [|c a IH]; intros run b H.
  - cbn [app runs_below3] in H. rewrite !Ascii.eqb_refl in H.
    destruct (Nat.ltb_spec run 2); [|discriminate].
    destruct (Nat.ltb_spec (S run) 2); [|discriminate].
    destruct (Nat.ltb_spec (S (S run)) 2); [lia|discriminate].
  - cbn [app runs_below3] in H. destruct (Ascii.eqb c LF).
    + apply andb_true_iff in H as [_ H]. exact (IH _ _ H).
    + exact (IH _ _ H).
Qed.

Lemma squeeze_no_blank_run s : ~ has_blank_run (squeeze 0 s).
Proof.
  intros (a & b & H). pose proof (runs_below3_squeeze s 0) as Hok.
  rewrite H in Hok. exact (runs_below3_sound _ _ _ Hok).
Qed.

(** What [strip] returns is a part of its argument. *)
Lemma lstrip_suffix s : exists p, s = p ++ lstrip s /\ forallb is_space p = true.
Proof.
  induction s as [|c s (p & IH & Hp)]; cbn [lstrip].
  - exists []. auto.
  - destruct (is_space c) eqn:E.
    + exists (c :: p). cbn. rewrite E, Hp. split; [f_equal; exact IH|reflexivity].
    + exists []. auto.
Qed.

Lemma rstrip_prefix s : exists q, s = rstrip s ++ q /\ forallb is_space q = true.
Proof.
  unfold rstrip. destruct (lstrip_suffix (rev s)) as (p & H & Hp).
  exists (rev p). split.
  - rewrite <- (rev_involutive s), H at 1. rewrite rev_app_distr. reflexivity.
  - rewrite forallb_forall in *. intros x Hx. apply Hp, in_rev, Hx.
Qed.

Lemma strip_infix s : exists p q, s = p ++ strip s ++ q.
Proof.
  destruct (lstrip_suffix s) as (p & Hp & _).
  destruct (rstrip_prefix (lstrip s)) as (q & Hq & _).
  exists p, q. unfold strip. rewrite <- Hq. exact Hp.
Qed.

Lemma strip_no_blank_run s : ~ has_blank_run s -> ~ has_blank_run (strip s).
Proof.
  intros Hs (a & b & H). apply Hs.
  destruct (strip_infix s) as (p & q & Hpq). rewrite H in Hpq.
  exists (p ++ a), (b ++ q). rewrite Hpq. rewrite <- !app_assoc. reflexivity.
Qed.

Lemma no_LF_last_tail c a : no_LF_last (c :: a) -> no_LF_last a.
Proof. intros H p ->. apply (H (c :: p)). reflexivity. Qed.

Lemma squeeze_app a x : forall run,
  a <> [] -> no_LF_last a ->
  squeeze run (a ++ x) = squeeze run a ++ squeeze 0 x.
Proof.
  induction a as [|c a IH]; intros run Hne Hlast; [congruence|].
  destruct a as [|d a].
  - cbn [app squeeze]. destruct (Ascii.eqb_spec c LF) as [->|Hc].
    + exfalso. apply (Hlast []). reflexivity.
    + reflexivity.
  - assert (Hrec : forall r, squeeze r ((d :: a) ++ x)
                             = squeeze r (d :: a) ++ squeeze 0 x).
    { intros r. apply IH; [discriminate|]. eapply no_LF_last_tail, Hlast. }
    change ((c :: d :: a) ++ x) with (c :: ((d :: a) ++ x)).
    cbn [squeeze]. destruct (Ascii.eqb c LF); [destruct (run <? 2)|];
      rewrite Hrec; reflexivity.
Qed.

Lemma squeeze_run_head n b :
  3 <= n -> no_LF_first b ->
  squeeze 0 (repeat LF n ++ b) = [LF; LF] ++ squeeze 0 b.
Proof.
  intros Hn Hb. destruct n as [|[|n]]; [lia|lia|].
  cbn [repeat app squeeze]. rewrite Ascii.eqb_refl.
  change (0 <? 2) with true. change (1 <? 2) with true. cbn iota.
  rewrite squeeze_drop_run by lia. rewrite (squeeze_no_LF_first _ _ Hb).
  reflexivity.
Qed.

(** * The record parser *)

Lemma startswith_head s p c :
  startswith s (c :: p) = true -> exists s', s = c :: s' /\ startswith s' p = true.
Proof.
  destruct s as [|d s]; cbn; [discriminate|].
  destruct (Ascii.eqb_spec d c) as [->|]; [eauto|discriminate].
Qed.

(** No line is both a front and a back marker. *)
Lemma front_not_back line : is_front line = true -> is_back line = false.
Proof.
  unfold is_front, is_back. generalize (lower (strip line)). intros s H.
  apply orb_true_iff in H as [H|H].
  - apply startswith_head in H as (s' & -> & _). reflexivity.
  - apply startswith_head in H as (s1 & -> & H).
    apply startswith_head in H as (s2 & -> & H).
    apply startswith_head in H as (s3 & -> & _). reflexivity.
Qed.

Lemma find_labels_cons line lines j f b :
  find_labels (line :: lines) j f b
  = if is_front line then
      if (f =? -1)%Z then find_labels lines (j + 1)%Z j b
      else find_labels lines (j + 1)%Z f b
    else if is_back line then
      if (b =? -1)%Z && negb (f =? -1)%Z then (f, j)
      else find_labels lines (j + 1)%Z f b
    else find_labels lines (j + 1)%Z f b.
Proof. reflexivity. Qed.

(** Once the front marker is set, the loop stops at the first back marker. *)
Lemma find_labels_seek_back lines : forall j f,
  f <> (-1)%Z ->
  find_labels lines j f (-1)
  = (f, match find_index is_back lines with
        | Some d => (j + Z.of_nat d)%Z
        | None => (-1)%Z
        end).
Proof.
  induction lines as [|line lines IH]; intros j f Hf; [reflexivity|].
  rewrite find_labels_cons. cbn [find_index].
  apply Z.eqb_neq in Hf as Hf'. rewrite Hf'. cbn [negb andb].
  destruct (is_front line) eqn:Efront.
  - rewrite (front_not_back _ Efront), IH by exact Hf.
    destruct (find_index is_back lines); cbn [option_map]; [|reflexivity].
    f_equal. lia.
  - destruct (is_back line).
    + change ((-1 =? -1)%Z) with true. cbn [andb]. f_equal.
      change (Z.of_nat 0) with 0%Z. lia.
    + rewrite IH by exact Hf.
      destruct (find_index is_back lines); cbn [option_map]; [|reflexivity].
      f_equal. lia.
Qed.

(** Before that, the loop looks for the first front marker. *)
Lemma find_labels_seek_front lines : forall j,
  (0 <= j)%Z ->
  find_labels lines j (-1) (-1)
  = match find_index is_front lines with
    | None => ((-1)%Z, (-1)%Z)
    | Some k =>
        ((j + Z.of_nat k)%Z,
         match find_index is_back (skipn (S k) lines) with
         | Some d => (j + Z.of_nat k + 1 + Z.of_nat d)%Z
         | None => (-1)%Z
         end)
    end.
Proof.
  induction lines as [|line lines IH]; intros j Hj; [reflexivity|].
  rewrite find_labels_cons. cbn [find_index].
  change ((-1 =? -1)%Z) with true. cbn [negb andb].
  destruct (is_front line) eqn:Efront.
  - rewrite find_labels_seek_back by lia. cbn [skipn].
    f_equal; [lia|]. destruct (find_index is_back lines); [lia|reflexivity].
  - assert (Hrec : find_labels lines (j + 1) (-1) (-1)
                   = match option_map S (find_index is_front lines) with
                     | None => ((-1)%Z, (-1)%Z)
                     | Some k =>
                         ((j + Z.of_nat k)%Z,
                          match find_index is_back (skipn (S k) (line :: lines)) with
                          | Some d => (j + Z.of_nat k + 1 + Z.of_nat d)%Z
                          | None => (-1)%Z
                          end)
                     end).
    { rewrite IH by lia.
      destruct (find_index is_front lines) as [k|]; cbn [option_map]; [|reflexivity].
      change (skipn (S (S k)) (line :: lines)) with (skipn (S k) lines).
      f_equal; [lia|].
      destruct (find_index is_back (skipn (S k) lines)); [lia|reflexivity]. }
    destruct (is_back line); exact Hrec.
Qed.

Lemma slice_bound_nat {A} (l : list A) (a : nat) :
  slice_bound l (Z.of_nat a) = Nat.min a (length l).
Proof.
  unfold slice_bound. destruct (Z.ltb_spec (Z.of_nat a) 0); lia.
Qed.

Lemma slice_nat {A} (l : list A) (a b : nat) :
  slice l (Z.of_nat a) (Z.of_nat b) = skipn a (firstn b l).
Proof.
  unfold slice. rewrite !slice_bound_nat.
  assert (Hf : firstn (Nat.min b (length l)) l = firstn b l).
  { destruct (Nat.le_ge_cases b (length l)).
    - rewrite Nat.min_l by lia. reflexivity.
    - rewrite Nat.min_r, firstn_all, firstn_all2 by lia. reflexivity. }
  rewrite Hf. destruct (Nat.le_ge_cases a (length l)).
  - rewrite Nat.min_l by lia. reflexivity.
  - rewrite Nat.min_r by lia.
    rewrite !skipn_all2; trivial; rewrite length_firstn; lia.
Qed.

Lemma slice_from_nat {A} (l : list A) (a : nat) :
  slice_from l (Z.of_nat a) = skipn a l.
Proof.
  unfold slice_from. rewrite slice_bound_nat.
  destruct (Nat.le_ge_cases a (length l)).
  - rewrite Nat.min_l by lia. reflexivity.
  - rewrite Nat.min_r, skipn_all, skipn_all2 by lia. reflexivity.
Qed.

(** One round of the outer loop is the outcome the specification gives. *)
Lemma parse_block_outcome st ib :
  parse_block st ib = apply_outcome st (block_outcome ib).
Proof.
  destruct st as [cards printed], ib as [i blk].
  unfold parse_block, block_outcome. destruct (strip blk) as [|c0 blk0] eqn:Eb;
    [reflexivity|].
  rewrite find_labels_seek_front by lia. unfold extracted.
  destruct (find_index is_front (splitlines (c0 :: blk0))) as [k|]; [|reflexivity].
  destruct (find_index is_back (skipn (S k) (splitlines (c0 :: blk0))))
    as [d|] eqn:Ed.
  - assert (Hk : negb (0 + Z.of_nat k =? -1)%Z = true)
      by (apply negb_true_iff, Z.eqb_neq; lia).
    assert (Hd : negb (0 + Z.of_nat k + 1 + Z.of_nat d =? -1)%Z = true)
      by (apply negb_true_iff, Z.eqb_neq; lia).
    assert (Hgt : (0 + Z.of_nat k + 1 + Z.of_nat d >? 0 + Z.of_nat k)%Z = true)
      by (apply Z.gtb_lt; lia).
    rewrite Hk, Hd, Hgt. cbn [andb].
    replace (0 + Z.of_nat k + 1)%Z with (Z.of_nat (S k)) by lia.
    replace (Z.of_nat (S k) + Z.of_nat d)%Z with (Z.of_nat (S k + d)) by lia.
    replace (Z.of_nat (S k + d) + 1)%Z with (Z.of_nat (S d + S k)) by lia.
    rewrite slice_nat, slice_from_nat, skipn_firstn_comm, <- skipn_skipn.
    replace (S k + d - S k) with d by lia.
    destruct (strip (join [LF] (firstn d (skipn (S k) (splitlines (c0 :: blk0))))));
      [reflexivity|].
    destruct (strip (join [LF] (skipn (S d) (skipn (S k) (splitlines (c0 :: blk0))))));
      reflexivity.
  - assert (Hd : negb (-1 =? -1)%Z = false) by reflexivity.
    rewrite Hd, andb_false_r. reflexivity.
Qed.

Lemma fold_parse_block ibs : forall st,
  fold_left parse_block ibs st
  = (fst st ++ flat_map contribution ibs, snd st ++ flat_map diagnostics ibs).
Proof.
  induction ibs as [|ib ibs IH]; intros [cards printed]; cbn [fold_left flat_map].
  - cbn. rewrite !app_nil_r. reflexivity.
  - rewrite IH. unfold contribution, diagnostics.
    rewrite !parse_block_outcome.
    destruct (block_outcome ib); cbn; rewrite <- ?app_assoc; reflexivity.
Qed.

Lemma contribution_outcome ib :
  contribution ib
  = match block_outcome ib with Emitted c => [c] | _ => [] end.
Proof.
  unfold contribution. rewrite parse_block_outcome.
  destruct (block_outcome ib); reflexivity.
Qed.

Lemma find_index_Some {A} (p : A -> bool) l : forall k,
  find_index p l = Some k ->
  exists x, nth_error l k = Some x /\ p x = true.
Proof.
  induction l as [|y l IH]; intros k H; cbn in H; [discriminate|].
  destruct (p y) eqn:E.
  - inversion H; subst. exists y. auto.
  - destruct (find_index p l) as [k'|]; [|discriminate].
    inversion H; subst. exact (IH k' eq_refl).
Qed.

Lemma find_index_first {A} (p : A -> bool) l : forall i x,
  nth_error l i = Some x -> p x = true ->
  exists k, find_index p l = Some k /\ k <= i.
Proof.
  induction l as [|y l IH]; intros i x Hn Hp; [destruct i; discriminate|].
  cbn. destruct (p y) eqn:E; [exists 0; split; [reflexivity|lia]|].
  destruct i as [|i]; cbn in Hn; [congruence|].
  destruct (IH i x Hn Hp) as (k & -> & Hk). exists (S k). split; [reflexivity|lia].
Qed.

(** The two markers are found when, and only when, the block holds a front
    marker line and a later back marker line. *)
Lemma has_markers_iff lines :
  has_markers lines
  <-> exists f d, find_index is_front lines = Some f
                  /\ find_index is_back (skipn (S f) lines) = Some d.
Proof.
  split.
  - intros (f & b & lf & lb & Hlt & Hf & Hlf & Hb & Hlb).
    destruct (find_index_first _ _ _ _ Hf Hlf) as (k & Hk & Hle).
    assert (Hb' : nth_error (skipn (S k) lines) (b - S k) = Some lb).
    { rewrite nth_error_skipn. replace (S k + (b - S k)) with b by lia. exact Hb. }
    destruct (find_index_first _ _ _ _ Hb' Hlb) as (d & Hd & _).
    exists k, d. auto.
  - intros (f & d & Hf & Hd).
    apply find_index_Some in Hf as (lf & Hf & Hlf).
    apply find_index_Some in Hd as (lb & Hb & Hlb).
    rewrite nth_error_skipn in Hb.
    exists f, (S f + d), lf, lb. repeat split; auto. lia.
Qed.

Lemma is_space_not_dash c : is_space c = true -> Ascii.eqb c "-" = false.
Proof.
  intros H. destruct (Ascii.eqb_spec c "-") as [->|]; [discriminate H|reflexivity].
Qed.

Lemma split_blank s : forall cur,
  forallb is_space s = true -> split_aux "---" s 0 cur = [rev cur ++ s].
Proof.
  induction s as [|c s IH]; intros cur H; cbn [split_aux].
  - rewrite app_nil_r. reflexivity.
  - cbn [forallb] in H. apply andb_true_iff in H as [Hc Hs].
    change (startswith (c :: s) "---")
      with (Ascii.eqb c "-" && startswith s "--").
    rewrite (is_space_not_dash _ Hc). cbn [andb]. rewrite IH by exact Hs.
    cbn [rev]. rewrite <- app_assoc. reflexivity.
Qed.

Lemma lstrip_blank s : forallb is_space s = true -> lstrip s = [].
Proof.
  induction s as [|c s IH]; cbn; [reflexivity|]. intros H.
  apply andb_true_iff in H as [-> Hs]. auto.
Qed.

Lemma blank_text_contributes_nothing text :
  forallb is_space text = true ->
  flat_map contribution (enumerate (split text "---")) = []
  /\ flat_map diagnostics (enumerate (split text "---")) = [].
Proof.
  intros H. unfold split. rewrite split_blank by exact H.
  cbn [rev app enumerate length List.seq combine flat_map].
  unfold contribution, diagnostics. rewrite parse_block_outcome.
  unfold block_outcome, strip. rewrite lstrip_blank by exact H.
  split; reflexivity.
Qed.

Lemma parse_unfold text :
  parse_flashcards_from_text (Some text)
  = (flat_map contribution (enumerate (split text "---")),
     flat_map diagnostics (enumerate (split text "---"))).
Proof.
  unfold parse_flashcards_from_text. destruct text as [|c text].
  - reflexivity.
  - destruct (isspace (c :: text)) eqn:E.
    + destruct (blank_text_contributes_nothing (c :: text) E) as [-> ->].
      reflexivity.
    + rewrite fold_parse_block. reflexivity.
Qed.

Lemma contribution_fields ib c :
  In c (contribution ib) -> question c <> [] /\ answer c <> [].
Proof.
  rewrite contribution_outcome. destruct ib as [i blk]. unfold block_outcome.
  destruct (strip blk) as [|c0 b0]; [intros []|].
  destruct (find_index is_front _) as [f|]; [|intros []].
  destruct (find_index is_back _) as [d|]; [|intros []].
  destruct (extracted _) as [[|q0 q1] [|a0 a1]]; cbn [In]; intros H;
    try contradiction.
  destruct H as [<-|[]]. cbn. split; discriminate.
Qed.

(** C4: the list returned holds, block by block and in order, the record
    of every block that has a front marker line, a later back marker line
    and a non-empty trimmed question and answer; every other block adds
    nothing, so no record has an empty field. *)
Theorem parse_emits_valid_blocks_only :
  (forall text,
      fst (parse_flashcards_from_text (Some text))
      = flat_map contribution (enumerate (split text "---")))
  /\ (forall i block,
        let lines := splitlines (strip block) in
        let q := fst (extracted lines) in
        let a := snd (extracted lines) in
        (has_markers lines /\ q <> [] /\ a <> [] ->
         contribution (i, block) = [{| question := q; answer := a |}])
        /\ (~ (has_markers lines /\ q <> [] /\ a <> []) ->
            contribution (i, block) = []))
  /\ (forall text c,
        In c (fst (parse_flashcards_from_text (Some text))) ->
        question c <> [] /\ answer c <> []).
Proof.
  split; [|split].
  - intros text. rewrite parse_unfold. reflexivity.
  - intros i block lines q a. subst q a.
    rewrite contribution_outcome. unfold block_outcome.
    fold lines. split.
    + intros (Hm & Hq & Ha).
      apply has_markers_iff in Hm as (f & d & Hf & Hd).
      destruct (strip block) as [|c0 b0] eqn:Eb.
      { subst lines. discriminate Hf. }
      rewrite Hf, Hd.
      destruct (extracted lines) as [[|q0 q1] [|a0 a1]]; cbn in *; congruence.
    + intros Hno. destruct (strip block) as [|c0 b0] eqn:Eb; [reflexivity|].
      destruct (find_index is_front lines) as [f|] eqn:Hf; [|reflexivity].
      destruct (find_index is_back (skipn (S f) lines)) as [d|] eqn:Hd;
        [|reflexivity].
      destruct (extracted lines) as [[|q0 q1] [|a0 a1]] eqn:Ex; try reflexivity.
      exfalso. apply Hno. split; [|split; cbn; discriminate].
      apply has_markers_iff. eauto.
  - intros text c. rewrite parse_unfold. cbn [fst]. intros H.
    apply in_flat_map in H as (ib & _ & H). exact (contribution_fields _ _ H).
Qed.

Lemma parse_emits_valid_blocks_only_witness :
  let block : str := "Front:" ++ [LF] ++ "Q1" ++ [LF] ++ "Back:" ++ [LF] ++ "A1" in
  let lines := splitlines (strip block) in
  (has_markers lines /\ fst (extracted lines) <> [] /\ snd (extracted lines) <> [])
  /\ contribution (0, block) = [{| question := "Q1"; answer := "A1" |}].
Proof.
  intros block lines.
  assert (H : has_markers lines /\ fst (extracted lines) <> []
              /\ snd (extracted lines) <> []).
  { split; [|split; vm_compute; discriminate].
    exists 0, 2, (list_ascii_of_string "Front:"), (list_ascii_of_string "Back:").
    repeat split; try reflexivity. lia. }
  split; [exact H|].
  exact (proj1 (proj1 (proj2 parse_emits_valid_blocks_only) 0 block) H).
Defined.

(** C9: the parser is a total function of its input; on [None], on the empty
    text and on a text of whitespace only it returns the empty list and
    prints nothing; a non-empty block that yields no record leaves the list
    of records as it is and prints one line, which names the block. *)
Theorem parse_skips_malformed_blocks :
  parse_flashcards_from_text None = ([], [])
  /\ (forall text,
        text = [] \/ isspace text = true ->
        parse_flashcards_from_text (Some text) = ([], []))
  /\ (forall st i block,
        strip block <> [] -> contribution (i, block) = [] ->
        exists msg,
          (msg = msg_no_markers i \/ msg = msg_empty_field i)
          /\ parse_block st (i, block) = (fst st, snd st ++ [msg]))
  /\ (forall text,
        parse_flashcards_from_text (Some text)
        = (flat_map contribution (enumerate (split text "---")),
           flat_map diagnostics (enumerate (split text "---")))).
Proof.
  split; [reflexivity|]. split; [|split].
  - intros text [->|H]; [reflexivity|].
    unfold parse_flashcards_from_text. rewrite H. destruct text; reflexivity.
  - intros st i block Hne Hc. rewrite contribution_outcome in Hc.
    rewrite parse_block_outcome.
    unfold block_outcome in *.
    destruct (strip block) as [|c0 b0]; [congruence|].
    destruct (find_index is_front _) as [f|]; [|eauto].
    destruct (find_index is_back _) as [d|]; [|eauto].
    destruct (extracted _) as [[|q0 q1] [|a0 a1]]; try discriminate Hc; eauto.
  - exact parse_unfold.
Qed.

Lemma parse_skips_malformed_blocks_witness :
  (list_ascii_of_string " " = [] \/ isspace " " = true)
  /\ parse_flashcards_from_text (Some (list_ascii_of_string " ")) = ([], []).
Proof.
  assert (H : list_ascii_of_string " " = [] \/ isspace " " = true)
    by (right; reflexivity).
  split; [exact H|].
  exact (proj1 (proj2 parse_skips_malformed_blocks) " " H).
Defined.
(** * The tag directive *)

Lemma firstn_exact {A} (l x : list A) n :
  n = length l -> firstn n (l ++ x) = l.
Proof.
  intros ->. rewrite firstn_app, Nat.sub_diag, firstn_all. cbn.
  apply app_nil_r.
Qed.

Lemma accepts_dot_no_LF c : c <> LF -> accepts no_flags CDot c = true.
Proof.
  intros H. cbn. destruct (Ascii.eqb_spec c LF); [contradiction|reflexivity].
Qed.




(** Removing the first directive: [sub] with [count = 1] replaces the match
    [search] finds and nothing else. *)
Lemma sub_once fl r repl text f :
  search_from fl r false None text = Some f ->
  sub fl r repl 1 text = skipped f ++ repl (hit f) ++ after f.
Proof.
  intros H. unfold sub. rewrite Nat.add_comm. cbn [Nat.add sub_loop].
  change ((1 =? 0) || (0 <? 1)) with true. cbn iota. rewrite H.
  reflexivity.
Qed.


Lemma process_found content f :
  search_from no_flags PATTERN_TAG false None content = Some f ->
  _process_math_content content
  = strip (skipped f ++ after f) ++ " \quad \textbf{(" ++ group (hit f) 1 ++ ")}".
Proof.
  intros Hs. unfold _process_math_content, search. rewrite Hs.
  cbn [option_map]. rewrite (sub_once _ _ _ _ _ Hs). reflexivity.
Qed.

(** * The delimiter transcoder *)

Lemma dollar_free_cons c s : dollar_free (c :: s) -> c <> "$"%char /\ dollar_free s.
Proof.
  unfold dollar_free. cbn. intros H. split; [intros ->|]; auto.
Qed.

Lemma dollar_free_app a b : dollar_free (a ++ b) <-> dollar_free a /\ dollar_free b.
Proof.
  unfold dollar_free. rewrite in_app_iff. tauto.
Qed.

Lemma dollar_free_split a p1 c p2 :
  dollar_free a -> a = p1 ++ c :: p2 -> Ascii.eqb c "$" = false.
Proof.
  intros Ha ->. apply Ascii.eqb_neq. intros ->. apply Ha.
  apply in_or_app. right. left. reflexivity.
Qed.

(** In a text without dollar signs no pattern that starts with a dollar
    sign has a match. *)
Lemma search_none_dollar_free fl r ma b text :
  (forall b' p t, matches fl r b' p t -> exists p', p = "$"%char :: p') ->
  dollar_free text -> search_from fl r ma b text = None.
Proof.
  intros Hr Hfree. apply search_from_none. intros pre p t -> Hm.
  apply Hr in Hm as (p' & ->). apply Hfree.
  apply in_or_app. right. left. reflexivity.
Qed.

Lemma matches_dollar_first fl r b p t :
  matches fl (Seq (One (CChar "$")) r) b p t -> exists p', p = "$"%char :: p'.
Proof.
  intros H. apply matches_Seq_inv in H as (p1 & p2 & -> & H1 & _).
  apply matches_One_inv in H1 as (c & -> & Hc). cbn in Hc.
  apply Ascii.eqb_eq in Hc. subst. exists p2. reflexivity.
Qed.

Lemma display_starts_with_dollar fl b p t :
  matches fl PATTERN_ANKI_DISPLAY b p t -> exists p', p = "$"%char :: p'.
Proof.
  unfold PATTERN_ANKI_DISPLAY. cbn [seq]. intros H.
  apply matches_Seq_inv in H as (p1 & p2 & -> & H1 & _).
  apply matches_Lit in H1. subst. exists ("$"%char :: p2). reflexivity.
Qed.

Lemma inline_starts_with_dollar fl b p t :
  matches fl PATTERN_ANKI_INLINE b p t -> exists p', p = "$"%char :: p'.
Proof. apply matches_dollar_first. Qed.

Lemma match_display_here b c text :
  dollar_free c ->
  match_here re_DOTALL PATTERN_ANKI_DISPLAY false b ("$$" ++ c ++ "$$" ++ text)
  = Some (st (Some "$"%char) text (length c + 4) [(1, c)]).
Proof.
  intros Hc. unfold match_here, PATTERN_ANKI_DISPLAY, LazyStar. cbn [seq run].
  change {| before := b; rest := "$$" ++ c ++ "$$" ++ text;
            consumed := 0; groups := [] |}
    with (st b ("$$" ++ c ++ "$$" ++ text) 0 []).
  rewrite run_Lit_app. cbn [last_of list_ascii_of_string length Nat.add st
                              before rest consumed groups].
  apply rep_lazy_hit.
  - apply Forall_forall. intros x _. reflexivity.
  - intros p1 x p2 Hl. unfold capture. cbn [st before rest consumed groups].
    apply (run_Lit_miss re_DOTALL "$$"). cbn [startswith list_ascii_of_string].
    rewrite (dollar_free_split _ _ _ _ Hc Hl). reflexivity.
  - unfold capture. cbn [st before rest consumed groups].
    rewrite (run_Lit_app re_DOTALL "$$").
    cbn [last_of list_ascii_of_string length andb].
    unfold st. f_equal. f_equal; [lia|].
    f_equal. f_equal. apply firstn_exact. lia.
Qed.

Lemma match_display_miss b x text :
  Ascii.eqb x "$" = false ->
  match_here re_DOTALL PATTERN_ANKI_DISPLAY false b (x :: text) = None.
Proof.
  intros Hx. unfold match_here, PATTERN_ANKI_DISPLAY. cbn [seq run].
  apply (run_Lit_miss re_DOTALL "$$"). cbn [startswith list_ascii_of_string].
  rewrite Hx. reflexivity.
Qed.

Lemma render_dollar_free open close spans :
  dollar_free open -> dollar_free close ->
  Forall (fun ca => dollar_free (fst ca) /\ dollar_free (snd ca)) spans ->
  dollar_free (render open close spans).
Proof.
  intros Ho Hc. induction 1 as [|[c a] spans [Hc1 Ha1] _ IH]; cbn [render].
  - intros [].
  - cbn [fst snd] in *. rewrite !dollar_free_app. auto.
Qed.

Lemma expand_wrap a n b m :
  expand [TLit a; TRef n; TLit b] m = a ++ group m n ++ b.
Proof. unfold expand. cbn [map concat]. rewrite app_nil_r. reflexivity. Qed.

(** The display rule on a text of display spans: every span is put into
    brackets on its own. *)
Lemma sub_display_spans spans : forall a0 fuel n b,
  dollar_free a0 ->
  Forall (fun ca => dollar_free (fst ca) /\ dollar_free (snd ca)) spans ->
  length (a0 ++ render "$$" "$$" spans) < fuel ->
  sub_loop fuel re_DOTALL PATTERN_ANKI_DISPLAY
    (expand [TLit "\["; TRef 1; TLit "\]"]) 0 n false b
    (a0 ++ render "$$" "$$" spans)
  = a0 ++ render "\[" "\]" spans.
Proof.
  induction spans as [|[c a] spans IH]; intros a0 fuel n b Ha0 Hsp Hfuel.
  - cbn [render]. rewrite !app_nil_r. apply sub_loop_none.
    apply search_none_dollar_free; [apply display_starts_with_dollar|exact Ha0].
  - inversion Hsp as [|? ? [Hc Ha] Hsp']; subst. cbn [fst snd] in Hc, Ha.
    destruct fuel as [|fuel]; [lia|]. cbn [render].
    rewrite sub_loop_skip_many.
    2:{ intros p1 x p2 Hl. apply match_display_miss.
        exact (dollar_free_split _ _ _ _ Ha0 Hl). }
    f_equal.
    rewrite (sub_loop_hit re_DOTALL fuel _ _ 0 n false _ _ _ eq_refl
               (match_display_here _ c _ Hc)).
    cbn [st before rest consumed groups].
    assert (Hm : firstn (length c + 4)
                   ("$$" ++ c ++ "$$" ++ a ++ render "$$" "$$" spans)
                 = "$$" ++ c ++ "$$").
    { replace ("$$" ++ c ++ "$$" ++ a ++ render "$$" "$$" spans)
        with (("$$" ++ c ++ "$$") ++ a ++ render "$$" "$$" spans)
        by (rewrite <- !app_assoc; reflexivity).
      apply firstn_exact. rewrite !length_app. cbn. lia. }
    rewrite Hm, expand_wrap. cbn [group caps lookup Nat.eqb].
    change (match "$$" ++ c ++ "$$" with [] => true | _ :: _ => false end)
      with false.
    rewrite (IH a fuel (S n) (Some "$"%char) Ha Hsp');
      [rewrite <- !app_assoc; reflexivity|].
    cbn [render] in Hfuel. rewrite !length_app in *.
    cbn [length list_ascii_of_string] in Hfuel |- *. lia.
Qed.

(** C2, as the code has it: the display rule is lazy, so in a text of
    several display spans each span, over however many lines, is put into
    brackets on its own, from one pair of dollar signs to the next. *)
Theorem convert_each_display_span :
  forall a0 spans,
    dollar_free a0 ->
    Forall (fun ca => dollar_free (fst ca) /\ dollar_free (snd ca)) spans ->
    convert_latex_delimiters (a0 ++ render "$$" "$$" spans)
    = a0 ++ render "\[" "\]" spans.
Proof.
  intros a0 spans Ha0 Hsp. unfold convert_latex_delimiters, sub.
  rewrite sub_display_spans by (trivial; lia).
  apply sub_loop_none. apply search_none_dollar_free.
  - apply inline_starts_with_dollar.
  - apply dollar_free_app. split; [exact Ha0|].
    apply render_dollar_free; trivial; cbn; intros [H|[H|[]]]; discriminate H.
Qed.

Lemma convert_each_display_span_witness :
  (dollar_free [] /\
   Forall (fun ca => dollar_free (fst ca) /\ dollar_free (snd ca))
     [(list_ascii_of_string "a", list_ascii_of_string " x ");
      (list_ascii_of_string "b", [])])
  /\ convert_latex_delimiters "$$a$$ x $$b$$" = "\[a\] x \[b\]".
Proof.
  assert (Hfree : forall s : string,
             forallb (fun c => negb (Ascii.eqb c "$")) s = true -> dollar_free s).
  { intros s H Hin. rewrite forallb_forall in H. specialize (H _ Hin).
    discriminate H. }
  assert (H1 : dollar_free []) by (intros []).
  assert (H2 : Forall (fun ca => dollar_free (fst ca) /\ dollar_free (snd ca))
                 [(list_ascii_of_string "a", list_ascii_of_string " x ");
                  (list_ascii_of_string "b", [])]).
  { repeat constructor; cbn [fst snd]; try (apply Hfree; reflexivity); exact H1. }
  split; [auto|].
  exact (convert_each_display_span [] _ H1 H2).
Defined.

(** Counterexample to C2 as stated: were the display rule greedy, the text of two
    display spans would come out as one span from the first pair of dollar
    signs to the last.  It does not. *)
Lemma convert_is_not_greedy :
  convert_latex_delimiters "$$a$$ x $$b$$" = "\[a\] x \[b\]"
  /\ convert_latex_delimiters "$$a$$ x $$b$$" <> "\[" ++ "a$$ x $$b" ++ "\]".
Proof. split; [vm_compute; reflexivity|vm_compute; discriminate]. Qed.
(** * The reformatter *)

(** ** Trimming and collapsing once is enough *)

Lemma lstrip_fixed s :
  match s with c :: _ => is_space c = false | [] => True end -> lstrip s = s.
Proof. destruct s as [|c s]; cbn; [reflexivity|]. intros ->. reflexivity. Qed.

Lemma lstrip_head s :
  match lstrip s with c :: _ => is_space c = false | [] => True end.
Proof.
  induction s as [|c s IH]; cbn; [exact I|].
  destruct (is_space c) eqn:E; [exact IH|exact E].
Qed.

Lemma lstrip_idem s : lstrip (lstrip s) = lstrip s.
Proof. apply lstrip_fixed, lstrip_head. Qed.

Lemma rstrip_idem s : rstrip (rstrip s) = rstrip s.
Proof. unfold rstrip. rewrite rev_involutive, lstrip_idem. reflexivity. Qed.

Lemma rstrip_head s :
  match s with c :: _ => is_space c = false | [] => True end ->
  match rstrip s with c :: _ => is_space c = false | [] => True end.
Proof.
  intros H. destruct (rstrip_prefix s) as (q & Hq & _).
  destruct (rstrip s) as [|c r]; [exact I|].
  rewrite Hq in H. exact H.
Qed.

Lemma strip_idem s : strip (strip s) = strip s.
Proof.
  unfold strip. rewrite (lstrip_fixed (rstrip (lstrip s))).
  - apply rstrip_idem.
  - apply rstrip_head, lstrip_head.
Qed.

Lemma has_blank_run_infix p s q : has_blank_run s -> has_blank_run (p ++ s ++ q).
Proof.
  intros (a & b & ->). exists (p ++ a), (b ++ q).
  rewrite <- !app_assoc. reflexivity.
Qed.

Lemma repeat_LF_snoc run s : repeat LF (S run) ++ s = repeat LF run ++ LF :: s.
Proof.
  induction run as [|run IH]; [reflexivity|].
  change (repeat LF (S (S run)) ++ s) with (LF :: (repeat LF (S run) ++ s)).
  rewrite IH. reflexivity.
Qed.

Lemma squeeze_fixed s : forall run,
  run <= 2 -> ~ has_blank_run (repeat LF run ++ s) -> squeeze run s = s.
Proof.
  induction s as [|c s IH]; intros run Hrun Hno; cbn [squeeze]; [reflexivity|].
  destruct (Ascii.eqb_spec c LF) as [->|Hc].
  - destruct (Nat.ltb_spec run 2) as [Hlt|Hge].
    + f_equal. apply IH; [lia|]. rewrite repeat_LF_snoc. exact Hno.
    + exfalso. apply Hno. assert (run = 2) as -> by lia.
      exists [], s. reflexivity.
  - f_equal. apply IH; [lia|]. intros H. apply Hno.
    apply (has_blank_run_infix (repeat LF run ++ [c]) s []) in H.
    rewrite app_nil_r, <- app_assoc in H. exact H.
Qed.

Lemma squeeze_strip_squeeze u :
  squeeze 0 (strip (squeeze 0 u)) = strip (squeeze 0 u).
Proof.
  apply squeeze_fixed; [lia|]. cbn [repeat app].
  apply strip_no_blank_run, squeeze_no_blank_run.
Qed.

(** ** Texts on which the two math scans have nothing to do *)

Lemma search_None fl r text :
  search fl r text = None -> search_from fl r false None text = None.
Proof.
  unfold search. destruct (search_from fl r false None text); [discriminate|auto].
Qed.

Lemma sub_none fl r repl count text :
  search_from fl r false None text = None -> sub fl r repl count text = text.
Proof. intros H. apply sub_loop_none. exact H. Qed.

Lemma format_no_math t :
  search no_flags PATTERN_SINGLE t = None ->
  search re_MULTILINE PATTERN_DOUBLE t = None ->
  format_math_expressions (Some t) = Some (strip (squeeze 0 t)).
Proof.
  intros Hs Hd. unfold format_math_expressions.
  rewrite (sub_none _ _ _ _ _ (search_None _ _ _ Hd)).
  rewrite (sub_none _ _ _ _ _ (search_None _ _ _ Hs)).
  fold (collapse_blank t). rewrite collapse_blank_squeeze. reflexivity.
Qed.

(** The last two steps leave a reformatted text as it is. *)
Lemma format_fixed t o :
  format_math_expressions (Some t) = Some o ->
  search_from re_MULTILINE PATTERN_DOUBLE false None o = None ->
  sub no_flags PATTERN_SINGLE format_inline_math 0 o = o ->
  format_math_expressions (Some o) = Some o.
Proof.
  intros Ho Hd Hs. unfold format_math_expressions in *.
  rewrite (sub_none _ _ _ _ _ Hd), Hs.
  fold (collapse_blank o). rewrite collapse_blank_squeeze.
  inversion Ho as [Ho'].
  match type of Ho' with strip (sub _ _ _ _ ?u) = _ =>
    fold (collapse_blank u) in Ho' |- *; rewrite collapse_blank_squeeze in Ho' |- *
  end.
  rewrite squeeze_strip_squeeze, strip_idem. reflexivity.
Qed.

(** ** The inline pattern *)

Lemma single_two_dollars fl b p t :
  matches fl PATTERN_SINGLE b p t -> 2 <= dollars p.
Proof.
  unfold PATTERN_SINGLE. cbn [seq]. intros H.
  apply matches_Seq_inv in H as (p1 & p2 & -> & H1 & H).
  apply matches_Lit in H1. subst p1.
  apply matches_Seq_inv in H as (p3 & p4 & -> & _ & H4).
  apply matches_Lit in H4. subst p4.
  rewrite !dollars_app. cbn. lia.
Qed.

Lemma match_single_here b c text :
  dollar_free c ->
  match_here no_flags PATTERN_SINGLE false b ("$" ++ c ++ "$" ++ text)
  = Some (st (Some "$"%char) text (length c + 2) [(1, c)]).
Proof.
  intros Hc. unfold match_here, PATTERN_SINGLE, Star. cbn [seq run].
  change {| before := b; rest := "$" ++ c ++ "$" ++ text;
            consumed := 0; groups := [] |}
    with (st b ("$" ++ c ++ "$" ++ text) 0 []).
  rewrite run_Lit_app. cbn [last_of list_ascii_of_string length Nat.add st
                              before rest consumed groups].
  apply rep_greedy_max.
  - apply Forall_forall. intros x Hx. cbn [accepts].
    destruct (Ascii.eqb_spec x "$") as [->|]; [contradiction|reflexivity].
  - reflexivity.
  - lia.
  - unfold capture. cbn [st before rest consumed groups].
    rewrite (run_Lit_app no_flags "$").
    cbn [last_of list_ascii_of_string length andb].
    unfold st. f_equal. f_equal; [lia|].
    f_equal. f_equal. apply firstn_exact. lia.
Qed.

Lemma match_single_miss ma b x text :
  Ascii.eqb x "$" = false ->
  match_here no_flags PATTERN_SINGLE ma b (x :: text) = None.
Proof.
  intros Hx. unfold match_here, PATTERN_SINGLE. cbn [seq run].
  apply (run_Lit_miss no_flags "$"). cbn [startswith list_ascii_of_string].
  rewrite Hx. reflexivity.
Qed.

Lemma search_single a b c text :
  dollar_free a -> dollar_free c ->
  search_from no_flags PATTERN_SINGLE false b (a ++ "$" ++ c ++ "$" ++ text)
  = Some {| skipped := a;
            hit := {| matched := "$" ++ c ++ "$"; caps := [(1, c)] |};
            last := Some "$"%char; after := text |}.
Proof.
  intros Ha Hc. rewrite search_from_skip_many.
  2:{ intros p1 x p2 Hl. apply match_single_miss.
      exact (dollar_free_split _ _ _ _ Ha Hl). }
  rewrite (search_from_here _ _ _ _ _ _ (match_single_here _ c text Hc)).
  cbn [option_map st before rest consumed groups skipped hit last after].
  rewrite app_nil_r. do 3 f_equal.
  replace ("$" ++ c ++ "$" ++ text) with (("$" ++ c ++ "$") ++ text)
    by (rewrite <- !app_assoc; reflexivity).
  apply firstn_exact. rewrite !length_app. cbn. lia.
Qed.

(** The inline pattern has a match exactly in the texts with two dollar
    signs or more. *)
Lemma search_single_none t :
  search_from no_flags PATTERN_SINGLE false None t = None <-> dollars t <= 1.
Proof.
  split.
  - intros Hnone. destruct (Nat.le_gt_cases (dollars t) 1) as [|Hmany]; [assumption|].
    exfalso. destruct (first_dollar t) as (a & r & -> & Ha); [lia|].
    change (a ++ "$"%char :: r) with (a ++ "$" ++ r) in *.
    rewrite !dollars_app in Hmany. apply dollar_free_dollars in Ha as Ha0.
    destruct (first_dollar r) as (c & r' & -> & Hc); [cbn in Hmany; lia|].
    change (a ++ "$" ++ c ++ "$"%char :: r') with (a ++ "$" ++ c ++ "$" ++ r') in Hnone.
    rewrite search_single in Hnone by assumption. discriminate.
  - intros Hfew. apply (search_none_few_dollars no_flags _ 2).
    + apply single_two_dollars.
    + lia.
Qed.

(** ** The display pattern *)

Lemma double_four_dollars fl b p t :
  matches fl PATTERN_DOUBLE b p t -> 4 <= dollars p.
Proof.
  unfold PATTERN_DOUBLE. cbn [seq]. intros H.
  apply matches_Seq_inv in H as (p0 & q0 & -> & _ & H).
  apply matches_Seq_inv in H as (p1 & q1 & -> & _ & H).
  apply matches_Seq_inv in H as (p2 & q2 & -> & _ & H).
  apply matches_Seq_inv in H as (p3 & q3 & -> & H3 & _).
  apply matches_Group_inv in H3.
  apply matches_Seq_inv in H3 as (d1 & e1 & -> & Hd1 & H3).
  apply matches_Lit in Hd1. subst d1.
  apply matches_Seq_inv in H3 as (d2 & e2 & -> & _ & Hd3).
  apply matches_Lit in Hd3. subst e2.
  rewrite !dollars_app. cbn. lia.
Qed.

Lemma search_double_none ma b t :
  dollars t < 4 -> search_from re_MULTILINE PATTERN_DOUBLE ma b t = None.
Proof. apply search_none_few_dollars, double_four_dollars. Qed.

Lemma dollars_squeeze s : forall run, dollars (squeeze run s) <= dollars s.
Proof.
  induction s as [|c s IH]; intros run; cbn [squeeze]; [lia|].
  pose proof (IH (S run)) as IH1. pose proof (IH 0) as IH0.
  unfold dollars in *. cbn [count_occ].
  destruct (Ascii.eqb c LF); [destruct (run <? 2)|]; cbn [count_occ];
    destruct (ascii_dec c "$"); lia.
Qed.

Lemma dollars_strip s : dollars (strip s) <= dollars s.
Proof.
  destruct (strip_infix s) as (p & q & H). rewrite H at 2.
  rewrite !dollars_app. lia.
Qed.

(** ** One display span on a line of its own *)

Lemma rstrip_last s p x : rstrip s = p ++ [x] -> is_space x = false.
Proof.
  unfold rstrip. intros H. apply (f_equal (@rev ascii)) in H.
  rewrite rev_involutive, rev_app_distr in H. cbn in H.
  pose proof (lstrip_head (rev s)) as Hh. rewrite H in Hh. exact Hh.
Qed.

(** A text is its [strip] with whitespace around it. *)
Lemma strip_split c :
  exists w w',
    c = w ++ strip c ++ w'
    /\ forallb is_space w = true /\ forallb is_space w' = true
    /\ (strip c = [] -> w' = []).
Proof.
  destruct (lstrip_suffix c) as (w & Hw & Hws).
  destruct (rstrip_prefix (lstrip c)) as (w' & Hw' & Hws').
  exists w, w'. unfold strip. rewrite <- Hw'. repeat split; trivial.
  intros Hnil. rewrite Hnil in Hw'. cbn in Hw'.
  pose proof (lstrip_head c) as Hh. rewrite Hw' in Hh.
  destruct w' as [|x w']; [reflexivity|].
  cbn in Hws'. rewrite Hh in Hws'. discriminate.
Qed.

Lemma strip_head c :
  match strip c with x :: _ => is_space x = false | [] => True end.
Proof. apply rstrip_head, lstrip_head. Qed.

Lemma strip_last c p x : strip c = p ++ [x] -> is_space x = false.
Proof. apply rstrip_last. Qed.

Lemma strip_fixed s :
  match s with x :: _ => is_space x = false | [] => True end ->
  (forall p x, s = p ++ [x] -> is_space x = false) ->
  strip s = s.
Proof.
  intros Hh Hl. unfold strip. rewrite (lstrip_fixed s Hh).
  unfold rstrip. rewrite lstrip_fixed; [apply rev_involutive|].
  destruct (rev s) as [|x r] eqn:E; [exact I|].
  apply (Hl (rev r) x). rewrite <- (rev_involutive s), E. reflexivity.
Qed.

(** Two ways of cutting a text at its first dollar sign are the same. *)
Lemma first_dollar_unique a : forall a' r r',
  dollar_free a -> dollar_free a' ->
  a ++ "$"%char :: r = a' ++ "$"%char :: r' -> a = a' /\ r = r'.
Proof.
  induction a as [|x a IH]; intros a' r r' Ha Ha' H.
  - destruct a' as [|y a']; cbn in H.
    + inversion H. auto.
    + inversion H; subst. exfalso. apply Ha'. left. reflexivity.
  - destruct a' as [|y a']; cbn in H.
    + inversion H; subst. exfalso. apply Ha. left. reflexivity.
    + inversion H; subst. apply dollar_free_cons in Ha as [_ Ha].
      apply dollar_free_cons in Ha' as [_ Ha'].
      destruct (IH a' r r' Ha Ha' H2) as [-> ->]. auto.
Qed.

Section MoreEngine.
Variable fl : flags.

Lemma run_Lit_hit_inv p k s s' :
  run fl (Lit p) k s = Some s' -> exists t, rest s = p ++ t.
Proof.
  intros H. apply run_sound in H as (q & s1 & Hr & Hm & _).
  apply matches_Lit in Hm. subst q. eauto.
Qed.

(** A greedy repetition that cannot start leaves the position as it is. *)
Lemma rep_greedy_none cs k b n g text :
  match text with c :: _ => accepts fl cs c = false | [] => True end ->
  rep fl true cs k 0 b n g text = k (st b text n g).
Proof.
  intros H. destruct text as [|c text]; cbn [rep]; [|rewrite H];
    destruct (k _); reflexivity.
Qed.

(** A lazy repetition takes nothing when the rest of the pattern matches
    at once. *)
Lemma rep_lazy_none cs k b n g text r :
  k (st b text n g) = Some r -> rep fl false cs k 0 b n g text = Some r.
Proof.
  intros H. unfold st in H. destruct text as [|c text]; cbn [rep]; rewrite H;
    reflexivity.
Qed.

(** A repetition fails when the rest of the pattern fails behind every
    part it can take. *)
Lemma rep_none greedy cs k min b n g text :
  (forall p t, text = p ++ t ->
     Forall (fun c => accepts fl cs c = true) p ->
     k (st (last_of b p) t (n + length p) g) = None) ->
  rep fl greedy cs k min b n g text = None.
Proof.
  intros H. destruct (rep fl greedy cs k min b n g text) as [s'|] eqn:E;
    [|reflexivity].
  apply rep_sound in E as (p & t & Ht & Hp & _ & Hk).
  rewrite (H p t Ht Hp) in Hk. discriminate.
Qed.

End MoreEngine.

Lemma forallb_Forall_space w :
  forallb is_space w = true ->
  Forall (fun x => accepts re_DOTALL CSpace x = true) w.
Proof.
  intros H. apply Forall_forall. intros x Hx.
  rewrite forallb_forall in H. exact (H x Hx).
Qed.

(** The pattern of [format_display_math_block] takes the trimmed text
    between the dollar signs as its group. *)
Lemma match_content b c text :
  dollar_free c ->
  match_here re_DOTALL PATTERN_CONTENT false b ("$$" ++ c ++ "$$" ++ text)
  = Some (st (Some "$"%char) text (length c + 4) [(1, strip c)]).
Proof.
  intros Hfree. destruct (strip_split c) as (w & w' & Hc & Hw & Hw' & Hnil).
  pose proof (strip_head c) as Hhead. pose proof (strip_last c) as Hlast.
  remember (strip c) as core eqn:Hcore. clear Hcore.
  subst c. apply dollar_free_app in Hfree as [_ Hfree].
  apply dollar_free_app in Hfree as [Hfcore Hfw'].
  rewrite !length_app, <- !app_assoc.
  unfold match_here, PATTERN_CONTENT, Star, LazyStar. cbn [seq run].
  change {| before := b; rest := "$$" ++ w ++ core ++ w' ++ "$$" ++ text;
            consumed := 0; groups := [] |}
    with (st b ("$$" ++ w ++ core ++ w' ++ "$$" ++ text) 0 []).
  rewrite run_Lit_app. cbn [last_of list_ascii_of_string length Nat.add st
                              before rest consumed groups].
  apply rep_greedy_max; [apply forallb_Forall_space, Hw| |lia|].
  { destruct core as [|x core]; [|exact Hhead].
    rewrite (Hnil eq_refl). reflexivity. }
  cbn [run st before rest consumed groups].
  apply rep_lazy_hit.
  - apply Forall_forall. intros x _. reflexivity.
  - intros p1 x p2 Hl. unfold capture. cbn [run st before rest consumed groups].
    apply rep_none. intros p t Ht Hp.
    match goal with |- ?lhs = None => destruct lhs as [s'|] eqn:E end;
      [exfalso|reflexivity].
    apply run_Lit_hit_inv in E as (t' & Ht'). cbn [rest st] in Ht'. subst t.
    assert (Hsp : forall y, In y p -> is_space y = true).
    { intros y Hy. rewrite Forall_forall in Hp. exact (Hp y Hy). }
    assert (Hfp : dollar_free p).
    { intros Hin. specialize (Hsp _ Hin). discriminate Hsp. }
    assert (Hfx : dollar_free ((x :: p2) ++ w')).
    { apply dollar_free_app. split; [|exact Hfw']. intros Hin. apply Hfcore.
      rewrite Hl. apply in_or_app. right. exact Hin. }
    assert (Ht2 : ((x :: p2) ++ w') ++ "$"%char :: "$" ++ text
                  = p ++ "$"%char :: "$" ++ t').
    { rewrite <- app_assoc. exact Ht. }
    apply first_dollar_unique in Ht2 as [Hp' _]; trivial.
    destruct (exists_last (l := x :: p2)) as (q & y & Hq); [discriminate|].
    assert (Hy : is_space y = false).
    { apply (Hlast (p1 ++ q) y). rewrite Hl, Hq, app_assoc. reflexivity. }
    rewrite (Hsp y) in Hy; [discriminate|].
    rewrite <- Hp', Hq. apply in_or_app. left. apply in_or_app. right.
    left. reflexivity.
  - unfold capture. cbn [run st before rest consumed groups].
    apply rep_greedy_max; [apply forallb_Forall_space, Hw'|reflexivity|lia|].
    rewrite (run_Lit_app re_DOTALL "$$").
    cbn [last_of list_ascii_of_string length andb].
    unfold st. f_equal. f_equal.
    + lia.
    + do 2 f_equal. apply firstn_exact. lia.
Qed.

Lemma match_content_end b c :
  dollar_free c ->
  match_here re_DOTALL PATTERN_CONTENT false b ("$$" ++ c ++ "$$")
  = Some (st (Some "$"%char) [] (length c + 4) [(1, strip c)]).
Proof.
  intros Hc. pose proof (match_content b c [] Hc) as H.
  rewrite app_nil_r in H. exact H.
Qed.

(** Content without a backslash has no tag directive. *)
Lemma process_plain s : ~ In "\"%char s -> _process_math_content s = strip s.
Proof.
  intros Hs. unfold _process_math_content, search.
  rewrite search_from_none; [cbn [option_map]; apply app_nil_r|].
  intros pre p t -> Hm. unfold PATTERN_TAG in Hm. cbn [seq] in Hm.
  apply matches_Seq_inv in Hm as (p1 & p2 & -> & H1 & _).
  apply matches_Lit in H1. subst p1. apply Hs.
  apply in_or_app. right. apply in_or_app. left. left. reflexivity.
Qed.

Lemma accepts_dot_multiline c : c <> LF -> accepts re_MULTILINE CDot c = true.
Proof.
  intros H. cbn. destruct (Ascii.eqb_spec c LF); [contradiction|reflexivity].
Qed.

(** The display pattern on a line that is one display span. *)
Lemma match_double_span c :
  dollar_free c -> ~ In LF c ->
  match_here re_MULTILINE PATTERN_DOUBLE false None ("$$" ++ c ++ "$$")
  = Some (st (Some "$"%char) [] (length c + 4)
            [(4, []); (3, "$$" ++ c ++ "$$"); (2, []); (1, [])]).
Proof.
  intros Hc HLF.
  rewrite <- (app_nil_r ("$$" ++ c ++ "$$")) at 1. rewrite <- !app_assoc.
  unfold match_here, PATTERN_DOUBLE, Star, LazyStar. cbn [seq run at_bol before].
  cbn [rest before consumed groups].
  rewrite rep_greedy_none by reflexivity.
  apply rep_lazy_none. unfold capture, st.
  cbn [run before rest consumed groups Nat.sub firstn].
  change {| before := None; rest := "$$" ++ c ++ "$$" ++ []; consumed := 0;
            groups := [(2, []); (1, [])] |}
    with (st None ("$$" ++ c ++ "$$" ++ []) 0 [(2, []); (1, [])]).
  rewrite run_Lit_app. cbn [last_of list_ascii_of_string length Nat.add st
                              before rest consumed groups].
  apply rep_lazy_hit.
  - apply Forall_forall. intros x Hx. apply accepts_dot_multiline.
    intros ->. exact (HLF Hx).
  - intros p1 x p2 Hl. cbn [st before rest consumed groups].
    apply (run_Lit_miss re_MULTILINE "$$").
    cbn [startswith list_ascii_of_string].
    rewrite (dollar_free_split _ _ _ _ Hc Hl). reflexivity.
  - rewrite (run_Lit_app re_MULTILINE "$$").
    unfold capture. cbn [last_of list_ascii_of_string length andb st
                           before rest consumed groups rep at_eol].
    unfold st. f_equal. f_equal; [lia|].
    rewrite firstn_nil. do 3 f_equal.
    rewrite firstn_all2; [rewrite app_nil_r; reflexivity|].
    rewrite !length_app. cbn. lia.
Qed.

Lemma strip_In x s : In x (strip s) -> In x s.
Proof.
  intros H. destruct (strip_infix s) as (p & q & Hs). rewrite Hs.
  apply in_or_app. right. apply in_or_app. left. exact H.
Qed.

(** The display scan on a line that is one display span with plain
    content: the span is put on three lines, its content trimmed. *)
Lemma sub_double_span c :
  dollar_free c -> ~ In LF c -> ~ In "\"%char c ->
  sub re_MULTILINE PATTERN_DOUBLE format_display_math_block 0 ("$$" ++ c ++ "$$")
  = "$$" ++ [LF] ++ strip c ++ [LF] ++ "$$".
Proof.
  intros Hc HLF Hbs. unfold sub. rewrite Nat.add_comm. cbn [Nat.add].
  rewrite (sub_loop_hit re_MULTILINE _ _ _ 0 0 false None _ _ eq_refl
             (match_double_span c Hc HLF)).
  cbn [st before rest consumed groups].
  rewrite sub_loop_nil by reflexivity. rewrite app_nil_r.
  unfold format_display_math_block. cbn [group caps lookup Nat.eqb].
  unfold search.
  rewrite (search_from_here _ _ _ _ _ _ (match_content_end None c Hc)).
  cbn [option_map hit group caps lookup Nat.eqb st groups].
  rewrite process_plain by (intros H; exact (Hbs (strip_In _ _ H))).
  rewrite strip_idem. reflexivity.
Qed.

(** The inline scan on two pairs of dollar signs with plain text between
    them: each pair is an inline span without content, and stays. *)
Lemma sub_single_pairs m :
  dollar_free m ->
  sub no_flags PATTERN_SINGLE format_inline_math 0 ("$$" ++ m ++ "$$")
  = "$$" ++ m ++ "$$".
Proof.
  intros Hm. unfold sub.
  replace (2 * length ("$$" ++ m ++ "$$") + 2)
    with (S (S (2 * length ("$$" ++ m ++ "$$")))) by lia.
  change ("$$" ++ m ++ "$$") with ("$" ++ [] ++ "$" ++ m ++ "$" ++ [] ++ "$" ++ [])
    at 2.
  rewrite (sub_loop_hit no_flags _ _ _ 0 0 false None _ _ eq_refl
             (match_single_here None [] _ (fun H => H))).
  cbn [st before rest consumed groups].
  rewrite sub_loop_skip_many.
  2:{ intros p1 x p2 Hl. apply match_single_miss.
      exact (dollar_free_split _ _ _ _ Hm Hl). }
  rewrite (sub_loop_hit no_flags _ _ _ 0 1 false _ _ _ eq_refl
             (match_single_here _ [] [] (fun H => H))).
  cbn [st before rest consumed groups].
  rewrite sub_loop_nil by reflexivity.
  reflexivity.
Qed.

Lemma runs_below3_plain c x : forall run,
  ~ In LF c ->
  runs_below3 run (c ++ x)
  = match c with [] => runs_below3 run x | _ => runs_below3 0 x end.
Proof.
  induction c as [|y c IH]; intros run HLF; [reflexivity|].
  cbn [app runs_below3].
  destruct (Ascii.eqb_spec y LF) as [->|_]; [exfalso; apply HLF; left; reflexivity|].
  rewrite IH by (intros H; apply HLF; right; exact H).
  destruct c; reflexivity.
Qed.

Lemma span_lines_fixed c :
  ~ In LF c ->
  squeeze 0 ("$$" ++ [LF] ++ strip c ++ [LF] ++ "$$")
  = "$$" ++ [LF] ++ strip c ++ [LF] ++ "$$"
  /\ strip ("$$" ++ [LF] ++ strip c ++ [LF] ++ "$$")
     = "$$" ++ [LF] ++ strip c ++ [LF] ++ "$$".
Proof.
  intros HLF. split.
  - apply squeeze_fixed; [lia|]. cbn [repeat app].
    intros (a & b & H). apply (runs_below3_sound a 0 b). rewrite <- H.
    cbn [list_ascii_of_string app runs_below3].
    change (Ascii.eqb "$" LF) with false. rewrite Ascii.eqb_refl. cbn [andb Nat.ltb Nat.leb].
    rewrite runs_below3_plain by (intros Hin; exact (HLF (strip_In _ _ Hin))).
    destruct (strip c); reflexivity.
  - apply strip_fixed; [reflexivity|].
    intros p x H.
    replace ("$$" ++ [LF] ++ strip c ++ [LF] ++ "$$")
      with (("$$" ++ [LF] ++ strip c ++ [LF] ++ "$") ++ ["$"%char]) in H
      by (rewrite <- !app_assoc; reflexivity).
    apply app_inj_tail in H as [_ <-]. reflexivity.
Qed.

Lemma matches_Rep_inv fl greedy min cs b p t :
  matches fl (Rep greedy min cs) b p t ->
  Forall (fun c => accepts fl cs c = true) p.
Proof. intros H. inversion H; subst. assumption. Qed.

(** A match of the display pattern holds two pairs of dollar signs with no
    line feed between them. *)
Lemma double_match_shape b p t :
  matches re_MULTILINE PATTERN_DOUBLE b p t ->
  exists A pd B, p = A ++ "$$" ++ pd ++ "$$" ++ B /\ ~ In LF pd.
Proof.
  unfold PATTERN_DOUBLE, LazyStar. cbn [seq]. intros H.
  apply matches_Seq_inv in H as (p0 & q0 & -> & _ & H).
  apply matches_Seq_inv in H as (p1 & q1 & -> & _ & H).
  apply matches_Seq_inv in H as (p2 & q2 & -> & _ & H).
  apply matches_Seq_inv in H as (p3 & q3 & -> & H3 & _).
  apply matches_Group_inv in H3.
  apply matches_Seq_inv in H3 as (d1 & e1 & -> & Hd1 & H3).
  apply matches_Lit in Hd1. subst d1.
  apply matches_Seq_inv in H3 as (d2 & e2 & -> & Hd2 & Hd3).
  apply matches_Lit in Hd3. subst e2.
  apply matches_Rep_inv in Hd2.
  exists (p0 ++ p1 ++ p2), d2, q3. split.
  - rewrite <- !app_assoc. reflexivity.
  - intros Hin. rewrite Forall_forall in Hd2. specialize (Hd2 _ Hin).
    discriminate Hd2.
Qed.

(** Between two pairs of dollar signs on different lines the display
    pattern has no match. *)
Lemma search_double_none_span ma b m :
  dollar_free m -> In LF m ->
  search_from re_MULTILINE PATTERN_DOUBLE ma b ("$$" ++ m ++ "$$") = None.
Proof.
  intros Hm HLF. apply search_from_none. intros pre p t Ht Hmatch.
  apply double_match_shape in Hmatch as (A & pd & B & -> & Hpd).
  assert (Hcount : dollars ("$$" ++ m ++ "$$")
                   = dollars (pre ++ (A ++ "$$" ++ pd ++ "$$" ++ B) ++ t))
    by (rewrite Ht; reflexivity).
  rewrite !dollars_app in Hcount. apply dollar_free_dollars in Hm as Hm0.
  rewrite Hm0 in Hcount. cbn in Hcount.
  assert (HpreA : dollar_free (pre ++ A)).
  { apply dollar_free_dollars. rewrite dollars_app. lia. }
  assert (Hfpd : dollar_free pd) by (apply dollar_free_dollars; lia).
  assert (Ht1 : [] ++ "$"%char :: ("$" ++ m ++ "$$")
                = (pre ++ A) ++ "$"%char :: ("$" ++ pd ++ "$$" ++ B ++ t)).
  { cbn [app]. rewrite <- !app_assoc in *. exact Ht. }
  apply first_dollar_unique in Ht1 as [_ Ht2]; [|intros []|exact HpreA].
  cbn [list_ascii_of_string app] in Ht2. inversion Ht2 as [Ht3].
  apply first_dollar_unique in Ht3 as [Heq _]; trivial.
  subst pd. exact (Hpd HLF).
Qed.
(** ** Texts without math *)



(** Counterexample to C3 as stated: a text without any math would come back as it
    is.  A text with a run of three line feeds and no dollar sign does not. *)
Lemma format_changes_plain_text :
  search no_flags PATTERN_SINGLE ("a" ++ [LF; LF; LF] ++ "b") = None
  /\ search re_MULTILINE PATTERN_DOUBLE ("a" ++ [LF; LF; LF] ++ "b") = None
  /\ format_math_expressions (Some ("a" ++ [LF; LF; LF] ++ "b"))
     = Some ("a" ++ [LF; LF] ++ "b")
  /\ format_math_expressions (Some ("a" ++ [LF; LF; LF] ++ "b"))
     <> Some ("a" ++ [LF; LF; LF] ++ "b").
Proof.
  repeat split; try (vm_compute; reflexivity). vm_compute. discriminate.
Qed.

(** ** Reformatting twice *)

Lemma span_middle_dollar_free c :
  dollar_free c -> dollar_free ([LF] ++ strip c ++ [LF]).
Proof.
  intros Hc. apply dollar_free_app. split; [intros [H|[]]; discriminate H|].
  apply dollar_free_app. split; [|intros [H|[]]; discriminate H].
  intros H. exact (Hc (strip_In _ _ H)).
Qed.

Lemma format_display_span c :
  dollar_free c -> ~ In LF c -> ~ In "\"%char c ->
  format_math_expressions (Some ("$$" ++ c ++ "$$"))
  = Some ("$$" ++ [LF] ++ strip c ++ [LF] ++ "$$").
Proof.
  intros Hc HLF Hbs. unfold format_math_expressions.
  rewrite (sub_double_span c Hc HLF Hbs).
  replace ("$$" ++ [LF] ++ strip c ++ [LF] ++ "$$")
    with ("$$" ++ ([LF] ++ strip c ++ [LF]) ++ "$$")
    by (rewrite <- !app_assoc; reflexivity).
  rewrite (sub_single_pairs _ (span_middle_dollar_free c Hc)).
  fold (collapse_blank ("$$" ++ ([LF] ++ strip c ++ [LF]) ++ "$$")).
  rewrite collapse_blank_squeeze. rewrite <- !app_assoc.
  destruct (span_lines_fixed c HLF) as [-> ->]. reflexivity.
Qed.

Lemma format_display_span_again c :
  dollar_free c -> ~ In LF c -> ~ In "\"%char c ->
  format_math_expressions (Some ("$$" ++ [LF] ++ strip c ++ [LF] ++ "$$"))
  = Some ("$$" ++ [LF] ++ strip c ++ [LF] ++ "$$").
Proof.
  intros Hc HLF Hbs.
  apply (format_fixed ("$$" ++ c ++ "$$")).
  - exact (format_display_span c Hc HLF Hbs).
  - replace ("$$" ++ [LF] ++ strip c ++ [LF] ++ "$$")
      with ("$$" ++ ([LF] ++ strip c ++ [LF]) ++ "$$")
      by (rewrite <- !app_assoc; reflexivity).
    apply search_double_none_span;
      [exact (span_middle_dollar_free c Hc)|left; reflexivity].
  - replace ("$$" ++ [LF] ++ strip c ++ [LF] ++ "$$")
      with ("$$" ++ ([LF] ++ strip c ++ [LF]) ++ "$$")
      by (rewrite <- !app_assoc; reflexivity).
    exact (sub_single_pairs _ (span_middle_dollar_free c Hc)).
Qed.

(** C1, as the code has it: reformatting a second time changes nothing
    when the text holds no inline match, when the text is one display span
    with plain content (which comes out on three lines), and in general
    whenever the two math scans leave the reformatted text as it is; the
    collapsing and the trimming never undo their own work. *)
Theorem format_idempotent_when_scans_rest :
  (forall t,
      search no_flags PATTERN_SINGLE t = None ->
      format_math_expressions (format_math_expressions (Some t))
      = format_math_expressions (Some t))
  /\ (forall c,
        dollar_free c -> ~ In LF c -> ~ In "\"%char c ->
        format_math_expressions (Some ("$$" ++ c ++ "$$"))
        = Some ("$$" ++ [LF] ++ strip c ++ [LF] ++ "$$")
        /\ format_math_expressions
             (format_math_expressions (Some ("$$" ++ c ++ "$$")))
           = format_math_expressions (Some ("$$" ++ c ++ "$$")))
  /\ (forall t o,
        format_math_expressions (Some t) = Some o ->
        search re_MULTILINE PATTERN_DOUBLE o = None ->
        sub no_flags PATTERN_SINGLE format_inline_math 0 o = o ->
        format_math_expressions (format_math_expressions (Some t))
        = format_math_expressions (Some t)).
Proof.
  split; [|split].
  - intros t Hs. apply search_None in Hs as Hs'.
    apply search_single_none in Hs'.
    assert (Hd : search re_MULTILINE PATTERN_DOUBLE t = None).
    { unfold search. rewrite search_double_none by lia. reflexivity. }
    rewrite (format_no_math t Hs Hd).
    pose proof (dollars_strip (squeeze 0 t)) as H1.
    pose proof (dollars_squeeze t 0) as H2.
    apply (format_fixed t); [exact (format_no_math t Hs Hd)| |].
    + apply search_double_none. lia.
    + apply sub_none, search_single_none. lia.
  - intros c Hc HLF Hbs. split; [exact (format_display_span c Hc HLF Hbs)|].
    rewrite (format_display_span c Hc HLF Hbs).
    exact (format_display_span_again c Hc HLF Hbs).
  - intros t o Ho Hd Hs. rewrite Ho.
    exact (format_fixed t o Ho (search_None _ _ _ Hd) Hs).
Qed.

Lemma format_idempotent_when_scans_rest_witness :
  (dollar_free " x = 1 " /\ ~ In LF (list_ascii_of_string " x = 1 ")
   /\ ~ In "\"%char (list_ascii_of_string " x = 1 "))
  /\ format_math_expressions (Some ("$$" ++ " x = 1 " ++ "$$"))
     = Some ("$$" ++ [LF] ++ strip " x = 1 " ++ [LF] ++ "$$")
  /\ format_math_expressions
       (format_math_expressions (Some ("$$" ++ " x = 1 " ++ "$$")))
     = format_math_expressions (Some ("$$" ++ " x = 1 " ++ "$$")).
Proof.
  assert (Hnot : forall (x : ascii) (s : string),
             forallb (fun y => negb (Ascii.eqb y x)) s = true -> ~ In x s).
  { intros x s H Hin. rewrite forallb_forall in H. specialize (H _ Hin).
    rewrite Ascii.eqb_refl in H. discriminate H. }
  assert (H1 : dollar_free " x = 1 ") by (apply Hnot; reflexivity).
  assert (H2 : ~ In LF (list_ascii_of_string " x = 1 "))
    by (apply Hnot; reflexivity).
  assert (H3 : ~ In "\"%char (list_ascii_of_string " x = 1 "))
    by (apply Hnot; reflexivity).
  split; [auto|].
  exact (proj1 (proj2 format_idempotent_when_scans_rest) " x = 1 " H1 H2 H3).
Defined.

(** Counterexample to C1 as stated: reformatting twice would be reformatting
    once.  With two display spans on one line the first pass breaks up the
    first span and moves the second to a line of its own, where the second
    pass breaks it up as well. *)
Lemma format_not_idempotent :
  format_math_expressions (Some (list_ascii_of_string "$$a$$ $$b$$"))
  = Some ("$$" ++ [LF] ++ "a" ++ [LF] ++ "$$" ++ [LF] ++ "$$b$$")
  /\ format_math_expressions
       (format_math_expressions (Some (list_ascii_of_string "$$a$$ $$b$$")))
     = Some ("$$" ++ [LF] ++ "a" ++ [LF] ++ "$$" ++ [LF]
             ++ "$$" ++ [LF] ++ "b" ++ [LF] ++ "$$")
  /\ format_math_expressions
       (format_math_expressions (Some (list_ascii_of_string "$$a$$ $$b$$")))
     <> format_math_expressions (Some (list_ascii_of_string "$$a$$ $$b$$")).
Proof.
  repeat split; try (vm_compute; reflexivity). vm_compute. discriminate.
Qed.
(** * Concrete runs *)

(** C5: parsing the text of two well-formed blocks returns exactly the two
    records (Q1, A1) and (Q2, A2), in that order, and prints nothing. *)
Theorem parse_two_cards :
  parse_flashcards_from_text (Some two_cards_text)
  = ([ {| question := "Q1"; answer := "A1" |};
       {| question := "Q2"; answer := "A2" |} ], []).
Proof. vm_compute. reflexivity. Qed.

(** C7: on a display span followed by an inline span the display rule runs
    first and takes the display span only, leaving the inline span for the
    second rule, which wraps it with a blank on either side. *)
Theorem convert_display_before_inline :
  sub re_DOTALL PATTERN_ANKI_DISPLAY (expand [TLit "\["; TRef 1; TLit "\]"]) 0
      "$$a$$ and $b$"
  = "\[a\] and $b$"
  /\ convert_latex_delimiters "$$a$$ and $b$" = "\[a\] and \( b \)".
Proof. split; vm_compute; reflexivity. Qed.

(** C10: given [None], the reformatter returns [None]; given a string, it
    returns a string. *)
Theorem format_None :
  format_math_expressions None = None
  /\ forall t, format_math_expressions (Some t) <> None.
Proof. split; [reflexivity|]. intros t. discriminate. Qed.
(** * Further properties of the reformatter and the transcoder *)

Lemma blank_dollar_free w : forallb is_space w = true -> dollar_free w.
Proof.
  intros H Hin. rewrite forallb_forall in H. specialize (H _ Hin). discriminate H.
Qed.

Lemma squeeze_blank t : forall run,
  forallb is_space t = true -> forallb is_space (squeeze run t) = true.
Proof.
  induction t as [|c t IH]; intros run H; [reflexivity|].
  cbn [forallb] in H. apply andb_true_iff in H as [Hc Ht]. cbn [squeeze].
  destruct (Ascii.eqb c LF); [destruct (run <? 2)|]; cbn [forallb];
    rewrite ?Hc, ?IH; auto.
Qed.

Lemma strip_blank t : forallb is_space t = true -> strip t = [].
Proof. intros H. unfold strip. rewrite lstrip_blank by exact H. reflexivity. Qed.

(** X1: what the reformatter returns neither starts nor ends with
    whitespace. *)
Theorem format_result_is_trimmed :
  forall t, exists o,
    format_math_expressions (Some t) = Some o
    /\ strip o = o
    /\ match o with c :: _ => is_space c = false | [] => True end
    /\ (forall p x, o = p ++ [x] -> is_space x = false).
Proof.
  intros t. eexists. split; [reflexivity|]. split; [apply strip_idem|].
  split; [apply strip_head|apply strip_last].
Qed.

(** X2: on a text of whitespace only, the empty text among them, the
    reformatter returns the empty text. *)
Theorem format_blank_text :
  forall t, forallb is_space t = true ->
    format_math_expressions (Some t) = Some [].
Proof.
  intros t H. pose proof (blank_dollar_free t H) as Hfree.
  apply dollar_free_dollars in Hfree.
  rewrite format_no_math.
  - rewrite strip_blank; [reflexivity|apply squeeze_blank, H].
  - unfold search. rewrite (proj2 (search_single_none t)) by lia. reflexivity.
  - unfold search. rewrite search_double_none by lia. reflexivity.
Qed.

Lemma format_blank_text_witness :
  forallb is_space (" " ++ [LF; LF; LF; LF] ++ " ") = true
  /\ format_math_expressions (Some (" " ++ [LF; LF; LF; LF] ++ " ")) = Some [].
Proof.
  assert (H : forallb is_space (" " ++ [LF; LF; LF; LF] ++ " ") = true)
    by reflexivity.
  split; [exact H|]. exact (format_blank_text _ H).
Defined.

Lemma anki_display_two_dollars fl b p t :
  matches fl PATTERN_ANKI_DISPLAY b p t -> 2 <= dollars p.
Proof.
  unfold PATTERN_ANKI_DISPLAY. cbn [seq]. intros H.
  apply matches_Seq_inv in H as (p1 & p2 & -> & H1 & _).
  apply matches_Lit in H1. subst p1. rewrite dollars_app. cbn. lia.
Qed.

Lemma anki_inline_shape fl b p t :
  matches fl PATTERN_ANKI_INLINE b p t ->
  exists pd, p = "$" ++ pd ++ "$"
             /\ Forall (fun c => accepts fl CDot c = true) pd.
Proof.
  unfold PATTERN_ANKI_INLINE, LazyStar. cbn [seq]. intros H.
  apply matches_Seq_inv in H as (p1 & p2 & -> & H1 & H).
  apply matches_Lit in H1. subst p1.
  apply matches_Seq_inv in H as (p3 & p4 & -> & H3 & H4).
  apply matches_Lit in H4. subst p4.
  apply matches_Group_inv, matches_Rep_inv in H3. eauto.
Qed.

Lemma anki_inline_two_dollars fl b p t :
  matches fl PATTERN_ANKI_INLINE b p t -> 2 <= dollars p.
Proof.
  intros H. apply anki_inline_shape in H as (pd & -> & _).
  rewrite !dollars_app. cbn. lia.
Qed.

Lemma convert_few_dollars t :
  dollars t <= 1 -> convert_latex_delimiters t = t.
Proof.
  intros H. unfold convert_latex_delimiters.
  rewrite (sub_none re_DOTALL PATTERN_ANKI_DISPLAY).
  - apply sub_none. apply (search_none_few_dollars no_flags _ 2);
      [apply anki_inline_two_dollars|lia].
  - apply (search_none_few_dollars re_DOTALL _ 2);
      [apply anki_display_two_dollars|lia].
Qed.

(** X3: the transcoder returns a text with fewer than two dollar signs,
    the empty text among them, as it is. *)
Theorem convert_leaves_plain_text :
  forall t, dollars t <= 1 -> convert_latex_delimiters t = t.
Proof. exact convert_few_dollars. Qed.

Lemma convert_leaves_plain_text_witness :
  dollars "costs 5$ a piece" <= 1
  /\ convert_latex_delimiters "costs 5$ a piece" = "costs 5$ a piece".
Proof.
  assert (H : dollars "costs 5$ a piece" <= 1) by (vm_compute; lia).
  split; [exact H|]. exact (convert_leaves_plain_text _ H).
Defined.

(** One match in a text that has no other: [sub] replaces it and keeps
    the text around it. *)
Lemma sub_one_match fl r repl a m b s :
  (forall p1 c p2, a = p1 ++ c :: p2 ->
     match_here fl r false (last_of None p1) (c :: p2 ++ m ++ b) = None) ->
  match_here fl r false (last_of None a) (m ++ b) = Some s ->
  consumed s = length m -> rest s = b ->
  (forall ma b', search_from fl r ma b' b = None) ->
  sub fl r repl 0 (a ++ m ++ b)
  = a ++ repl {| matched := m; caps := groups s |} ++ b.
Proof.
  intros Hskip Hhit Hlen Hrest Hnone. unfold sub.
  rewrite Nat.add_comm. cbn [Nat.add].
  rewrite sub_loop_skip_many by exact Hskip. f_equal.
  rewrite (sub_loop_hit fl _ r repl 0 0 false _ _ s eq_refl Hhit).
  rewrite Hlen, firstn_exact by reflexivity. f_equal.
  rewrite Hrest. apply sub_loop_none, Hnone.
Qed.

Lemma anki_display_four_dollars fl b p t :
  matches fl PATTERN_ANKI_DISPLAY b p t -> 4 <= dollars p.
Proof.
  unfold PATTERN_ANKI_DISPLAY. cbn [seq]. intros H.
  apply matches_Seq_inv in H as (p1 & p2 & -> & H1 & H).
  apply matches_Lit in H1. subst p1.
  apply matches_Seq_inv in H as (p3 & p4 & -> & _ & H4).
  apply matches_Lit in H4. subst p4.
  rewrite !dollars_app. cbn. lia.
Qed.

Lemma match_anki_inline_here b c text :
  dollar_free c -> ~ In LF c ->
  match_here no_flags PATTERN_ANKI_INLINE false b ("$" ++ c ++ "$" ++ text)
  = Some (st (Some "$"%char) text (length c + 2) [(1, c)]).
Proof.
  intros Hc HLF. unfold match_here, PATTERN_ANKI_INLINE, LazyStar. cbn [seq run].
  change {| before := b; rest := "$" ++ c ++ "$" ++ text;
            consumed := 0; groups := [] |}
    with (st b ("$" ++ c ++ "$" ++ text) 0 []).
  rewrite run_Lit_app. cbn [last_of list_ascii_of_string length Nat.add st
                              before rest consumed groups].
  apply rep_lazy_hit.
  - apply Forall_forall. intros x Hx. apply accepts_dot_no_LF.
    intros ->. exact (HLF Hx).
  - intros p1 x p2 Hl. unfold capture. cbn [st before rest consumed groups].
    apply (run_Lit_miss no_flags "$"). cbn [startswith list_ascii_of_string].
    rewrite (dollar_free_split _ _ _ _ Hc Hl). reflexivity.
  - unfold capture. cbn [st before rest consumed groups].
    rewrite (run_Lit_app no_flags "$").
    cbn [last_of list_ascii_of_string length andb].
    unfold st. f_equal. f_equal; [lia|].
    f_equal. f_equal. apply firstn_exact. lia.
Qed.

Lemma match_anki_inline_miss ma b x text :
  Ascii.eqb x "$" = false ->
  match_here no_flags PATTERN_ANKI_INLINE ma b (x :: text) = None.
Proof.
  intros Hx. unfold match_here, PATTERN_ANKI_INLINE. cbn [seq run].
  apply (run_Lit_miss no_flags "$"). cbn [startswith list_ascii_of_string].
  rewrite Hx. reflexivity.
Qed.

Lemma one_span_dollars a m b :
  dollar_free a -> dollar_free m -> dollar_free b ->
  dollars (a ++ "$" ++ m ++ "$" ++ b) = 2.
Proof.
  intros Ha Hm Hb. rewrite !dollars_app.
  apply dollar_free_dollars in Ha, Hm, Hb. rewrite Ha, Hm, Hb. reflexivity.
Qed.

Lemma convert_inline_span a c b :
  dollar_free a -> dollar_free c -> dollar_free b -> ~ In LF c ->
  convert_latex_delimiters (a ++ "$" ++ c ++ "$" ++ b)
  = a ++ "\( " ++ c ++ " \)" ++ b.
Proof.
  intros Ha Hc Hb HLF. unfold convert_latex_delimiters.
  rewrite (sub_none re_DOTALL PATTERN_ANKI_DISPLAY).
  2:{ apply (search_none_few_dollars re_DOTALL _ 4);
        [apply anki_display_four_dollars|].
      rewrite one_span_dollars by assumption. lia. }
  replace (a ++ "$" ++ c ++ "$" ++ b) with (a ++ ("$" ++ c ++ "$") ++ b)
    by (rewrite <- !app_assoc; reflexivity).
  rewrite (sub_one_match no_flags _ _ a ("$" ++ c ++ "$") b
             (st (Some "$"%char) b (length c + 2) [(1, c)])).
  - rewrite expand_wrap. cbn [group caps lookup Nat.eqb st groups].
    rewrite <- !app_assoc. reflexivity.
  - intros p1 x p2 Hl. apply match_anki_inline_miss.
    exact (dollar_free_split _ _ _ _ Ha Hl).
  - rewrite <- !app_assoc. apply match_anki_inline_here; assumption.
  - cbn [consumed st]. rewrite !length_app. cbn. lia.
  - reflexivity.
  - intros ma b'. apply search_none_dollar_free;
      [apply inline_starts_with_dollar|exact Hb].
Qed.

Lemma convert_inline_span_broken a c b :
  dollar_free a -> dollar_free c -> dollar_free b -> In LF c ->
  convert_latex_delimiters (a ++ "$" ++ c ++ "$" ++ b)
  = a ++ "$" ++ c ++ "$" ++ b.
Proof.
  intros Ha Hc Hb HLF. unfold convert_latex_delimiters.
  rewrite (sub_none re_DOTALL PATTERN_ANKI_DISPLAY).
  2:{ apply (search_none_few_dollars re_DOTALL _ 4);
        [apply anki_display_four_dollars|].
      rewrite one_span_dollars by assumption. lia. }
  apply sub_none. apply search_from_none. intros pre p t Ht Hm.
  apply anki_inline_shape in Hm as (pd & -> & Hpd).
  assert (Hcount : dollars (a ++ "$" ++ c ++ "$" ++ b)
                   = dollars (pre ++ ("$" ++ pd ++ "$") ++ t))
    by (rewrite Ht; reflexivity).
  rewrite one_span_dollars in Hcount by assumption.
  rewrite !dollars_app in Hcount. cbn in Hcount.
  assert (Hpre : dollar_free pre) by (apply dollar_free_dollars; lia).
  assert (Hfpd : dollar_free pd) by (apply dollar_free_dollars; lia).
  assert (Ht1 : a ++ "$"%char :: (c ++ "$"%char :: b)
                = pre ++ "$"%char :: (pd ++ "$"%char :: t)).
  { rewrite <- !app_assoc in Ht. exact Ht. }
  apply first_dollar_unique in Ht1 as [_ Ht2]; trivial.
  apply first_dollar_unique in Ht2 as [Heq _]; trivial.
  subst pd. rewrite Forall_forall in Hpd. specialize (Hpd _ HLF).
  discriminate Hpd.
Qed.

(** X4: the transcoder puts an inline span on one line into the
    parenthesis delimiters with a blank on either side; an inline span that
    runs over a line feed is left as it is. *)
Theorem convert_inline_span_on_one_line :
  forall a c b,
    dollar_free a -> dollar_free c -> dollar_free b ->
    (~ In LF c ->
     convert_latex_delimiters (a ++ "$" ++ c ++ "$" ++ b)
     = a ++ "\( " ++ c ++ " \)" ++ b)
    /\ (In LF c ->
        convert_latex_delimiters (a ++ "$" ++ c ++ "$" ++ b)
        = a ++ "$" ++ c ++ "$" ++ b).
Proof.
  intros a c b Ha Hc Hb. split; intros HLF.
  - apply convert_inline_span; assumption.
  - apply convert_inline_span_broken; assumption.
Qed.

Lemma not_In_by_eqb (x : ascii) (s : str) :
  forallb (fun y => negb (Ascii.eqb y x)) s = true -> ~ In x s.
Proof.
  intros H Hin. rewrite forallb_forall in H. specialize (H _ Hin).
  rewrite Ascii.eqb_refl in H. discriminate H.
Qed.

Lemma convert_inline_span_on_one_line_witness :
  (dollar_free "see " /\ dollar_free ("x" ++ [LF] ++ "y") /\ dollar_free "."
   /\ In LF ("x" ++ [LF] ++ "y"))
  /\ convert_latex_delimiters ("see " ++ "$" ++ ("x" ++ [LF] ++ "y") ++ "$" ++ ".")
     = "see " ++ "$" ++ ("x" ++ [LF] ++ "y") ++ "$" ++ ".".
Proof.
  assert (H1 : dollar_free "see ") by (apply not_In_by_eqb; reflexivity).
  assert (H2 : dollar_free ("x" ++ [LF] ++ "y"))
    by (apply not_In_by_eqb; reflexivity).
  assert (H3 : dollar_free ".") by (apply not_In_by_eqb; reflexivity).
  assert (H4 : In LF ("x" ++ [LF] ++ "y")) by (right; left; reflexivity).
  split; [auto|].
  exact (proj2 (convert_inline_span_on_one_line _ _ _ H1 H2 H3) H4).
Defined.

Lemma format_inline_span a c b :
  dollar_free a -> dollar_free c -> dollar_free b ->
  format_math_expressions (Some (a ++ "$" ++ c ++ "$" ++ b))
  = Some (strip (squeeze 0 (a ++ "$" ++ _process_math_content c ++ "$" ++ b))).
Proof.
  intros Ha Hc Hb. unfold format_math_expressions.
  rewrite (sub_none re_MULTILINE PATTERN_DOUBLE).
  2:{ apply search_double_none. rewrite one_span_dollars by assumption. lia. }
  replace (a ++ "$" ++ c ++ "$" ++ b) with (a ++ ("$" ++ c ++ "$") ++ b)
    by (rewrite <- !app_assoc; reflexivity).
  rewrite (sub_one_match no_flags _ _ a ("$" ++ c ++ "$") b
             (st (Some "$"%char) b (length c + 2) [(1, c)])).
  - unfold format_inline_math. cbn [group caps lookup Nat.eqb st groups].
    match goal with |- Some (strip (sub _ _ _ _ ?u)) = _ =>
      fold (collapse_blank u) end.
    rewrite collapse_blank_squeeze, <- !app_assoc. reflexivity.
  - intros p1 x p2 Hl. apply match_single_miss.
    exact (dollar_free_split _ _ _ _ Ha Hl).
  - rewrite <- !app_assoc. apply match_single_here; assumption.
  - cbn [consumed st]. rewrite !length_app. cbn. lia.
  - reflexivity.
  - intros ma b'. apply (search_none_few_dollars no_flags _ 2);
      [apply single_two_dollars|]. apply dollar_free_dollars in Hb. lia.
Qed.

(** X5: in a text with one inline span the reformatter trims the content
    of the span (moving a tag directive, if there is one, behind it) and
    leaves the text around it to the blank-line collapse and the final
    trim. *)
Theorem format_trims_inline_span :
  forall a c b,
    dollar_free a -> dollar_free c -> dollar_free b ->
    format_math_expressions (Some (a ++ "$" ++ c ++ "$" ++ b))
    = Some (strip (squeeze 0
                     (a ++ "$" ++ _process_math_content c ++ "$" ++ b)))
    /\ (~ In "\"%char c -> _process_math_content c = strip c).
Proof.
  intros a c b Ha Hc Hb. split.
  - apply format_inline_span; assumption.
  - apply process_plain.
Qed.

Lemma format_trims_inline_span_witness :
  (dollar_free "Let " /\ dollar_free " x " /\ dollar_free " be given.")
  /\ format_math_expressions (Some ("Let " ++ "$" ++ " x " ++ "$" ++ " be given."))
     = Some (strip (squeeze 0
                      ("Let " ++ "$" ++ _process_math_content " x " ++ "$"
                       ++ " be given."))).
Proof.
  assert (H1 : dollar_free "Let ") by (apply not_In_by_eqb; reflexivity).
  assert (H2 : dollar_free " x ") by (apply not_In_by_eqb; reflexivity).
  assert (H3 : dollar_free " be given.") by (apply not_In_by_eqb; reflexivity).
  split; [auto|].
  exact (proj1 (format_trims_inline_span _ _ _ H1 H2 H3)).
Defined.

(** X6: wherever the display pattern has a match, the inline pattern has
    one too, so the second test of the clipboard loop never decides. *)
Theorem display_match_implies_inline_match :
  forall t,
    search re_MULTILINE PATTERN_DOUBLE t <> None ->
    search no_flags PATTERN_SINGLE t <> None.
Proof.
  intros t Hd Hs. apply Hd. unfold search.
  apply search_None, search_single_none in Hs.
  rewrite search_double_none by lia. reflexivity.
Qed.

Lemma display_match_implies_inline_match_witness :
  search re_MULTILINE PATTERN_DOUBLE "a $$x$$ b" <> None
  /\ search no_flags PATTERN_SINGLE "a $$x$$ b" <> None.
Proof.
  assert (H : search re_MULTILINE PATTERN_DOUBLE "a $$x$$ b" <> None)
    by (vm_compute; discriminate).
  split; [exact H|]. exact (display_match_implies_inline_match _ H).
Defined.
(** * A display span with text around it *)

(** A match of the tag pattern is a directive, and its group the label. *)
Lemma match_tag_shape ma b text s :
  match_here no_flags PATTERN_TAG ma b text = Some s ->
  exists label,
    text = "\tag{" ++ label ++ "}" ++ rest s /\ groups s = [(1, label)].
Proof.
  unfold match_here, PATTERN_TAG, LazyStar. cbn [seq run]. intros H.
  apply run_Lit_hit_inv in H as Ht. destruct Ht as (t1 & Ht1).
  cbn [rest] in Ht1. subst text.
  change {| before := b; rest := "\tag{" ++ t1; consumed := 0; groups := [] |}
    with (st b ("\tag{" ++ t1) 0 []) in H.
  rewrite run_Lit_app in H.
  cbn [last_of list_ascii_of_string length Nat.add st before rest consumed
         groups] in H.
  apply rep_sound in H as (p & t & -> & _ & _ & H).
  unfold capture in H. cbn [st before rest consumed groups] in H.
  apply run_Lit_hit_inv in H as Ht. destruct Ht as (t2 & Ht2).
  cbn [rest] in Ht2. subst t.
  match type of H with run _ _ _ ?s0 = _ =>
    change s0 with (st (last_of (Some "{"%char) p) ("}" ++ t2) (5 + length p)
                      [(1, firstn (5 + length p - 5) (p ++ "}" ++ t2))]) in H
  end.
  rewrite run_Lit_app in H.
  destruct (ma && _) in H; [discriminate|]. inversion H; subst s.
  cbn [st rest groups]. exists p. split; [reflexivity|].
  do 2 f_equal. apply firstn_exact. lia.
Qed.

Lemma search_tag_shape text : forall ma b f,
  search_from no_flags PATTERN_TAG ma b text = Some f ->
  exists label,
    text = skipped f ++ "\tag{" ++ label ++ "}" ++ after f
    /\ group (hit f) 1 = label.
Proof.
  induction text as [|c text IH]; intros ma b f H; cbn [search_from] in H.
  - destruct (match_here no_flags PATTERN_TAG ma b []) as [s|] eqn:E;
      [|discriminate].
    apply match_tag_shape in E as (label & Ht & Hg). inversion H; subst f.
    cbn [skipped hit after group caps app]. rewrite Hg. exists label.
    split; [exact Ht|reflexivity].
  - destruct (match_here no_flags PATTERN_TAG ma b (c :: text)) as [s|] eqn:E.
    + apply match_tag_shape in E as (label & Ht & Hg). inversion H; subst f.
      cbn [skipped hit after group caps app]. rewrite Hg. exists label.
      split; [exact Ht|reflexivity].
    + destruct (search_from no_flags PATTERN_TAG false (Some c) text)
        as [f'|] eqn:E'; [|discriminate].
      inversion H; subst f. cbn [skip_one skipped hit after app].
      destruct (IH _ _ _ E') as (label & Ht & Hg). exists label.
      split; [f_equal; exact Ht|exact Hg].
Qed.

(** Whatever is in the processed content was in the content, but for the
    letters of the suffix. *)
Lemma process_keeps_out (x : ascii) content :
  ~ In x (list_ascii_of_string " \quad \textbf{()}") ->
  ~ In x content -> ~ In x (_process_math_content content).
Proof.
  intros Hsuffix Hx.
  destruct (search_from no_flags PATTERN_TAG false None content) as [f|] eqn:E.
  - rewrite (process_found content f E).
    destruct (search_tag_shape _ _ _ _ E) as (label & Ht & ->).
    intros Hin. apply in_app_or in Hin as [Hin|Hin].
    + apply strip_In in Hin. apply Hx. rewrite Ht.
      apply in_app_or in Hin as [Hin|Hin]; apply in_or_app; [left; exact Hin|].
      right. apply in_or_app. right. apply in_or_app. right.
      apply in_or_app. right. exact Hin.
    + apply in_app_or in Hin as [Hin|Hin].
      * apply Hsuffix. cbn in Hin |- *. tauto.
      * apply in_app_or in Hin as [Hin|Hin].
        -- apply Hx. rewrite Ht. apply in_or_app. right. apply in_or_app. right.
           apply in_or_app. left. exact Hin.
        -- apply Hsuffix. cbn in Hin |- *. tauto.
  - unfold _process_math_content, search. rewrite E. cbn [option_map].
    rewrite app_nil_r. intros Hin. exact (Hx (strip_In _ _ Hin)).
Qed.

Lemma Forall_space_multiline w :
  forallb is_space w = true ->
  Forall (fun x => accepts re_MULTILINE CSpace x = true) w.
Proof.
  intros H. apply Forall_forall. intros x Hx.
  rewrite forallb_forall in H. exact (H x Hx).
Qed.

Lemma Forall_dot_multiline p :
  ~ In LF p -> Forall (fun x => accepts re_MULTILINE CDot x = true) p.
Proof.
  intros H. apply Forall_forall. intros x Hx. apply accepts_dot_multiline.
  intros ->. exact (H Hx).
Qed.

(** The display pattern on a text that is one line with one display span:
    the four groups are the indentation, the text before the span, the
    span and the text behind it. *)
Lemma match_double_line indent pre c post :
  forallb is_space indent = true ->
  match pre with x :: _ => is_space x = false | [] => True end ->
  dollar_free pre -> ~ In LF pre ->
  dollar_free c -> ~ In LF c ->
  ~ In LF post ->
  match_here re_MULTILINE PATTERN_DOUBLE false None
    (indent ++ pre ++ "$$" ++ c ++ "$$" ++ post)
  = Some (st (last_of (Some "$"%char) post) []
            (length (indent ++ pre ++ "$$" ++ c ++ "$$" ++ post))
            [(4, post); (3, "$$" ++ c ++ "$$"); (2, pre); (1, indent)]).
Proof.
  intros Hind Hhead Hpre HpreLF Hc HcLF HpostLF.
  rewrite <- (app_nil_r post) at 1.
  unfold match_here, PATTERN_DOUBLE, Star, LazyStar. cbn [seq run at_bol before].
  unfold capture, st. cbn [run before rest consumed groups Nat.sub].
  apply rep_greedy_max; [apply Forall_space_multiline, Hind| |lia|].
  { destruct pre as [|x pre]; [reflexivity|exact Hhead]. }
  cbn [st before rest consumed groups Nat.add].
  apply rep_lazy_hit; [apply Forall_dot_multiline, HpreLF| |].
  { intros p1 x p2 Hl. cbn [st before rest consumed groups].
    match goal with |- run _ _ _ ?s0 = None =>
      change s0 with (st (before s0) (rest s0) (consumed s0) (groups s0)) end.
    apply (run_Lit_miss re_MULTILINE "$$").
    cbn [rest st startswith list_ascii_of_string].
    rewrite (dollar_free_split _ _ _ _ Hpre Hl). reflexivity. }
  cbn [st before rest consumed groups].
  match goal with |- run _ _ _ ?s0 = _ =>
    change s0 with (st (before s0) ("$$" ++ rest (st None (c ++ "$$" ++ post ++ []) 0 []))
                      (consumed s0) (groups s0)) end.
  rewrite run_Lit_app. cbn [st before rest consumed groups].
  apply rep_lazy_hit; [apply Forall_dot_multiline, HcLF| |].
  { intros p1 x p2 Hl. cbn [st before rest consumed groups].
    apply (run_Lit_miss re_MULTILINE "$$").
    cbn [startswith list_ascii_of_string].
    rewrite (dollar_free_split _ _ _ _ Hc Hl). reflexivity. }
  rewrite (run_Lit_app re_MULTILINE "$$").
  cbn [st before rest consumed groups].
  apply rep_greedy_max; [apply Forall_dot_multiline, HpostLF|exact I|lia|].
  cbn [st before rest consumed groups at_eol andb].
  f_equal. f_equal.
  - rewrite !length_app. lia.
  - f_equal; [|f_equal; [|f_equal; [|f_equal]]]; f_equal.
    + apply firstn_exact. lia.
    + replace ("$$" ++ c ++ "$$" ++ post ++ [])
        with (("$$" ++ c ++ "$$") ++ post ++ [])
        by (rewrite <- !app_assoc; reflexivity).
      apply firstn_exact. rewrite !length_app. lia.
    + apply firstn_exact. lia.
    + apply firstn_exact. lia.
Qed.

Lemma block_of_groups m indent pre c post :
  dollar_free c ->
  format_display_math_block
    {| matched := m;
       caps := [(4, post); (3, "$$" ++ c ++ "$$"); (2, pre); (1, indent)] |}
  = join [LF] (display_lines indent (strip pre)
                 (_process_math_content (strip c)) (strip post)).
Proof.
  intros Hc. unfold format_display_math_block, display_lines.
  cbn [group caps lookup Nat.eqb]. unfold search.
  rewrite (search_from_here _ _ _ _ _ _ (match_content_end None c Hc)).
  cbn [option_map hit group caps lookup Nat.eqb st groups].
  destruct (strip pre), (strip post); reflexivity.
Qed.

(** The display scan on such a line. *)
Lemma sub_double_line indent pre c post :
  forallb is_space indent = true ->
  match pre with x :: _ => is_space x = false | [] => True end ->
  dollar_free pre -> ~ In LF pre ->
  dollar_free c -> ~ In LF c ->
  ~ In LF post ->
  sub re_MULTILINE PATTERN_DOUBLE format_display_math_block 0
    (indent ++ pre ++ "$$" ++ c ++ "$$" ++ post)
  = join [LF] (display_lines indent (strip pre)
                 (_process_math_content (strip c)) (strip post)).
Proof.
  intros Hind Hhead Hpre HpreLF Hc HcLF HpostLF. unfold sub.
  rewrite Nat.add_comm. cbn [Nat.add].
  rewrite (sub_loop_hit re_MULTILINE _ _ _ 0 0 false None _ _ eq_refl
             (match_double_line indent pre c post Hind Hhead Hpre HpreLF
                Hc HcLF HpostLF)).
  cbn [st before rest consumed groups].
  rewrite sub_loop_none by (apply search_double_none; cbn; lia).
  rewrite app_nil_r. apply block_of_groups, Hc.
Qed.

(** The inline scan on two pairs of dollar signs in plain text. *)
Lemma sub_single_two_pairs A M B :
  dollar_free A -> dollar_free M -> dollar_free B ->
  sub no_flags PATTERN_SINGLE format_inline_math 0
    (A ++ "$$" ++ M ++ "$$" ++ B)
  = A ++ "$$" ++ M ++ "$$" ++ B.
Proof.
  intros HA HM HB. unfold sub.
  replace (2 * length (A ++ "$$" ++ M ++ "$$" ++ B) + 2)
    with (S (S (2 * length (A ++ "$$" ++ M ++ "$$" ++ B)))) by lia.
  change (A ++ "$$" ++ M ++ "$$" ++ B)
    with (A ++ "$" ++ [] ++ "$" ++ M ++ "$" ++ [] ++ "$" ++ B) at 2.
  rewrite sub_loop_skip_many.
  2:{ intros p1 x p2 Hl. apply match_single_miss.
      exact (dollar_free_split _ _ _ _ HA Hl). }
  rewrite (sub_loop_hit no_flags _ _ _ 0 0 false _ _ _ eq_refl
             (match_single_here _ [] _ (fun H => H))).
  cbn [st before rest consumed groups].
  rewrite sub_loop_skip_many.
  2:{ intros p1 x p2 Hl. apply match_single_miss.
      exact (dollar_free_split _ _ _ _ HM Hl). }
  rewrite (sub_loop_hit no_flags _ _ _ 0 1 false _ _ _ eq_refl
             (match_single_here _ [] B (fun H => H))).
  cbn [st before rest consumed groups].
  rewrite sub_loop_none.
  - reflexivity.
  - apply (search_none_few_dollars no_flags _ 2); [apply single_two_dollars|].
    apply dollar_free_dollars in HB. lia.
Qed.

Lemma dollar_free_LF : dollar_free [LF].
Proof. intros [H|[]]. discriminate H. Qed.

(** The lines of a display span hold two pairs of dollar signs and no
    other dollar sign. *)
Lemma display_lines_pairs indent p P q :
  dollar_free indent -> dollar_free p -> dollar_free P -> dollar_free q ->
  exists A M B,
    join [LF] (display_lines indent p P q) = A ++ "$$" ++ M ++ "$$" ++ B
    /\ dollar_free A /\ dollar_free M /\ dollar_free B.
Proof.
  intros Hi Hp HP Hq. pose proof dollar_free_LF as HLF.
  exists (match p with [] => [] | _ => indent ++ p ++ [LF] end ++ indent),
         ([LF] ++ indent ++ P ++ [LF] ++ indent),
         (match q with [] => [] | _ => [LF] ++ indent ++ q end).
  split; [|split; [|split]].
  - unfold display_lines. destruct p, q; cbn [app join];
      rewrite <- ?app_assoc; cbn [app]; rewrite <- ?app_assoc; reflexivity.
  - destruct p; rewrite ?dollar_free_app; auto.
  - rewrite !dollar_free_app. auto.
  - destruct q; rewrite ?dollar_free_app; auto.
Qed.

Lemma format_display_line indent pre c post :
  forallb is_space indent = true ->
  match pre with x :: _ => is_space x = false | [] => True end ->
  dollar_free pre -> ~ In LF pre ->
  dollar_free c -> ~ In LF c ->
  dollar_free post -> ~ In LF post ->
  format_math_expressions (Some (indent ++ pre ++ "$$" ++ c ++ "$$" ++ post))
  = Some (strip (squeeze 0
            (join [LF] (display_lines indent (strip pre)
                          (_process_math_content (strip c)) (strip post))))).
Proof.
  intros Hind Hhead Hpre HpreLF Hc HcLF Hpost HpostLF.
  unfold format_math_expressions.
  rewrite (sub_double_line indent pre c post) by assumption.
  destruct (display_lines_pairs indent (strip pre)
              (_process_math_content (strip c)) (strip post))
    as (A & M & B & HR & HA & HM & HB).
  - apply blank_dollar_free, Hind.
  - intros H. exact (Hpre (strip_In _ _ H)).
  - apply process_keeps_out; [apply not_In_by_eqb; reflexivity|].
    intros H. exact (Hc (strip_In _ _ H)).
  - intros H. exact (Hpost (strip_In _ _ H)).
  - rewrite HR, (sub_single_two_pairs A M B HA HM HB).
    fold (collapse_blank (A ++ "$$" ++ M ++ "$$" ++ B)).
    rewrite collapse_blank_squeeze. reflexivity.
Qed.

(** Lines without line feeds, no two of them empty in a row, make a text
    without a run of three line feeds. *)
Lemma runs_below3_join lines : forall run,
  Forall (fun l => ~ In LF l) lines -> no_two_empty lines = true ->
  run <= 1 \/ match lines with (_ :: _) :: _ => True | _ => False end ->
  runs_below3 run (join [LF] lines) = true.
Proof.
  induction lines as [|l lines IH]; intros run HLF Hne Hrun; [reflexivity|].
  inversion HLF as [|? ? Hl HLF']; subst.
  destruct lines as [|l2 lines].
  - cbn [join]. rewrite <- (app_nil_r l), runs_below3_plain by exact Hl.
    destruct l; reflexivity.
  - change (join [LF] (l :: l2 :: lines))
      with (l ++ [LF] ++ join [LF] (l2 :: lines)).
    rewrite runs_below3_plain by exact Hl.
    destruct l as [|x l].
    + cbn [app runs_below3]. rewrite Ascii.eqb_refl.
      destruct Hrun as [Hrun|[]].
      destruct l2 as [|y l2]; [discriminate Hne|].
      destruct (Nat.ltb_spec run 2); [|lia]. cbn [andb].
      apply IH; auto.
    + cbn [app runs_below3]. rewrite Ascii.eqb_refl.
      change (0 <? 2) with true. cbn [andb].
      apply IH; auto.
Qed.

Lemma display_lines_no_blank_run indent p P q :
  ~ In LF indent -> ~ In LF p -> ~ In LF P -> ~ In LF q ->
  ~ has_blank_run (join [LF] (display_lines indent p P q)).
Proof.
  intros Hi Hp HP Hq (a & b & H).
  apply (runs_below3_sound a 0 b). rewrite <- H.
  assert (Happ : forall x y, ~ In LF x -> ~ In LF y -> ~ In LF (x ++ y)).
  { intros x y Hx Hy Hin. apply in_app_or in Hin. tauto. }
  assert (Hd : ~ In LF (list_ascii_of_string "$$"))
    by (apply not_In_by_eqb; reflexivity).
  apply runs_below3_join; [| |left; lia].
  - unfold display_lines. destruct p, q; repeat constructor; auto.
  - unfold display_lines.
    destruct p, q, indent, P; reflexivity.
Qed.

(** X7: a line that is an indentation, text, one display span and more
    text is put on up to five lines, each with the indentation: the text
    before the span, the opening dollar signs, the processed content, the
    closing dollar signs and the text behind the span; the blank-line
    collapse and the final trim follow, and the collapse finds nothing to
    do when the indentation holds no line feed. *)
Theorem format_display_span_with_text :
  forall indent pre c post,
    forallb is_space indent = true ->
    match pre with x :: _ => is_space x = false | [] => True end ->
    dollar_free pre -> ~ In LF pre ->
    dollar_free c -> ~ In LF c ->
    dollar_free post -> ~ In LF post ->
    format_math_expressions (Some (indent ++ pre ++ "$$" ++ c ++ "$$" ++ post))
    = Some (strip (squeeze 0
              (join [LF] (display_lines indent (strip pre)
                            (_process_math_content (strip c)) (strip post)))))
    /\ (~ In LF indent ->
        format_math_expressions
          (Some (indent ++ pre ++ "$$" ++ c ++ "$$" ++ post))
        = Some (strip
                  (join [LF] (display_lines indent (strip pre)
                                (_process_math_content (strip c))
                                (strip post))))).
Proof.
  intros indent pre c post Hind Hhead Hpre HpreLF Hc HcLF Hpost HpostLF.
  pose proof (format_display_line indent pre c post Hind Hhead Hpre HpreLF
                Hc HcLF Hpost HpostLF) as H.
  split; [exact H|]. intros HindLF. rewrite H.
  rewrite squeeze_fixed; [reflexivity|lia|]. cbn [repeat app].
  apply display_lines_no_blank_run; trivial.
  - intros Hin. exact (HpreLF (strip_In _ _ Hin)).
  - apply process_keeps_out; [apply not_In_by_eqb; reflexivity|].
    intros Hin. exact (HcLF (strip_In _ _ Hin)).
  - intros Hin. exact (HpostLF (strip_In _ _ Hin)).
Qed.

Lemma format_display_span_with_text_witness :
  (forallb is_space "  " = true
   /\ match list_ascii_of_string "so " with
      | x :: _ => is_space x = false | [] => True end
   /\ dollar_free "so " /\ ~ In LF (list_ascii_of_string "so ")
   /\ dollar_free " x = 1 " /\ ~ In LF (list_ascii_of_string " x = 1 ")
   /\ dollar_free " holds." /\ ~ In LF (list_ascii_of_string " holds.")
   /\ ~ In LF (list_ascii_of_string "  "))
  /\ format_math_expressions
       (Some ("  " ++ "so " ++ "$$" ++ " x = 1 " ++ "$$" ++ " holds."))
     = Some (strip
               (join [LF] (display_lines "  " (strip "so ")
                             (_process_math_content (strip " x = 1 "))
                             (strip " holds.")))).
Proof.
  assert (H0 : forallb is_space "  " = true) by reflexivity.
  assert (H1 : match list_ascii_of_string "so " with
               | x :: _ => is_space x = false | [] => True end) by reflexivity.
  assert (H2 : dollar_free "so ") by (apply not_In_by_eqb; reflexivity).
  assert (H3 : ~ In LF (list_ascii_of_string "so "))
    by (apply not_In_by_eqb; reflexivity).
  assert (H4 : dollar_free " x = 1 ") by (apply not_In_by_eqb; reflexivity).
  assert (H5 : ~ In LF (list_ascii_of_string " x = 1 "))
    by (apply not_In_by_eqb; reflexivity).
  assert (H6 : dollar_free " holds.") by (apply not_In_by_eqb; reflexivity).
  assert (H7 : ~ In LF (list_ascii_of_string " holds."))
    by (apply not_In_by_eqb; reflexivity).
  assert (H8 : ~ In LF (list_ascii_of_string "  "))
    by (apply not_In_by_eqb; reflexivity).
  split; [repeat split; assumption|].
  exact (proj2 (format_display_span_with_text "  " "so " " x = 1 " " holds."
                  H0 H1 H2 H3 H4 H5 H6 H7) H8).
Defined.

(** * The blank-line collapse, texts without math, and the tag directive *)

(** ** Trimming a text with whitespace around it *)

Lemma lstrip_pad w s : forallb is_space w = true -> lstrip (w ++ s) = lstrip s.
Proof.
  induction w as [|c w IH]; intros H; [reflexivity|].
  cbn [forallb] in H. apply andb_true_iff in H as [Hc Hw].
  cbn [app lstrip]. rewrite Hc. apply IH, Hw.
Qed.

Lemma lstrip_app s z : lstrip s <> [] -> lstrip (s ++ z) = lstrip s ++ z.
Proof.
  induction s as [|c s IH]; cbn [app lstrip]; [congruence|].
  destruct (is_space c); [exact IH|reflexivity].
Qed.

Lemma forallb_rev {A} (f : A -> bool) l :
  forallb f l = true -> forallb f (rev l) = true.
Proof.
  rewrite !forallb_forall. intros H x Hx. apply H, in_rev, Hx.
Qed.

Lemma rstrip_pad s w : forallb is_space w = true -> rstrip (s ++ w) = rstrip s.
Proof.
  intros H. unfold rstrip. rewrite rev_app_distr, lstrip_pad; [reflexivity|].
  apply forallb_rev, H.
Qed.

Lemma strip_pad w m w' :
  forallb is_space w = true -> forallb is_space w' = true ->
  strip (w ++ m ++ w') = strip m.
Proof.
  intros Hw Hw'. unfold strip. rewrite lstrip_pad by exact Hw.
  destruct (lstrip m) as [|c r] eqn:E.
  - destruct (lstrip_suffix m) as (p & Hp & Hps). rewrite E, app_nil_r in Hp.
    subst p. rewrite lstrip_blank; [reflexivity|].
    rewrite forallb_app, Hps, Hw'. reflexivity.
  - rewrite lstrip_app by (rewrite E; discriminate). rewrite E.
    apply rstrip_pad, Hw'.
Qed.

(** A text with something other than whitespace at both ends of its middle
    part is trimmed to that part. *)
Lemma strip_middle x m y :
  lstrip x <> [] -> rstrip y <> [] ->
  strip (x ++ m ++ y) = lstrip x ++ m ++ rstrip y.
Proof.
  intros Hx Hy.
  destruct (lstrip_suffix x) as (w & Hw & Hws).
  destruct (rstrip_prefix y) as (w' & Hw' & Hws').
  rewrite Hw at 1. rewrite Hw' at 1.
  replace ((w ++ lstrip x) ++ m ++ rstrip y ++ w')
    with (w ++ (lstrip x ++ m ++ rstrip y) ++ w')
    by (rewrite <- !app_assoc; reflexivity).
  rewrite strip_pad by assumption. apply strip_fixed.
  - pose proof (lstrip_head x) as Hh.
    destruct (lstrip x) as [|c r]; [congruence|exact Hh].
  - intros p c Hp.
    destruct (rstrip y) as [|d r] eqn:E using rev_ind; [congruence|].
    rewrite !app_assoc in Hp. apply app_inj_tail in Hp as [_ <-].
    exact (rstrip_last y r d E).
Qed.

Lemma nonblank_lstrip s : nonblank s = true -> lstrip s <> [].
Proof.
  unfold nonblank, strip. intros H E. rewrite E in H. discriminate H.
Qed.

Lemma nonblank_rstrip s : nonblank s = true -> rstrip s <> [].
Proof.
  unfold nonblank. intros H E.
  destruct (strip_split s) as (w & w' & Hs & Hw & Hw' & _).
  destruct (rstrip_prefix s) as (q & Hq & Hqs). rewrite E in Hq. cbn in Hq.
  subst q. rewrite strip_blank in H by exact Hqs. discriminate H.
Qed.

Lemma nonblank_char s :
  nonblank s = true <-> exists c, In c s /\ is_space c = false.
Proof.
  unfold nonblank. split.
  - intros H. pose proof (strip_head s) as Hh.
    destruct (strip s) as [|c r] eqn:E; [discriminate H|].
    exists c. split; [|exact Hh]. apply strip_In. rewrite E. left. reflexivity.
  - intros (c & Hc & Hs). destruct (strip s) eqn:E; [|reflexivity].
    destruct (strip_split s) as (w & w' & Hsplit & Hw & Hw' & _).
    rewrite E in Hsplit. cbn [app] in Hsplit. rewrite Hsplit in Hc.
    apply in_app_or in Hc. rewrite forallb_forall in Hw, Hw'.
    destruct Hc as [Hc|Hc]; [apply Hw in Hc|apply Hw' in Hc]; congruence.
Qed.

Lemma squeeze_keeps c s : forall run,
  In c s -> c <> LF -> In c (squeeze run s).
Proof.
  induction s as [|d s IH]; intros run Hin Hc; [destruct Hin|].
  cbn [squeeze]. destruct (Ascii.eqb_spec d LF) as [->|Hd].
  - destruct Hin as [<-|Hin]; [congruence|].
    destruct (run <? 2); [right|]; apply IH; assumption.
  - destruct Hin as [<-|Hin]; [left; reflexivity|right; apply IH; assumption].
Qed.

Lemma nonblank_squeeze s : nonblank s = true -> nonblank (squeeze 0 s) = true.
Proof.
  rewrite !nonblank_char. intros (c & Hc & Hs). exists c. split; [|exact Hs].
  apply squeeze_keeps; [exact Hc|]. intros ->. discriminate Hs.
Qed.

(** ** Runs of line feeds *)

Lemma squeeze_run_between a b n :
  3 <= n -> no_LF_last a -> no_LF_first b ->
  squeeze 0 (a ++ repeat LF n ++ b) = squeeze 0 a ++ [LF; LF] ++ squeeze 0 b.
Proof.
  intros Hn Ha Hb. destruct a as [|c a].
  - cbn [app squeeze]. apply squeeze_run_head; assumption.
  - rewrite squeeze_app by (trivial; discriminate).
    f_equal. apply squeeze_run_head; assumption.
Qed.

Lemma format_collapses t :
  format_math_expressions (Some t)
  = Some (strip (squeeze 0
       (sub no_flags PATTERN_SINGLE format_inline_math 0
          (sub re_MULTILINE PATTERN_DOUBLE format_display_math_block 0 t)))).
Proof.
  unfold format_math_expressions.
  fold (collapse_blank
      (sub no_flags PATTERN_SINGLE format_inline_math 0
         (sub re_MULTILINE PATTERN_DOUBLE format_display_math_block 0 t))).
  rewrite collapse_blank_squeeze. reflexivity.
Qed.

Lemma strip_run_between a b n :
  3 <= n -> no_LF_last a -> no_LF_first b ->
  nonblank a = true -> nonblank b = true ->
  strip (squeeze 0 (a ++ repeat LF n ++ b))
  = lstrip (squeeze 0 a) ++ [LF; LF] ++ rstrip (squeeze 0 b).
Proof.
  intros Hn Ha Hb Na Nb. rewrite squeeze_run_between by assumption.
  apply strip_middle.
  - apply nonblank_lstrip, nonblank_squeeze, Na.
  - apply nonblank_rstrip, nonblank_squeeze, Nb.
Qed.

(** C8, as the code has it: the reformatter's result holds no run of three
    or more line feeds.  A run of three or more line feeds that stands,
    after the two math scans, between two texts with something other than
    whitespace in them comes out as exactly two line feeds; in a text with
    fewer than two dollar signs the scans change nothing, so this holds of
    the runs of the input. *)
Theorem format_collapses_blank_runs :
  (forall t, exists o,
      format_math_expressions (Some t) = Some o /\ ~ has_blank_run o)
  /\ (forall t a b n,
        3 <= n -> no_LF_last a -> no_LF_first b ->
        nonblank a = true -> nonblank b = true ->
        sub no_flags PATTERN_SINGLE format_inline_math 0
          (sub re_MULTILINE PATTERN_DOUBLE format_display_math_block 0 t)
        = a ++ repeat LF n ++ b ->
        format_math_expressions (Some t)
        = Some (lstrip (squeeze 0 a) ++ [LF; LF] ++ rstrip (squeeze 0 b)))
  /\ (forall a b n,
        3 <= n -> no_LF_last a -> no_LF_first b ->
        nonblank a = true -> nonblank b = true ->
        dollars (a ++ b) <= 1 ->
        format_math_expressions (Some (a ++ repeat LF n ++ b))
        = Some (lstrip (squeeze 0 a) ++ [LF; LF] ++ rstrip (squeeze 0 b))).
Proof.
  split; [|split].
  - intros t. eexists. split; [apply format_collapses|].
    apply strip_no_blank_run, squeeze_no_blank_run.
  - intros t a b n Hn Ha Hb Na Nb Hscan.
    rewrite format_collapses, Hscan, strip_run_between by assumption.
    reflexivity.
  - intros a b n Hn Ha Hb Na Nb Hd.
    assert (Hfew : dollars (a ++ repeat LF n ++ b) <= 1).
    { rewrite !dollars_app in *.
      assert (dollars (repeat LF n) = 0); [|lia].
      apply dollar_free_dollars. intros H. apply repeat_spec in H.
      discriminate H. }
    rewrite format_no_math.
    + rewrite strip_run_between by assumption. reflexivity.
    + unfold search. rewrite (proj2 (search_single_none _) Hfew). reflexivity.
    + unfold search. rewrite search_double_none by lia. reflexivity.
Qed.

Lemma format_collapses_blank_runs_witness :
  (3 <= 4 /\ no_LF_last "one" /\ no_LF_first "two"
   /\ nonblank "one" = true /\ nonblank "two" = true
   /\ dollars ("one" ++ "two") <= 1
   /\ format_math_expressions (Some ("one" ++ repeat LF 4 ++ "two"))
      = Some (lstrip (squeeze 0 "one") ++ [LF; LF] ++ rstrip (squeeze 0 "two")))
  /\ (3 <= 3 /\ no_LF_last "$x$" /\ no_LF_first "two"
      /\ nonblank "$x$" = true /\ nonblank "two" = true
      /\ sub no_flags PATTERN_SINGLE format_inline_math 0
           (sub re_MULTILINE PATTERN_DOUBLE format_display_math_block 0
              ("$ x $" ++ repeat LF 3 ++ "two"))
         = "$x$" ++ repeat LF 3 ++ "two"
      /\ format_math_expressions (Some ("$ x $" ++ repeat LF 3 ++ "two"))
         = Some (lstrip (squeeze 0 "$x$") ++ [LF; LF]
                 ++ rstrip (squeeze 0 "two"))).
Proof.
  assert (H1 : 3 <= 4) by lia.
  assert (H2 : no_LF_last "one").
  { intros p H. apply (f_equal (@rev ascii)) in H. rewrite rev_app_distr in H.
    discriminate H. }
  assert (H3 : no_LF_first "two") by (cbn; discriminate).
  assert (H4 : nonblank "one" = true) by reflexivity.
  assert (H5 : nonblank "two" = true) by reflexivity.
  assert (H6 : dollars ("one" ++ "two") <= 1) by (vm_compute; lia).
  assert (K1 : 3 <= 3) by lia.
  assert (K2 : no_LF_last "$x$").
  { intros p H. apply (f_equal (@rev ascii)) in H. rewrite rev_app_distr in H.
    discriminate H. }
  assert (K4 : nonblank "$x$" = true) by reflexivity.
  assert (K6 : sub no_flags PATTERN_SINGLE format_inline_math 0
                 (sub re_MULTILINE PATTERN_DOUBLE format_display_math_block 0
                    ("$ x $" ++ repeat LF 3 ++ "two"))
               = "$x$" ++ repeat LF 3 ++ "two") by (vm_compute; reflexivity).
  split.
  - refine (conj H1 (conj H2 (conj H3 (conj H4 (conj H5 (conj H6 _)))))).
    exact (proj2 (proj2 format_collapses_blank_runs) "one" "two" 4
             H1 H2 H3 H4 H5 H6).
  - refine (conj K1 (conj K2 (conj H3 (conj K4 (conj H5 (conj K6 _)))))).
    exact (proj1 (proj2 format_collapses_blank_runs)
             ("$ x $" ++ repeat LF 3 ++ "two") "$x$" "two" 3
             K1 K2 H3 K4 H5 K6).
Defined.

(** Counterexample to C8 as stated: every run of three or more line feeds
    of the input would come out as exactly two.  A run at the start of the
    text is removed by the final trim, and a run that is the content of an
    inline span is removed when the content is trimmed: no line feed is
    left. *)
Lemma format_drops_blank_run_at_edge :
  format_math_expressions (Some ([LF; LF; LF] ++ "a")) = Some (list_ascii_of_string "a")
  /\ ~ In LF (list_ascii_of_string "a")
  /\ format_math_expressions (Some ("x $" ++ [LF; LF; LF] ++ "$ y"))
     = Some (list_ascii_of_string "x $$ y")
  /\ ~ In LF (list_ascii_of_string "x $$ y").
Proof.
  split; [vm_compute; reflexivity|].
  split; [apply not_In_by_eqb; reflexivity|].
  split; [vm_compute; reflexivity|apply not_In_by_eqb; reflexivity].
Qed.

(** ** Texts without math *)

Lemma process_empty : _process_math_content [] = [].
Proof. reflexivity. Qed.

Lemma format_unterminated a x :
  dollar_free a -> dollar_free x ->
  format_math_expressions (Some (a ++ "$$" ++ x))
  = Some (strip (squeeze 0 (a ++ "$$" ++ x))).
Proof.
  intros Ha Hx.
  assert (He : dollar_free []) by (intros []).
  pose proof (format_inline_span a [] x Ha He Hx) as H.
  rewrite process_empty in H. exact H.
Qed.

(** C3, as the code has it: on a text without an inline or display match
    the reformatter still collapses the runs of line feeds and trims; it
    returns the text as it is when there is nothing to collapse or trim.
    An unterminated pair of dollar signs, wherever it stands in a text
    without further dollar signs, is left where it is, with the same
    collapsing and trimming around it. *)
Theorem format_without_math :
  (forall t,
      search no_flags PATTERN_SINGLE t = None ->
      search re_MULTILINE PATTERN_DOUBLE t = None ->
      format_math_expressions (Some t) = Some (strip (squeeze 0 t)))
  /\ (forall t,
        search no_flags PATTERN_SINGLE t = None ->
        search re_MULTILINE PATTERN_DOUBLE t = None ->
        ~ has_blank_run t -> strip t = t ->
        format_math_expressions (Some t) = Some t)
  /\ (forall a x,
        dollar_free a -> dollar_free x ->
        format_math_expressions (Some (a ++ "$$" ++ x))
        = Some (strip (squeeze 0 (a ++ "$$" ++ x)))
        /\ (~ has_blank_run (a ++ "$$" ++ x) ->
            strip (a ++ "$$" ++ x) = a ++ "$$" ++ x ->
            format_math_expressions (Some (a ++ "$$" ++ x))
            = Some (a ++ "$$" ++ x))).
Proof.
  split; [exact format_no_math|]. split.
  - intros t Hs Hd Hrun Htrim. rewrite format_no_math by assumption.
    rewrite squeeze_fixed by (trivial; lia). rewrite Htrim. reflexivity.
  - intros a x Ha Hx. split; [exact (format_unterminated a x Ha Hx)|].
    intros Hrun Htrim. rewrite format_unterminated by assumption.
    rewrite squeeze_fixed by (trivial; lia). rewrite Htrim. reflexivity.
Qed.

Lemma format_without_math_witness :
  (search no_flags PATTERN_SINGLE "a = b" = None
   /\ search re_MULTILINE PATTERN_DOUBLE "a = b" = None
   /\ ~ has_blank_run "a = b"
   /\ strip "a = b" = "a = b"
   /\ format_math_expressions (Some (list_ascii_of_string "a = b"))
      = Some (list_ascii_of_string "a = b"))
  /\ (dollar_free "see " /\ dollar_free " x = 1"
      /\ ~ has_blank_run ("see " ++ "$$" ++ " x = 1")
      /\ strip ("see " ++ "$$" ++ " x = 1") = "see " ++ "$$" ++ " x = 1"
      /\ format_math_expressions (Some ("see " ++ "$$" ++ " x = 1"))
         = Some ("see " ++ "$$" ++ " x = 1")).
Proof.
  assert (H1 : search no_flags PATTERN_SINGLE "a = b" = None) by reflexivity.
  assert (H2 : search re_MULTILINE PATTERN_DOUBLE "a = b" = None) by reflexivity.
  assert (H3 : ~ has_blank_run "a = b").
  { intros (a & b & H). apply (runs_below3_sound a 0 b). rewrite <- H. reflexivity. }
  assert (H4 : strip "a = b" = "a = b") by reflexivity.
  assert (K1 : dollar_free "see ") by (apply not_In_by_eqb; reflexivity).
  assert (K2 : dollar_free " x = 1") by (apply not_In_by_eqb; reflexivity).
  assert (K3 : ~ has_blank_run ("see " ++ "$$" ++ " x = 1")).
  { intros (a & b & H). apply (runs_below3_sound a 0 b). rewrite <- H. reflexivity. }
  assert (K4 : strip ("see " ++ "$$" ++ " x = 1") = "see " ++ "$$" ++ " x = 1")
    by reflexivity.
  split.
  - refine (conj H1 (conj H2 (conj H3 (conj H4 _)))).
    exact (proj1 (proj2 format_without_math) "a = b" H1 H2 H3 H4).
  - refine (conj K1 (conj K2 (conj K3 (conj K4 _)))).
    exact (proj2 (proj2 (proj2 format_without_math) "see " " x = 1" K1 K2)
             K3 K4).
Defined.

(** ** The tag directive *)







(** * Further properties of the record parser *)

Lemma block_account ib :
  length (contribution ib) + length (diagnostics ib)
  = if nonblank (snd ib) then 1 else 0.
Proof.
  unfold contribution, diagnostics, nonblank. rewrite parse_block_outcome.
  destruct ib as [i block]. unfold block_outcome. cbn [snd].
  destruct (strip block) as [|c0 b0]; [reflexivity|].
  destruct (find_index is_front _) as [f|]; [|reflexivity].
  destruct (find_index is_back _) as [d|]; [|reflexivity].
  destruct (extracted _) as [[|q0 q1] [|a0 a1]]; reflexivity.
Qed.

Lemma blocks_account l : forall k,
  length (flat_map contribution (combine (List.seq k (length l)) l))
  + length (flat_map diagnostics (combine (List.seq k (length l)) l))
  = length (filter nonblank l).
Proof.
  induction l as [|b l IH]; intros k; [reflexivity|].
  cbn [length List.seq combine flat_map filter]. rewrite !length_app.
  pose proof (block_account (k, b)) as Hb. cbn [snd] in Hb.
  specialize (IH (S k)). destruct (nonblank b); cbn [length]; lia.
Qed.

(** X8: every block that is not blank either gives a record or a printed
    line, never both and never neither. *)
Theorem parse_accounts_for_every_block :
  forall text,
    length (fst (parse_flashcards_from_text (Some text)))
    + length (snd (parse_flashcards_from_text (Some text)))
    = length (filter nonblank (split text "---")).
Proof.
  intros text. rewrite parse_unfold. cbn [fst snd]. apply blocks_account.
Qed.

Lemma extracted_trimmed lines :
  strip (fst (extracted lines)) = fst (extracted lines)
  /\ strip (snd (extracted lines)) = snd (extracted lines).
Proof.
  unfold extracted. destruct (find_index is_front lines) as [f|]; [|auto].
  destruct (find_index is_back _) as [d|]; [|auto].
  cbn [fst snd]. split; apply strip_idem.
Qed.

Lemma contribution_trimmed ib c :
  In c (contribution ib) ->
  strip (question c) = question c /\ strip (answer c) = answer c.
Proof.
  rewrite contribution_outcome. destruct ib as [i blk]. unfold block_outcome.
  destruct (strip blk) as [|c0 b0]; [intros []|].
  destruct (find_index is_front _) as [f|]; [|intros []].
  destruct (find_index is_back _) as [d|]; [|intros []].
  pose proof (extracted_trimmed (splitlines (c0 :: b0))) as Ht.
  destruct (extracted _) as [[|q0 q1] [|a0 a1]]; cbn [In]; intros H;
    try contradiction.
  destruct H as [<-|[]]. exact Ht.
Qed.

(** X9: the question and the answer of every record returned are trimmed:
    neither starts or ends with whitespace. *)
Theorem parse_fields_are_trimmed :
  forall text c,
    In c (fst (parse_flashcards_from_text (Some text))) ->
    strip (question c) = question c /\ strip (answer c) = answer c.
Proof.
  intros text c. rewrite parse_unfold. cbn [fst]. intros H.
  apply in_flat_map in H as (ib & _ & H). exact (contribution_trimmed _ _ H).
Qed.

Lemma parse_fields_are_trimmed_witness :
  In {| question := "Q1"; answer := "A1" |}
     (fst (parse_flashcards_from_text (Some two_cards_text)))
  /\ strip "Q1" = "Q1" /\ strip "A1" = "A1".
Proof.
  assert (H : In {| question := "Q1"; answer := "A1" |}
                (fst (parse_flashcards_from_text (Some two_cards_text))))
    by (left; reflexivity).
  split; [exact H|].
  exact (parse_fields_are_trimmed two_cards_text _ H).
Defined.

Lemma find_index_skip {A} (p : A -> bool) before : forall x rest,
  (forall y, In y before -> p y = false) -> p x = true ->
  find_index p (before ++ x :: rest) = Some (length before).
Proof.
  induction before as [|y before IH]; intros x rest Hno Hx; cbn.
  - rewrite Hx. reflexivity.
  - rewrite (Hno y (or_introl eq_refl)), IH; auto.
    intros z Hz. apply Hno. right. exact Hz.
Qed.

Lemma skipn_exact {A} (l x : list A) : skipn (length l) (l ++ x) = x.
Proof. rewrite skipn_app, Nat.sub_diag, skipn_all. reflexivity. Qed.

(** The question and the answer do not depend on what stands on the two
    marker lines. *)
Lemma extracted_shape before lf mid lb ans :
  (forall l, In l before -> is_front l = false) -> is_front lf = true ->
  (forall l, In l mid -> is_back l = false) -> is_back lb = true ->
  find_index is_front (before ++ lf :: mid ++ lb :: ans) = Some (length before)
  /\ find_index is_back (skipn (S (length before))
                           (before ++ lf :: mid ++ lb :: ans))
     = Some (length mid)
  /\ extracted (before ++ lf :: mid ++ lb :: ans)
     = (strip (join [LF] mid), strip (join [LF] ans)).
Proof.
  intros Hbefore Hlf Hmid Hlb.
  assert (Hf : find_index is_front (before ++ lf :: mid ++ lb :: ans)
               = Some (length before)) by (apply find_index_skip; assumption).
  assert (Hs : skipn (S (length before)) (before ++ lf :: mid ++ lb :: ans)
               = mid ++ lb :: ans).
  { change (S (length before)) with (1 + length before).
    rewrite <- skipn_skipn, skipn_exact. reflexivity. }
  assert (Hb : find_index is_back (mid ++ lb :: ans) = Some (length mid))
    by (apply find_index_skip; assumption).
  unfold extracted. rewrite Hf, Hs, Hb. repeat split.
  rewrite firstn_exact by reflexivity.
  change (S (length mid)) with (1 + length mid).
  rewrite <- skipn_skipn, skipn_exact. reflexivity.
Qed.

(** X10: what stands on the two marker lines behind the labels does not
    reach the record: a block in which the back marker line follows the
    front marker line directly gives no record, whatever the text on the
    two lines and behind them, and the line printed says that a field was
    empty. *)
Theorem parse_ignores_text_on_marker_lines :
  forall i block before lf lb ans,
    strip block <> [] ->
    splitlines (strip block) = before ++ lf :: lb :: ans ->
    (forall l, In l before -> is_front l = false) ->
    is_front lf = true -> is_back lb = true ->
    contribution (i, block) = []
    /\ diagnostics (i, block) = [msg_empty_field i].
Proof.
  intros i block before lf lb ans Hne Hlines Hbefore Hlf Hlb.
  destruct (extracted_shape before lf [] lb ans Hbefore Hlf
              (fun l (H : In l []) => match H with end) Hlb)
    as (Hf & Hb & He).
  cbn [app] in Hf, Hb, He.
  unfold contribution, diagnostics. rewrite parse_block_outcome.
  unfold block_outcome. destruct (strip block) as [|c0 b0]; [congruence|].
  rewrite Hlines, Hf, Hb, He. cbn [join strip lstrip rstrip rev].
  split; reflexivity.
Qed.

Lemma parse_ignores_text_on_marker_lines_witness :
  let block : str := "Front: What is 2+2?" ++ [LF] ++ "Back: 4" in
  (strip block <> []
   /\ splitlines (strip block)
      = [] ++ list_ascii_of_string "Front: What is 2+2?"
           :: list_ascii_of_string "Back: 4" :: []
   /\ (forall l, In l [] -> is_front l = false)
   /\ is_front "Front: What is 2+2?" = true /\ is_back "Back: 4" = true)
  /\ contribution (0, block) = []
  /\ diagnostics (0, block) = [msg_empty_field 0].
Proof.
  intros block.
  assert (H1 : strip block <> []) by (vm_compute; discriminate).
  assert (H2 : splitlines (strip block)
               = [] ++ list_ascii_of_string "Front: What is 2+2?"
                    :: list_ascii_of_string "Back: 4" :: []) by reflexivity.
  assert (H3 : forall l : str, In l [] -> is_front l = false) by (intros l []).
  assert (H4 : is_front "Front: What is 2+2?" = true) by reflexivity.
  assert (H5 : is_back "Back: 4" = true) by reflexivity.
  split; [auto|].
  exact (parse_ignores_text_on_marker_lines 0 block [] _ _ [] H1 H2 H3 H4 H5).
Defined.

Lemma startswith_app s x p :
  startswith s p = true -> startswith (s ++ x) p = true.
Proof.
  revert s. induction p as [|a p IH]; intros s H.
  - destruct (s ++ x); reflexivity.
  - destruct s as [|c s]; [discriminate H|]. cbn [app startswith] in *.
    apply andb_true_iff in H as [-> H]. cbn [andb]. apply IH, H.
Qed.

Lemma startswith_length s p : startswith s p = true -> length p <= length s.
Proof.
  revert s. induction p as [|a p IH]; intros s H; [cbn; lia|].
  destruct s as [|c s]; [discriminate H|]. cbn [startswith] in H.
  apply andb_true_iff in H as [_ H]. apply IH in H. cbn [length]. lia.
Qed.

(** An occurrence of the separator that starts in [t1] and does not end in
    it would make [t1] end with a dash. *)
Lemma startswith_straddle t1 x :
  t1 <> [] -> no_dash_last t1 ->
  startswith (t1 ++ x) "---" = startswith t1 "---".
Proof.
  intros Hne Hlast.
  destruct t1 as [|c1 [|c2 [|c3 t1]]]; [congruence| | |].
  3: { cbn [app startswith list_ascii_of_string].
       destruct (t1 ++ x), t1; reflexivity. }
  - cbn [app startswith list_ascii_of_string].
    destruct (Ascii.eqb_spec c1 "-") as [->|]; [|reflexivity].
    exfalso. apply (Hlast []). reflexivity.
  - cbn [app startswith list_ascii_of_string].
    destruct (Ascii.eqb_spec c1 "-") as [->|]; [|reflexivity].
    destruct (Ascii.eqb_spec c2 "-") as [->|]; [|reflexivity].
    exfalso. apply (Hlast ["-"%char]). reflexivity.
Qed.

Lemma no_dash_last_tail c t : t <> [] -> no_dash_last (c :: t) -> no_dash_last t.
Proof. intros _ H p ->. apply (H (c :: p)). reflexivity. Qed.

(** Splitting a text that goes on with a separator: the pieces of the
    first part, then the pieces of what follows the separator. *)
Lemma split_aux_app t2 t1 : forall skip cur,
  skip <= length t1 -> (t1 = [] \/ no_dash_last t1) ->
  split_aux "---" (t1 ++ "---" ++ t2) skip cur
  = split_aux "---" t1 skip cur ++ split_aux "---" t2 0 [].
Proof.
  induction t1 as [|c t1 IH]; intros skip cur Hskip Hlast.
  - cbn [length] in Hskip. assert (skip = 0) as -> by lia.
    destruct t2; reflexivity.
  - destruct Hlast as [Hnil|Hlast]; [discriminate|].
    assert (Hrec : t1 = [] \/ no_dash_last t1).
    { destruct t1 as [|d t1]; [left; reflexivity|right].
      apply (no_dash_last_tail c); [discriminate|exact Hlast]. }
    cbn [length] in Hskip. destruct skip as [|skip].
    + change ((c :: t1) ++ "---" ++ t2) with (c :: (t1 ++ "---" ++ t2)).
      cbn [split_aux].
      change (c :: (t1 ++ "---" ++ t2)) with ((c :: t1) ++ "---" ++ t2).
      rewrite (startswith_straddle (c :: t1)) by (trivial; discriminate).
      destruct (startswith (c :: t1) "---") eqn:E.
      * apply startswith_length in E. cbn [length list_ascii_of_string] in E.
        cbn [app]. f_equal. apply IH; [cbn; lia|exact Hrec].
      * apply IH; [lia|exact Hrec].
    + change ((c :: t1) ++ "---" ++ t2) with (c :: (t1 ++ "---" ++ t2)).
      cbn [split_aux]. apply IH; [lia|exact Hrec].
Qed.

Lemma split_app t1 t2 :
  t1 = [] \/ no_dash_last t1 ->
  split (t1 ++ "---" ++ t2) "---" = split t1 "---" ++ split t2 "---".
Proof. intros H. unfold split. apply split_aux_app; [lia|exact H]. Qed.

(** A record does not depend on the number of its block. *)
Lemma contribution_index i j block :
  contribution (i, block) = contribution (j, block).
Proof.
  rewrite !contribution_outcome. unfold block_outcome.
  destruct (strip block) as [|c0 b0]; [reflexivity|].
  destruct (find_index is_front _) as [f|]; [|reflexivity].
  destruct (find_index is_back _) as [d|]; [|reflexivity].
  destruct (extracted _) as [[|q0 q1] [|a0 a1]]; reflexivity.
Qed.

Lemma records_of_blocks l : forall k,
  flat_map contribution (combine (List.seq k (length l)) l)
  = flat_map (fun b => contribution (0, b)) l.
Proof.
  induction l as [|b l IH]; intros k; [reflexivity|].
  cbn [length List.seq combine flat_map].
  rewrite IH, (contribution_index k 0). reflexivity.
Qed.

Lemma parse_records text :
  fst (parse_flashcards_from_text (Some text))
  = flat_map (fun b => contribution (0, b)) (split text "---").
Proof. rewrite parse_unfold. cbn [fst]. apply records_of_blocks. Qed.

(** X11: parsing goes block by block: the records of a text, a separator
    and another text are the records of the first text followed by the
    records of the second, when the first text does not end with a dash. *)
Theorem parse_distributes_over_separator :
  forall t1 t2,
    t1 = [] \/ no_dash_last t1 ->
    fst (parse_flashcards_from_text (Some (t1 ++ "---" ++ t2)))
    = fst (parse_flashcards_from_text (Some t1))
      ++ fst (parse_flashcards_from_text (Some t2)).
Proof.
  intros t1 t2 H. rewrite !parse_records, split_app by exact H.
  apply flat_map_app.
Qed.

Lemma parse_distributes_over_separator_witness :
  (list_ascii_of_string "a" = [] \/ no_dash_last "a")
  /\ fst (parse_flashcards_from_text (Some ("a" ++ "---" ++ two_cards_text)))
     = fst (parse_flashcards_from_text (Some (list_ascii_of_string "a")))
       ++ fst (parse_flashcards_from_text (Some two_cards_text)).
Proof.
  assert (H : list_ascii_of_string "a" = [] \/ no_dash_last "a").
  { right. intros p Hp. destruct p as [|x [|y p]]; discriminate. }
  split; [exact H|].
  exact (parse_distributes_over_separator "a" two_cards_text H).
Defined.

(** * The clipboard loop *)

Import CaIO.

Lemma str_eq_spec a : forall b, str_eq a b = true <-> a = b.
Proof.
  induction a as [|c a IH]; intros [|d b]; cbn [str_eq];
    try (split; [discriminate|discriminate]); [split; reflexivity|].
  rewrite andb_true_iff, IH. split.
  - intros [Hc ->]. apply Ascii.eqb_eq in Hc. subst. reflexivity.
  - intros [= -> ->]. split; [apply Ascii.eqb_refl|reflexivity].
Qed.

Lemma copies_app l1 l2 : copies (l1 ++ l2) = copies l1 ++ copies l2.
Proof.
  induction l1 as [|e l1 IH]; [reflexivity|].
  destruct e; cbn [app copies]; rewrite IH; reflexivity.
Qed.

Lemma saves_app l1 l2 : saves (l1 ++ l2) = saves l1 + saves l2.
Proof.
  induction l1 as [|e l1 IH]; [reflexivity|].
  destruct e; cbn [app saves]; rewrite IH; reflexivity.
Qed.

Lemma untouched_refl s : untouched s s.
Proof. repeat split. Qed.

Lemma untouched_trans s1 s2 s3 :
  untouched s1 s2 -> untouched s2 s3 -> untouched s1 s3.
Proof.
  intros (A1 & B1 & C1) (A2 & B2 & C2).
  repeat split; congruence.
Qed.

Lemma settled_untouched s s' : untouched s s' -> settled s -> settled s'.
Proof.
  intros (A & B & _). unfold settled. rewrite A, B. trivial.
Qed.

Lemma guard_settled s :
  settled s ->
  negb (str_eq (clipboard s) (recent_value s)) && nonempty (clipboard s)
  && negb (isspace (clipboard s)) = false.
Proof.
  intros [H|[H|H]].
  - rewrite H. replace (str_eq _ _) with true; [reflexivity|].
    symmetry. apply str_eq_spec. reflexivity.
  - rewrite H. apply andb_false_iff. left. apply andb_false_r.
  - rewrite H. apply andb_false_r.
Qed.

Lemma formatter_body_settled fails s :
  settled s -> untouched s (snd (formatter_body fails s)).
Proof.
  intros H. unfold untouched, formatter_body, bind, paste.
  destruct (fails (calls s)); [repeat split|].
  cbn [recent_value count_call]. rewrite (guard_settled s H).
  cbn [ret sleep perform snd clipboard recent_value events count_call].
  repeat split. rewrite copies_app, app_nil_r. reflexivity.
Qed.

Lemma formatter_iteration_settled fails s :
  settled s -> untouched s (snd (formatter_iteration fails s)).
Proof.
  intros H. pose proof (formatter_body_settled fails s H) as U.
  unfold formatter_iteration.
  destruct (formatter_body fails s) as [[[]|[d|d]] s']; cbn [snd] in *;
    try exact U.
  destruct U as (A & B & C). repeat split; cbn [perform clipboard recent_value events];
    try assumption.
  rewrite copies_app, app_nil_r. exact C.
Qed.

Lemma formatter_while_settled fails n : forall s,
  settled s -> untouched s (formatter_while fails n s).
Proof.
  induction n as [|n IH]; intros s H; [apply untouched_refl|].
  cbn [formatter_while].
  pose proof (formatter_iteration_settled fails s H) as U.
  destruct (formatter_iteration fails s) as [[] s']; cbn [snd] in U;
    [|exact U].
  apply (untouched_trans s s'); [exact U|].
  apply IH. apply (settled_untouched s); assumption.
Qed.

(** X12: what is on the clipboard when the loop starts is never formatted:
    when the first reading of the clipboard works, no turn of the loop
    copies anything, as long as nothing else changes the clipboard. *)
Theorem formatter_ignores_initial_clipboard :
  forall fails n s,
    fails (calls s) = None ->
    clipboard (clipboard_formatter_loop fails n s) = clipboard s
    /\ copies (events (clipboard_formatter_loop fails n s))
       = copies (events s).
Proof.
  intros fails n s H. unfold clipboard_formatter_loop, formatter_start.
  unfold bind, print, try_except, paste.
  cbn [calls perform]. rewrite H.
  cbn [set_recent_value count_call clipboard recent_value events calls
       processing_cards_flag].
  match goal with |- context [formatter_while fails n ?s0] =>
    assert (U : untouched s0 (formatter_while fails n s0))
      by (apply formatter_while_settled; left; reflexivity);
    destruct U as (A & _ & C); rewrite A, C end.
  unfold perform. cbn [clipboard events]. split; [reflexivity|].
  rewrite copies_app, app_nil_r. reflexivity.
Qed.

Lemma formatter_ignores_initial_clipboard_witness :
  let s := {| processing_cards_flag := false; recent_value := "";
              clipboard := "$ x $"; calls := 0; events := [] |} in
  clipboard (clipboard_formatter_loop (fun _ => None) 3 s) = clipboard s
  /\ copies (events (clipboard_formatter_loop (fun _ => None) 3 s))
     = copies (events s).
Proof.
  intros s.
  exact (formatter_ignores_initial_clipboard (fun _ => None) 3 s eq_refl).
Defined.

Lemma format_returns text : exists t, format_math_expressions (Some text) = Some t.
Proof. eexists. reflexivity. Qed.

Ltac run_io :=
  unfold call, bind, ret, print, sleep, set_recent_value, perform, count_call,
    settled;
  cbn [snd fst clipboard recent_value calls events].

Lemma formatter_body_settles fails s :
  fails (calls s) = None -> settled (snd (formatter_body fails s)).
Proof.
  intros H. unfold formatter_body, bind, paste. rewrite H.
  cbn [recent_value count_call].
  destruct (negb (str_eq (clipboard s) (recent_value s))
            && nonempty (clipboard s) && negb (isspace (clipboard s))) eqn:G.
  - unfold set_recent_value.
    destruct (is_match _ || is_match _).
    + destruct (format_returns (clipboard s)) as [t ->].
      destruct (negb (str_eq t (clipboard s))).
      * unfold call, bind. cbn [calls count_call].
        destruct (fails (S (calls s))); run_io; left; reflexivity.
      * run_io. left. reflexivity.
    + run_io. left. reflexivity.
  - run_io.
    apply andb_false_iff in G as [G|G].
    + apply andb_false_iff in G as [G|G].
      * left. apply negb_false_iff, str_eq_spec in G. symmetry. exact G.
      * right. left. destruct (clipboard s); [reflexivity|discriminate G].
    + right. right. apply negb_false_iff in G. exact G.
Qed.

Lemma formatter_iteration_settles fails s :
  fails (calls s) = None -> settled (snd (formatter_iteration fails s)).
Proof.
  intros H. pose proof (formatter_body_settles fails s H) as U.
  unfold formatter_iteration.
  destruct (formatter_body fails s) as [[[]|[d|d]] s']; cbn [snd] in *;
    exact U.
Qed.

(** X13: the loop does not work on its own output: after a turn that read
    the clipboard, further turns copy nothing and leave the clipboard and
    [recent_value] as that turn left them, as long as nothing else changes
    the clipboard. *)
Theorem formatter_settles_after_one_turn :
  forall fails n s,
    fails (calls s) = None ->
    clipboard (formatter_while fails (S n) s)
    = clipboard (formatter_while fails 1 s)
    /\ recent_value (formatter_while fails (S n) s)
       = recent_value (formatter_while fails 1 s)
    /\ copies (events (formatter_while fails (S n) s))
       = copies (events (formatter_while fails 1 s)).
Proof.
  intros fails n s H. cbn [formatter_while].
  pose proof (formatter_iteration_settles fails s H) as U.
  destruct (formatter_iteration fails s) as [[] s']; cbn [snd] in U;
    [|repeat split].
  apply formatter_while_settled, U.
Qed.

Lemma formatter_settles_after_one_turn_witness :
  let s := {| processing_cards_flag := false; recent_value := "";
              clipboard := "a $ x $ b $$ y $$ c"; calls := 0; events := [] |} in
  clipboard (formatter_while (fun _ => None) 3 s)
  = clipboard (formatter_while (fun _ => None) 1 s)
  /\ recent_value (formatter_while (fun _ => None) 3 s)
     = recent_value (formatter_while (fun _ => None) 1 s)
  /\ copies (events (formatter_while (fun _ => None) 3 s))
     = copies (events (formatter_while (fun _ => None) 1 s)).
Proof.
  intros s.
  exact (formatter_settles_after_one_turn (fun _ => None) 2 s eq_refl).
Defined.

Lemma formatter_body_few_dollars fails s :
  dollars (clipboard s) <= 1 ->
  clipboard (snd (formatter_body fails s)) = clipboard s
  /\ copies (events (snd (formatter_body fails s))) = copies (events s).
Proof.
  intros H. unfold formatter_body, bind, paste.
  destruct (fails (calls s)); [split; reflexivity|].
  cbn [recent_value count_call].
  assert (G : is_match (search no_flags PATTERN_SINGLE (clipboard s))
              || is_match (search re_MULTILINE PATTERN_DOUBLE (clipboard s))
              = false).
  { unfold search. rewrite (proj2 (search_single_none _) H).
    rewrite search_double_none by lia. reflexivity. }
  destruct (negb _ && _ && _).
  - cbn [set_recent_value]. rewrite G.
    cbn [ret sleep perform snd clipboard events]. split; [reflexivity|].
    rewrite copies_app, app_nil_r. reflexivity.
  - cbn [ret sleep perform snd clipboard events count_call].
    split; [reflexivity|]. rewrite copies_app, app_nil_r. reflexivity.
Qed.

(** X14: a text with fewer than two dollar signs is never rewritten by the
    loop, whatever blanks it has around it; nothing is copied. *)
Theorem formatter_needs_two_dollars :
  forall fails n s,
    dollars (clipboard s) <= 1 ->
    clipboard (formatter_while fails n s) = clipboard s
    /\ copies (events (formatter_while fails n s)) = copies (events s).
Proof.
  intros fails n. induction n as [|n IH]; intros s H; [split; reflexivity|].
  cbn [formatter_while].
  destruct (formatter_body_few_dollars fails s H) as [A C].
  unfold formatter_iteration.
  destruct (formatter_body fails s) as [[[]|[d|d]] s']; cbn [snd] in A, C.
  - rewrite <- A, <- C. apply IH. rewrite A. exact H.
  - split; assumption.
  - rewrite <- A, <- C.
    assert (E : clipboard (perform (Sleep 2000) s') = clipboard s')
      by reflexivity.
    assert (F : copies (events (perform (Sleep 2000) s')) = copies (events s'))
      by (cbn [perform events]; rewrite copies_app, app_nil_r; reflexivity).
    rewrite <- E, <- F. apply IH. rewrite E, A. exact H.
Qed.

Lemma formatter_needs_two_dollars_witness :
  let s := {| processing_cards_flag := false; recent_value := "";
              clipboard := "  costs 5$ each  "; calls := 0; events := [] |} in
  dollars (clipboard s) <= 1
  /\ clipboard (formatter_while (fun _ => None) 3 s) = clipboard s
  /\ copies (events (formatter_while (fun _ => None) 3 s)) = copies (events s).
Proof.
  intros s.
  assert (H : dollars (clipboard s) <= 1) by (vm_compute; lia).
  exact (conj H (formatter_needs_two_dollars (fun _ => None) 3 s H)).
Defined.

(** * The keyboard automation *)

Ltac run_calls fails :=
  repeat (cbn [snd fst clipboard recent_value calls events perform count_call];
          match goal with
          | |- context [fails ?n] => destruct (fails n)
          end).

Ltac count_events :=
  cbn [snd fst clipboard recent_value calls events perform count_call
       processing_cards_flag];
  rewrite ?copies_app, ?saves_app; cbn [copies saves];
  rewrite ?app_nil_r, <- ?app_assoc, ?Nat.add_0_r.

Lemma card_steps_trace platform fails c s :
  exists k,
    copies (events (snd (card_steps platform fails c s)))
    = copies (events s)
      ++ firstn k [convert_latex_delimiters (question c);
                   convert_latex_delimiters (answer c)]
    /\ k <= 2
    /\ match fst (card_steps platform fails c s) with
       | Returns _ =>
           k = 2
           /\ saves (events (snd (card_steps platform fails c s)))
              = saves (events s) + 1
       | Raises _ =>
           saves (events (snd (card_steps platform fails c s)))
           = saves (events s)
       end.
Proof.
  unfold card_steps, robust_paste, bind, call, print, sleep.
  run_calls fails; count_events;
    first [ exists 0; cbn [firstn]; rewrite ?app_nil_r;
            repeat split; (reflexivity || lia)
          | exists 1; repeat split; (reflexivity || lia)
          | exists 2; repeat split; (reflexivity || lia) ].
Qed.

Lemma card_steps_returns platform fails c s :
  (forall n, fails n = None) ->
  fst (card_steps platform fails c s) = Returns tt.
Proof.
  intros H. unfold card_steps, robust_paste, bind, call, print, sleep.
  repeat (cbn [snd fst calls perform count_call]; rewrite H). reflexivity.
Qed.

Lemma print_copies line s :
  copies (events (perform (Print line) s)) = copies (events s).
Proof. count_events. reflexivity. Qed.

Lemma print_saves line s :
  saves (events (perform (Print line) s)) = saves (events s).
Proof. count_events. reflexivity. Qed.

Lemma entry_loop_trace platform fails total l : forall s,
  exists k j,
    copies (events (snd (entry_loop platform fails total l s)))
    = copies (events s) ++ firstn k (fields (map snd l))
    /\ saves (events (snd (entry_loop platform fails total l s)))
       = saves (events s) + j
    /\ 2 * j <= k <= 2 * j + 2.
Proof.
  induction l as [|[i c] l IH]; intros s.
  - exists 0, 0. cbn [entry_loop]. unfold print. cbn [snd firstn].
    rewrite print_copies, print_saves, app_nil_r. repeat split; lia.
  - cbn [entry_loop map snd fields flat_map]. unfold bind, print.
    set (s0 := perform _ s).
    assert (C0 : copies (events s0) = copies (events s)) by apply print_copies.
    assert (S0 : saves (events s0) = saves (events s)) by apply print_saves.
    clearbody s0.
    destruct (card_steps_trace platform fails c s0) as (k0 & C1 & Hk & R1).
    destruct (card_steps platform fails c s0) as [[[]|e1] s1]; cbn [fst snd] in *.
    + destruct R1 as [-> S1].
      destruct (IH (perform (Print ("SUCCESS: Card " ++ of_nat (i + 1) ++ " created.")) s1))
        as (k & j & C3 & S3 & B).
      exists (2 + k), (1 + j). rewrite C3, S3, print_copies, print_saves, C1, S1, C0, S0.
      cbn [firstn app]. rewrite <- app_assoc. repeat split; try reflexivity; lia.
    + exists k0, 0. rewrite print_copies, print_saves, C1, R1, C0, S0.
      repeat split; try lia. f_equal.
      destruct k0 as [|[|[|k0]]]; try reflexivity. lia.
Qed.

Lemma entry_loop_complete platform fails total l : forall s,
  (forall n, fails n = None) ->
  copies (events (snd (entry_loop platform fails total l s)))
  = copies (events s) ++ fields (map snd l)
  /\ saves (events (snd (entry_loop platform fails total l s)))
     = saves (events s) + length l.
Proof.
  intros s H. revert s. induction l as [|[i c] l IH]; intros s.
  - cbn [entry_loop]. unfold print. cbn [snd map fields flat_map length].
    rewrite print_copies, print_saves, app_nil_r. split; [reflexivity|lia].
  - cbn [entry_loop map snd fields flat_map length]. unfold bind, print.
    set (s0 := perform _ s).
    assert (C0 : copies (events s0) = copies (events s)) by apply print_copies.
    assert (S0 : saves (events s0) = saves (events s)) by apply print_saves.
    clearbody s0.
    destruct (card_steps_trace platform fails c s0) as (k0 & C1 & Hk & R1).
    pose proof (card_steps_returns platform fails c s0 H) as Hr.
    destruct (card_steps platform fails c s0) as [[[]|e1] s1]; cbn [fst snd] in *;
      [|discriminate Hr].
    destruct R1 as [-> S1].
    destruct (IH (perform (Print ("SUCCESS: Card " ++ of_nat (i + 1) ++ " created.")) s1))
      as [C3 S3].
    rewrite C3, S3, print_copies, print_saves, C1, S1, C0, S0.
    cbn [firstn app]. rewrite <- app_assoc. split; [reflexivity|lia].
Qed.

Lemma map_snd_enumerate {A} (l : list A) : map snd (enumerate l) = l.
Proof.
  unfold enumerate. generalize 0. induction l as [|a l IH]; intros k;
    [reflexivity|].
  cbn [length List.seq combine map snd]. rewrite IH. reflexivity.
Qed.

Lemma enumerate_length {A} (l : list A) : length (enumerate l) = length l.
Proof.
  unfold enumerate. rewrite length_combine, length_seq. apply Nat.min_id.
Qed.

Lemma automate_trace platform fails cards s :
  exists k j,
    copies (events (snd (automate_anki_card_entry platform fails cards s)))
    = copies (events s) ++ firstn k (fields cards)
    /\ saves (events (snd (automate_anki_card_entry platform fails cards s)))
       = saves (events s) + j
    /\ 2 * j <= k <= 2 * j + 2.
Proof.
  destruct cards as [|c cards].
  - exists 0, 0. cbn [automate_anki_card_entry]. unfold print. cbn [snd firstn].
    rewrite print_copies, print_saves, app_nil_r. repeat split; lia.
  - set (l := c :: cards). unfold automate_anki_card_entry.
    change (match l with [] => _ | _ :: _ => ?b end) with b.
    unfold bind, print.
    destruct (entry_loop_trace platform fails (length l) (enumerate l)
                (perform (Print ([LF] ++ "INFO: Starting Anki card creation for "
                                 ++ of_nat (length l) ++ " card(s)...")) s))
      as (k & j & C & S & B).
    exists k, j. rewrite map_snd_enumerate, print_copies in C.
    rewrite print_saves in S. repeat split; try assumption; lia.
Qed.

Lemma automate_complete platform fails cards s :
  (forall n, fails n = None) ->
  copies (events (snd (automate_anki_card_entry platform fails cards s)))
  = copies (events s) ++ fields cards
  /\ saves (events (snd (automate_anki_card_entry platform fails cards s)))
     = saves (events s) + length cards.
Proof.
  intros H. destruct cards as [|c cards].
  - cbn [automate_anki_card_entry]. unfold print. cbn [snd fields flat_map length].
    rewrite print_copies, print_saves, app_nil_r. split; [reflexivity|lia].
  - set (l := c :: cards). unfold automate_anki_card_entry.
    change (match l with [] => _ | _ :: _ => ?b end) with b.
    unfold bind, print.
    destruct (entry_loop_complete platform fails (length l) (enumerate l)
                (perform (Print ([LF] ++ "INFO: Starting Anki card creation for "
                                 ++ of_nat (length l) ++ " card(s)...")) s) H)
      as [C S].
    rewrite map_snd_enumerate, print_copies in C.
    rewrite enumerate_length, print_saves in S. split; assumption.
Qed.

Lemma for_each_print lines : forall s,
  fst (for_each lines print s) = Returns tt
  /\ copies (events (snd (for_each lines print s))) = copies (events s)
  /\ saves (events (snd (for_each lines print s))) = saves (events s).
Proof.
  induction lines as [|a lines IH]; intros s; [repeat split|].
  cbn [for_each]. unfold bind.
  change (print a s) with (Returns tt, perform (Print a) s). cbv beta iota.
  destruct (IH (perform (Print a) s)) as (R & C & S).
  rewrite R, C, S, print_copies, print_saves. repeat split.
Qed.

Lemma bind_print {B} line (k : unit -> M B) s :
  bind (print line) k s = k tt (perform (Print line) s).
Proof. reflexivity. Qed.

Lemma bind_sleep {B} ms (k : unit -> M B) s :
  bind (sleep ms) k s = k tt (perform (Sleep ms) s).
Proof. reflexivity. Qed.

Lemma sleep_copies ms s :
  copies (events (perform (Sleep ms) s)) = copies (events s).
Proof. count_events. reflexivity. Qed.

Lemma sleep_saves ms s :
  saves (events (perform (Sleep ms) s)) = saves (events s).
Proof. count_events. reflexivity. Qed.

(** What the hotkey callback leaves when the flag was not set: the flag is
    not set, and the fields copied and the cards saved are those of a run
    of the automation on the cards parsed from the clipboard, which may
    have been cut short. *)
Lemma callback_trace platform fails s :
  processing_cards_flag s = false ->
  exists k j,
    processing_cards_flag (snd (on_activate_hotkey_callback platform fails s))
    = false
    /\ copies (events (snd (on_activate_hotkey_callback platform fails s)))
       = copies (events s)
         ++ firstn k (fields (fst (parse_flashcards_from_text
                                     (Some (clipboard s)))))
    /\ saves (events (snd (on_activate_hotkey_callback platform fails s)))
       = saves (events s) + j
    /\ 2 * j <= k <= 2 * j + 2
    /\ ((forall n, fails n = None) ->
        firstn k (fields (fst (parse_flashcards_from_text
                                 (Some (clipboard s)))))
        = fields (fst (parse_flashcards_from_text (Some (clipboard s))))
        /\ j = length (fst (parse_flashcards_from_text (Some (clipboard s))))).
Proof.
  intros Hflag.
  remember (snd (on_activate_hotkey_callback platform fails s)) as sf eqn:E.
  unfold on_activate_hotkey_callback in E. rewrite Hflag in E.
  unfold bind at 1 in E. unfold set_flag at 1 in E. rewrite bind_print in E.
  set (s0 := perform _ _) in E.
  assert (C0 : copies (events s0) = copies (events s))
    by (unfold s0; count_events; reflexivity).
  assert (S0 : saves (events s0) = saves (events s))
    by (unfold s0; count_events; reflexivity).
  assert (B0 : clipboard s0 = clipboard s) by reflexivity.
  clearbody s0. rewrite <- C0, <- S0, <- B0. clear C0 S0 B0 Hflag s.
  set (cards := fst (parse_flashcards_from_text (Some (clipboard s0)))).
  match type of E with context [try_except ?b ?h] =>
    set (body := b) in E; set (handler := h) in E end.
  assert (Hbody : exists k j,
    copies (events (snd (body s0))) = copies (events s0) ++ firstn k (fields cards)
    /\ saves (events (snd (body s0))) = saves (events s0) + j
    /\ 2 * j <= k <= 2 * j + 2
    /\ ((forall n, fails n = None) ->
        firstn k (fields cards) = fields cards /\ j = length cards)).
  { remember (snd (body s0)) as sb eqn:Eb.
    unfold body, bind at 1, paste in Eb.
    destruct (fails (calls s0)) as [e|] eqn:F.
    - exists 0, 0. subst sb. cbn [snd firstn count_call events].
      rewrite app_nil_r.
      split; [reflexivity|]. split; [lia|]. split; [lia|].
      intros H; rewrite H in F; discriminate F.
    - set (s1 := count_call s0) in Eb.
      assert (C1 : copies (events s1) = copies (events s0)) by reflexivity.
      assert (S1 : saves (events s1) = saves (events s0)) by reflexivity.
      clearbody s1. rewrite <- C1, <- S1. clear C1 S1.
      destruct (negb (nonempty (clipboard s0)) || isspace (clipboard s0)) eqn:G.
      + assert (Hc : cards = []).
        { unfold cards, parse_flashcards_from_text.
          destruct (clipboard s0) as [|c t]; [reflexivity|].
          cbn [nonempty negb orb] in G. rewrite G. reflexivity. }
        rewrite Hc. exists 0, 0. subst sb. unfold print.
        cbn [snd firstn fields flat_map length].
        rewrite print_copies, print_saves, app_nil_r.
        repeat split; (reflexivity || lia).
      + rewrite bind_print in Eb. unfold cards.
        destruct (parse_flashcards_from_text (Some (clipboard s0)))
          as [parsed printed].
        cbn [fst]. unfold bind at 1 in Eb.
        set (s2 := perform _ s1) in Eb.
        assert (C2 : copies (events s2) = copies (events s1)) by apply print_copies.
        assert (S2 : saves (events s2) = saves (events s1)) by apply print_saves.
        clearbody s2. rewrite <- C2, <- S2. clear C2 S2.
        destruct (for_each_print printed s2) as (R3 & C3 & S3).
        destruct (for_each printed print s2) as [r3 s3]. cbn [fst snd] in R3, C3, S3.
        subst r3. rewrite <- C3, <- S3. clear C3 S3.
        destruct parsed as [|c0 parsed].
        * exists 0, 0. rewrite !bind_print in Eb. unfold print in Eb.
          subst sb. cbn [snd firstn fields flat_map length].
          rewrite !print_copies, !print_saves, app_nil_r.
          repeat split; (reflexivity || lia).
        * set (l := c0 :: parsed) in *.
          rewrite !bind_print in Eb. cbn [for_each] in Eb.
          cbv beta iota delta [bind print sleep ret] in Eb.
          set (s4 := perform _ _) in Eb.
          assert (C4 : copies (events s4) = copies (events s3))
            by (unfold s4; repeat (rewrite print_copies || rewrite sleep_copies);
                reflexivity).
          assert (S4 : saves (events s4) = saves (events s3))
            by (unfold s4; repeat (rewrite print_saves || rewrite sleep_saves);
                reflexivity).
          clearbody s4. rewrite <- C4, <- S4. subst sb.
          destruct (automate_trace platform fails l s4) as (k & j & C & S & B).
          exists k, j. split; [exact C|]. split; [exact S|]. split; [exact B|].
          intros H. destruct (automate_complete platform fails l s4 H) as [C' S'].
          rewrite C' in C. rewrite S' in S. apply app_inv_head in C.
          split; [symmetry; exact C|lia]. }
  destruct Hbody as (k & j & C & S & B & Hall).
  exists k, j. rewrite <- C, <- S. subst sf.
  unfold try_finally, try_except, handler.
  destruct (body s0) as [[[]|e] sb];
    cbv beta iota delta [bind set_flag print snd];
    unfold perform; cbn [processing_cards_flag events];
    rewrite ?copies_app, ?saves_app; cbn [copies saves];
    rewrite ?app_nil_r, ?Nat.add_0_r; repeat split; try reflexivity;
    try apply B; apply Hall; assumption.
Qed.

(** X15: whatever call fails, the automation copies the fields in order:
    the texts put on the clipboard are an initial part of the converted
    question and answer of each card, in the order of the cards, and a
    card is saved only after both of its fields were copied. *)
Theorem automation_copies_fields_in_order :
  forall platform fails cards s,
    exists k j,
      copies (events (snd (automate_anki_card_entry platform fails cards s)))
      = copies (events s) ++ firstn k (fields cards)
      /\ saves (events (snd (automate_anki_card_entry platform fails cards s)))
         = saves (events s) + j
      /\ 2 * j <= k <= 2 * j + 2.
Proof. intros. apply automate_trace. Qed.

(** X16: when no call fails, a press of the hotkey types every card parsed
    from the clipboard: the texts copied are the converted question and
    answer of each parsed card, in order, each card is saved once, and the
    flag is cleared at the end. *)
Theorem hotkey_types_every_parsed_card :
  forall platform fails s,
    (forall n, fails n = None) ->
    processing_cards_flag s = false ->
    copies (events (snd (on_activate_hotkey_callback platform fails s)))
    = copies (events s)
      ++ fields (fst (parse_flashcards_from_text (Some (clipboard s))))
    /\ saves (events (snd (on_activate_hotkey_callback platform fails s)))
       = saves (events s)
         + length (fst (parse_flashcards_from_text (Some (clipboard s))))
    /\ processing_cards_flag
         (snd (on_activate_hotkey_callback platform fails s)) = false.
Proof.
  intros platform fails s H Hflag.
  destruct (callback_trace platform fails s Hflag)
    as (k & j & F & C & S & _ & Hall).
  destruct (Hall H) as [Hk Hj]. rewrite C, S, F, Hk, Hj. repeat split.
Qed.

Lemma hotkey_types_every_parsed_card_witness :
  let s := {| processing_cards_flag := false; recent_value := "";
              clipboard := two_cards_text; calls := 0; events := [] |} in
  (forall n : nat, (fun _ : nat => @None exn) n = None)
  /\ processing_cards_flag s = false
  /\ copies (events (snd (on_activate_hotkey_callback "linux" (fun _ => None) s)))
     = copies (events s)
       ++ fields (fst (parse_flashcards_from_text (Some (clipboard s))))
  /\ saves (events (snd (on_activate_hotkey_callback "linux" (fun _ => None) s)))
     = saves (events s)
       + length (fst (parse_flashcards_from_text (Some (clipboard s))))
  /\ processing_cards_flag
       (snd (on_activate_hotkey_callback "linux" (fun _ => None) s)) = false.
Proof.
  intros s.
  refine (conj (fun _ => eq_refl) (conj eq_refl _)).
  exact (hotkey_types_every_parsed_card "linux" (fun _ => None) s
           (fun _ => eq_refl) eq_refl).
Defined.

(** X17: whatever call fails, a press of the hotkey clears the flag at the
    end, and what it copies is an initial part of the converted fields of
    the cards parsed from the clipboard; a clipboard with no valid card
    leads to no copy. *)
Theorem hotkey_clears_flag_and_copies_only_fields :
  forall platform fails s,
    processing_cards_flag s = false ->
    processing_cards_flag
      (snd (on_activate_hotkey_callback platform fails s)) = false
    /\ exists k,
         copies (events (snd (on_activate_hotkey_callback platform fails s)))
         = copies (events s)
           ++ firstn k (fields (fst (parse_flashcards_from_text
                                       (Some (clipboard s))))).
Proof.
  intros platform fails s Hflag.
  destruct (callback_trace platform fails s Hflag)
    as (k & j & F & C & _).
  split; [exact F|]. exists k. exact C.
Qed.

Lemma hotkey_clears_flag_and_copies_only_fields_witness :
  let s := {| processing_cards_flag := false; recent_value := "";
              clipboard := two_cards_text; calls := 0; events := [] |} in
  let fails := fun n => if n =? 3 then Some (OtherException "moved") else None in
  processing_cards_flag s = false
  /\ processing_cards_flag
       (snd (on_activate_hotkey_callback "darwin" fails s)) = false
  /\ exists k,
       copies (events (snd (on_activate_hotkey_callback "darwin" fails s)))
       = copies (events s)
         ++ firstn k (fields (fst (parse_flashcards_from_text
                                     (Some (clipboard s))))).
Proof.
  intros s fails.
  refine (conj eq_refl _).
  exact (hotkey_clears_flag_and_copies_only_fields "darwin" fails s eq_refl).
Defined.


(** * The common prefix *)

Import Autocomplete.

Lemma firstn_succ_nth {A} (s : list A) : forall i c,
  nth_error s i = Some c -> firstn (S i) s = firstn i s ++ [c].
Proof.
  induction s as [|a s IH]; intros [|i] c H; try discriminate H.
  - injection H as ->. reflexivity.
  - cbn [nth_error] in H. change (firstn (S (S i)) (a :: s)) with (a :: firstn (S i) s).
    rewrite (IH i c H). reflexivity.
Qed.

Lemma differs_false i c s : differs i c s = false <-> nth_error s i = Some c.
Proof.
  unfold differs. destruct (nth_error s i) as [d|]; split; intros H;
    try discriminate H.
  - apply negb_false_iff, Ascii.eqb_eq in H. subst. reflexivity.
  - injection H as ->. rewrite Ascii.eqb_refl. reflexivity.
Qed.

Lemma nth_error_firstn_eq {A} (s t : list A) n i :
  firstn n s = firstn n t -> i < n -> nth_error s i = nth_error t i.
Proof.
  intros H Hi. apply Nat.ltb_lt in Hi.
  pose proof (nth_error_firstn n s i) as Es.
  pose proof (nth_error_firstn n t i) as Et.
  rewrite Hi in Es, Et. rewrite <- Es, <- Et, H. reflexivity.
Qed.

(** What the loop gives, when the strings agree with the first before
    column [i]. *)
Lemma columns_spec first others n : forall i,
  i <= length first ->
  (forall s, In s others -> firstn i s = firstn i first) ->
  match columns first others i n with
  | Value p =>
      (p = first /\ i + n <= length first
       /\ forall s, In s others -> firstn (i + n) s = firstn (i + n) first)
      \/ (exists m c,
            m < i + n /\ nth_error first m = Some c /\ p = firstn m first
            /\ (forall s, In s others -> firstn m s = p)
            /\ exists s, In s others /\ differs m c s = true)
  | IndexError =>
      length first < i + n
      /\ forall s, In s others -> firstn (length first) s = first
  end.
Proof.
  induction n as [|n IH]; intros i Hi Hagree.
  - cbn [columns]. left. rewrite Nat.add_0_r. auto.
  - cbn [columns]. destruct (nth_error first i) as [c|] eqn:E.
    + destruct (existsb (differs i c) others) eqn:X.
      * right. exists i, c. apply existsb_exists in X.
        repeat split; try assumption; lia.
      * assert (Hlt : i < length first)
          by (apply nth_error_Some; rewrite E; discriminate).
        assert (Hnext : forall s, In s others -> firstn (S i) s = firstn (S i) first).
        { intros s Hs. rewrite (firstn_succ_nth first i c E).
          rewrite (firstn_succ_nth s i c), (Hagree s Hs); [reflexivity|].
          apply differs_false.
          destruct (differs i c s) eqn:D; [|reflexivity].
          rewrite <- X. symmetry. apply existsb_exists. exists s. auto. }
        specialize (IH (S i) Hlt Hnext).
        rewrite Nat.add_succ_r. cbn [Nat.add] in IH.
        destruct (columns first others (S i) n) as [p|]; exact IH.
    + apply nth_error_None in E. assert (i = length first) as -> by lia.
      split; [lia|]. intros s Hs. rewrite (Hagree s Hs). apply firstn_all.
Qed.

Lemma common_prefix_nth p strs s i :
  common_prefix p strs -> In s strs -> i < length p ->
  nth_error s i = nth_error p i.
Proof.
  intros H Hs Hi. apply Nat.ltb_lt in Hi.
  pose proof (nth_error_firstn (length p) s i) as Es.
  rewrite Hi, (H s Hs) in Es. symmetry. exact Es.
Qed.

(** X18: a result shorter than the number of strings is the longest common
    prefix: every string begins with it, and no common prefix is longer. *)
Theorem short_result_is_longest_common_prefix :
  forall (strs : list str) (p : str),
    find_longest_common_prefix strs = Value p ->
    length p < length strs ->
    common_prefix p strs
    /\ forall q, common_prefix q strs -> length q <= length p.
Proof.
  intros [|first others] p H Hlen.
  - injection H as <-. cbn in Hlen. lia.
  - cbn [find_longest_common_prefix] in H.
    pose proof (columns_spec first others (length (first :: others)) 0
                  (Nat.le_0_l _) (fun s _ => eq_refl)) as Spec.
    rewrite H in Spec. cbn [Nat.add] in Spec.
    destruct Spec as [(-> & Hn & _)|(m & c & _ & Hc & -> & Hpre & s & Hs & Hd)];
      [lia|].
    assert (Hm : m < length first)
      by (apply nth_error_Some; rewrite Hc; discriminate).
    assert (Lp : length (firstn m first) = m)
      by (rewrite length_firstn; lia).
    split.
    + intros t [<-|Ht]; rewrite Lp; [reflexivity|apply Hpre, Ht].
    + intros q Hq. rewrite Lp.
      destruct (Nat.le_gt_cases (length q) m) as [|Hgt]; [assumption|exfalso].
      pose proof (common_prefix_nth q _ first m Hq (or_introl eq_refl) Hgt) as E1.
      pose proof (common_prefix_nth q _ s m Hq (or_intror Hs) Hgt) as E2.
      assert (D : differs m c s = false)
        by (apply differs_false; congruence).
      congruence.
Qed.

Lemma short_result_is_longest_common_prefix_witness :
  let strs : list str := ["flower" : str; "flow" : str; "flight" : str] in
  find_longest_common_prefix strs = Value "fl"
  /\ length (list_ascii_of_string "fl") < length strs
  /\ common_prefix "fl" strs
  /\ forall q, common_prefix q strs -> length q <= length (list_ascii_of_string "fl").
Proof.
  intros strs.
  assert (H1 : find_longest_common_prefix strs = Value "fl") by reflexivity.
  assert (H2 : length (list_ascii_of_string "fl") < length strs)
    by (vm_compute; lia).
  exact (conj H1 (conj H2
           (short_result_is_longest_common_prefix strs "fl" H1 H2))).
Defined.

(** X19: the call ends in an [IndexError] exactly when the first string is
    shorter than the number of strings and every other string begins with
    it. *)
Theorem index_error_on_short_first_string :
  forall (first : str) (others : list str),
    find_longest_common_prefix (first :: others) = IndexError
    <-> length first < length (first :: others)
        /\ common_prefix first others.
Proof.
  intros first others. cbn [find_longest_common_prefix].
  pose proof (columns_spec first others (length (first :: others)) 0
                (Nat.le_0_l _) (fun s _ => eq_refl)) as Spec.
  cbn [Nat.add] in Spec. split.
  - intros H. rewrite H in Spec. exact Spec.
  - intros [Hlen Hpre].
    destruct (columns first others 0 (length (first :: others))) as [p|];
      [exfalso|reflexivity].
    destruct Spec as [(_ & Hn & _)|(m & c & _ & Hc & _ & _ & s & Hs & Hd)];
      [lia|].
    assert (Hm : m < length first)
      by (apply nth_error_Some; rewrite Hc; discriminate).
    assert (D : differs m c s = false).
    { apply differs_false. rewrite <- Hc.
      apply (common_prefix_nth first others s m Hpre Hs Hm). }
    congruence.
Qed.

(** X20: when the strings agree on as many leading characters as there are
    strings, the first string is returned whole, whether or not the others
    begin with it. *)
Theorem first_string_returned_after_long_agreement :
  forall (first : str) (others : list str),
    length (first :: others) <= length first ->
    (forall s, In s others ->
       firstn (length (first :: others)) s
       = firstn (length (first :: others)) first) ->
    find_longest_common_prefix (first :: others) = Value first.
Proof.
  intros first others Hlen Hagree. cbn [find_longest_common_prefix].
  pose proof (columns_spec first others (length (first :: others)) 0
                (Nat.le_0_l _) (fun s _ => eq_refl)) as Spec.
  cbn [Nat.add] in Spec.
  destruct (columns first others 0 (length (first :: others))) as [p|].
  - destruct Spec as [(-> & _)|(m & c & Hm & Hc & _ & _ & s & Hs & Hd)];
      [reflexivity|exfalso].
    assert (D : differs m c s = false).
    { apply differs_false. rewrite <- Hc.
      apply (nth_error_firstn_eq s first _ m (Hagree s Hs) Hm). }
    congruence.
  - destruct Spec as [Hshort _]. lia.
Qed.

Lemma first_string_returned_after_long_agreement_witness :
  let first : str := "abc" in
  let others : list str := ["abd" : str] in
  length (first :: others) <= length first
  /\ (forall s, In s others ->
        firstn (length (first :: others)) s
        = firstn (length (first :: others)) first)
  /\ find_longest_common_prefix (first :: others) = Value first.
Proof.
  intros first others.
  assert (H1 : length (first :: others) <= length first) by (vm_compute; lia).
  assert (H2 : forall s, In s others ->
                 firstn (length (first :: others)) s
                 = firstn (length (first :: others)) first).
  { intros s [<-|[]]. reflexivity. }
  exact (conj H1 (conj H2
           (first_string_returned_after_long_agreement first others H1 H2))).
Defined.
